(** * Gomoku: board, win detection, evaluator, one-ply strategies and the
    iterative-deepening alpha-beta search of [gomoku.py].

    The development is a shallow embedding of the methods of class
    [Gomoku].  Python integers are [Z]; a symbol is a Python [str], here a
    [string]; the board is the list of rows the constructor builds.  The
    object [self] is threaded explicitly: a method that assigns to a field
    returns the new object next to its result.

    Three conventions hold throughout.  The statements are about objects
    of the shape the constructor establishes ([wf]): on them no subscript
    of the source is out of range.  The wall clock of the search is an
    oracle giving the successive values of [time.time()].  The two
    unbounded constructs of the search, the recursion of [minimax] and the
    [while] loop of [iterative_deepening], take fuel and yield [None] when
    it runs out; the statements say how much fuel is enough. *)

From Stdlib Require Import ZArith Lia Bool Sorted.
From stdpp Require Import base numbers option list strings.

Local Open Scope Z_scope.

(** ** Data model *)

(** [class Player]: a symbol and the tag of the strategy ([None] for a
    human). *)
Record Player := mkPlayer {
  symbol : string;
  ai_type : option string
}.

(** The fields of [class Gomoku] that the rule engine reads or writes
    ([current_player] is only used by the interactive loop). *)
Record Gomoku := mkGomoku {
  board_size : Z;
  win_length : Z;
  ai_time_limit : Z;
  board : list (list string);
  nodes_expanded : Z
}.

(** A chosen move, the tuple [(row, col)]. *)
Definition Move : Type := Z * Z.

(** [range(n)] and [range(a, b)]. *)
Definition range (n : Z) : list Z :=
  map Z.of_nat (seq 0 (Z.to_nat n)).

Definition range_from (a b : Z) : list Z :=
  map (fun k => a + Z.of_nat k) (seq 0 (Z.to_nat (b - a))).

(** [Gomoku.__init__]: a [board_size] x [board_size] grid of ['.']. *)
Definition init (size wlen limit : Z) : Gomoku :=
  {| board_size := size;
     win_length := wlen;
     ai_time_limit := limit;
     board := replicate (Z.to_nat size) (replicate (Z.to_nat size) ".");
     nodes_expanded := 0 |}.

(** The subscript [self.board[row][col]].  Every subscript in the source is
    guarded by [0 <= row < board_size and 0 <= col < board_size], so on a
    grid of the constructor's shape it is never out of range (where Python
    would raise [IndexError]) and never negative (where Python would wrap
    around); the fallback value is never observed on such a grid. *)
Definition cell (b : list (list string)) (row col : Z) : string :=
  match b !! Z.to_nat row with
  | Some line =>
      match line !! Z.to_nat col with
      | Some s => s
      | None => ""
      end
  | None => ""
  end.

(** The assignment [self.board[row][col] = s]. *)
Definition set_cell (b : list (list string)) (row col : Z) (s : string)
  : list (list string) :=
  alter (fun line => <[Z.to_nat col := s]> line) (Z.to_nat row) b.

Definition with_board (g : Gomoku) (b : list (list string)) : Gomoku :=
  {| board_size := board_size g;
     win_length := win_length g;
     ai_time_limit := ai_time_limit g;
     board := b;
     nodes_expanded := nodes_expanded g |}.

Definition assign (g : Gomoku) (row col : Z) (s : string) : Gomoku :=
  with_board g (set_cell (board g) row col s).

(** The retraction [self.board[row][col] = '.'] that follows every
    speculative placement. *)
Definition retract (g : Gomoku) (row col : Z) : Gomoku :=
  assign g row col ".".

(** The test [0 <= row < self.board_size and 0 <= col < self.board_size]. *)
Definition in_bounds (g : Gomoku) (row col : Z) : bool :=
  (0 <=? row) && (row <? board_size g) && (0 <=? col) && (col <? board_size g).

(** [Gomoku.is_valid_move]. *)
Definition is_valid_move (g : Gomoku) (row col : Z) : bool :=
  in_bounds g row col && String.eqb (cell (board g) row col) ".".

(** [Gomoku.make_move]: the success flag and the object afterwards. *)
Definition make_move (g : Gomoku) (player : Player) (row col : Z)
  : bool * Gomoku :=
  if is_valid_move g row col
  then (true, assign g row col (symbol player))
  else (false, g).

(** [Gomoku.is_full]: [all('.' not in row for row in self.board)]. *)
Definition is_full (g : Gomoku) : bool :=
  forallb (fun line => negb (existsb (String.eqb ".") line)) (board g).

(** The shape the constructor establishes and every method keeps. *)
Definition wf (g : Gomoku) : Prop :=
  length (board g) = Z.to_nat (board_size g) /\
  Forall (fun line => length line = Z.to_nat (board_size g)) (board g).

(** States of a game: the constructor's, then any sequence of placements
    through [make_move] and of retractions. *)
Inductive reachable : Gomoku -> Prop :=
| reach_init size wlen limit : reachable (init size wlen limit)
| reach_move g player row col :
    reachable g -> reachable (snd (make_move g player row col))
| reach_retract g row col :
    reachable g -> reachable (retract g row col).

(** ** Win detection *)

(** The body of the [for _ in range(self.win_length)] loop of
    [check_direction]: [count] grows while the walk stays on cells holding
    [sym]; the first other cell breaks the loop. *)
Fixpoint check_direction_loop (iters : list Z) (g : Gomoku)
    (row col row_delta col_delta : Z) (sym : string) (count : Z) : Z :=
  match iters with
  | [] => count
  | _ :: rest =>
      if in_bounds g row col && String.eqb (cell (board g) row col) sym
      then check_direction_loop rest g (row + row_delta) (col + col_delta)
             row_delta col_delta sym (count + 1)
      else count
  end.

(** [Gomoku.check_direction]. *)
Definition check_direction (g : Gomoku) (row col row_delta col_delta : Z)
    (sym : string) : bool :=
  check_direction_loop (range (win_length g)) g row col row_delta col_delta
    sym 0 =? win_length g.

(** [Gomoku.check_win]: the first origin with a winning direction returns
    [True] out of both loops. *)
Definition check_win (g : Gomoku) (player : Player) : bool :=
  let sym := symbol player in
  existsb (fun row =>
    existsb (fun col =>
      check_direction g row col 1 0 sym
      || check_direction g row col 0 1 sym
      || check_direction g row col 1 1 sym
      || check_direction g row col 1 (-1) sym)
      (range (board_size g)))
    (range (board_size g)).

(** ** Positional evaluator *)

Definition directions4 : list (Z * Z) :=
  [(1, 0); (0, 1); (1, 1); (1, -1)].

Definition directions8 : list (Z * Z) :=
  [(1, 0); (0, 1); (1, 1); (1, -1); (-1, -1); (-1, 1); (-1, 0); (0, -1)].

(** [Gomoku.count_aligned]. *)
Definition count_aligned (g : Gomoku) (row col : Z) (sym : string) : Z :=
  fold_left (fun count d =>
    fold_left (fun count i =>
      let r := row + fst d * i in
      let c := col + snd d * i in
      if in_bounds g r c && String.eqb (cell (board g) r c) sym
      then count + 1 else count)
      (range_from (- win_length g + 1) (win_length g)) count)
    directions4 0.

(** [Gomoku.count_adjacent_spaces]. *)
Definition count_adjacent_spaces (g : Gomoku) (row col : Z) : Z :=
  fold_left (fun count d =>
    let r := row + fst d in
    let c := col + snd d in
    if in_bounds g r c && String.eqb (cell (board g) r c) "."
    then count + 1 else count)
    directions8 0.

(** [Gomoku.potential_extension]. *)
Definition potential_extension (g : Gomoku) (row col : Z) (sym : string) : Z :=
  fold_left (fun potential d =>
    fold_left (fun potential i =>
      let r := row + fst d * i in
      let c := col + snd d * i in
      if in_bounds g r c
      then if String.eqb (cell (board g) r c) sym
              || String.eqb (cell (board g) r c) "."
           then potential + 1 else potential
      else potential)
      (range_from (- win_length g + 1) (win_length g)) potential)
    directions4 0.

(** ['X' if symbol == 'O' else 'O']. *)
Definition opponent_of (sym : string) : string :=
  if String.eqb sym "O" then "X" else "O".

(** [Gomoku.evaluate_board]. *)
Definition evaluate_board (g : Gomoku) (sym : string) : Z :=
  let opponent_symbol := opponent_of sym in
  let center := board_size g / 2 in
  fold_left (fun score row =>
    fold_left (fun score col =>
      if String.eqb (cell (board g) row col) sym then
        score + count_aligned g row col sym
              + Z.max 0 (5 - (Z.abs (row - center) + Z.abs (col - center)))
              + count_adjacent_spaces g row col
              + potential_extension g row col sym
      else if String.eqb (cell (board g) row col) opponent_symbol then
        score - count_aligned g row col opponent_symbol
      else score)
      (range (board_size g)) score)
    (range (board_size g)) 0.

(** ** Scores with the two infinities

    [float('-inf')] and [float('inf')] are compared with the integer scores
    of the evaluator. *)
Inductive ext : Type :=
| NegInf
| Fin (z : Z)
| PosInf.

Definition ext_lt (a b : ext) : bool :=
  match a, b with
  | NegInf, NegInf => false
  | NegInf, _ => true
  | Fin _, NegInf => false
  | Fin x, Fin y => x <? y
  | Fin _, PosInf => true
  | PosInf, _ => false
  end.

Definition ext_le (a b : ext) : bool := negb (ext_lt b a).

(** Python's [max(a, b)] and [min(a, b)]: the second argument is taken only
    when it is strictly better. *)
Definition ext_max (a b : ext) : ext := if ext_lt a b then b else a.
Definition ext_min (a b : ext) : ext := if ext_lt b a then b else a.

(** ** One-ply strategies *)

(** The accumulator of the scans of [greedy_ai] and [worst_ai]: the best
    move so far, its score, and the object. *)
Definition Scan : Type := option Move * ext * Gomoku.

(** One cell of [greedy_ai]: place, evaluate, retract, compare. *)
Definition greedy_cell (sym : string) (row : Z) (acc : Scan) (col : Z) : Scan :=
  let '(best_move, best_score, g) := acc in
  if is_valid_move g row col then
    let g1 := assign g row col sym in
    let score := evaluate_board g1 sym in
    let g2 := assign g1 row col "." in
    if ext_lt best_score (Fin score)
    then (Some (row, col), Fin score, g2)
    else (best_move, best_score, g2)
  else acc.

(** [Gomoku.greedy_ai]: the chosen move and the object afterwards. *)
Definition greedy_ai (g : Gomoku) (sym : string) : option Move * Gomoku :=
  let '(best_move, _, g') :=
    fold_left (fun acc row =>
      fold_left (greedy_cell sym row) (range (board_size (snd acc))) acc)
      (range (board_size g)) (None, NegInf, g) in
  (best_move, g').

(** One cell of [worst_ai]. *)
Definition worst_cell (opponent_symbol : string) (row : Z) (acc : Scan)
    (col : Z) : Scan :=
  let '(worst_move, worst_score, g) := acc in
  if is_valid_move g row col then
    let g1 := assign g row col opponent_symbol in
    let score := evaluate_board g1 opponent_symbol in
    let g2 := assign g1 row col "." in
    if ext_lt (Fin score) worst_score
    then (Some (row, col), Fin score, g2)
    else (worst_move, worst_score, g2)
  else acc.

(** [Gomoku.worst_ai]. *)
Definition worst_ai (g : Gomoku) (opponent_symbol : string)
  : option Move * Gomoku :=
  let '(worst_move, _, g') :=
    fold_left (fun acc row =>
      fold_left (worst_cell opponent_symbol row)
        (range (board_size (snd acc))) acc)
      (range (board_size g)) (None, PosInf, g) in
  (worst_move, g').

(** The list [[(r, c) for r in range(n) for c in range(n)]], row-major. *)
Definition cells (n : Z) : list Move :=
  list_prod (range n) (range n).

(** [[(r, c) for r in ... for c in ... if self.is_valid_move(r, c)]], the
    list [random_ai] draws from. *)
Definition valid_moves (g : Gomoku) : list Move :=
  List.filter (fun m => is_valid_move g (fst m) (snd m)) (cells (board_size g)).

(** ** The search: wall clock, node counter and board in one state

    [time.time()] is an oracle: [clock k] is the value of the [k]-th call of
    the process, in ticks of the clock's resolution; [ai_time_limit] and
    [start_time] are in the same unit.  A computation that may not return is
    given fuel and yields [None] when the fuel is gone. *)
Record World := mkWorld {
  self : Gomoku;
  ticks : nat
}.

Definition M (A : Type) : Type := World -> option (A * World).

Definition place (w : World) (row col : Z) (s : string) : World :=
  mkWorld (assign (self w) row col s) (ticks w).

(** [self.nodes_expanded += 1]. *)
Definition bump (w : World) : World :=
  mkWorld {| board_size := board_size (self w);
             win_length := win_length (self w);
             ai_time_limit := ai_time_limit (self w);
             board := board (self w);
             nodes_expanded := nodes_expanded (self w) + 1 |} (ticks w).

(** A [for x in items:] loop over a loop state; the body returns the new
    state and whether it executed [break]. *)
Fixpoint for_loop {S : Type} (body : Z -> S -> M (S * bool))
    (items : list Z) (s : S) : M S :=
  match items with
  | [] => fun w => Some (s, w)
  | x :: rest => fun w =>
      match body x s w with
      | None => None
      | Some ((s', true), w') => Some (s', w')
      | Some ((s', false), w') => for_loop body rest s' w'
      end
  end.

(** A loop whose body never breaks. *)
Definition no_break {S : Type} (body : Z -> S -> M S) : Z -> S -> M (S * bool) :=
  fun x s w =>
    match body x s w with
    | None => None
    | Some (s', w') => Some ((s', false), w')
    end.

Section Search.

Variable clock : nat -> Z.

(** [time.time()]. *)
Definition time_time (w : World) : Z * World :=
  (clock (ticks w), mkWorld (self w) (S (ticks w))).

Section Node.

(** The recursive call [self.minimax(depth - 1, alpha, beta, ...)] of the
    node being scanned. *)
Variable child : ext -> ext -> M ext.

(** The body of the inner loop of the maximizing branch, on the loop state
    [(best_value, alpha)]. *)
Definition max_cell (sym : string) (beta : ext) (row col : Z)
    (s : ext * ext) : M (ext * ext * bool) :=
  fun w =>
    let '(best_value, alpha) := s in
    if is_valid_move (self w) row col then
      let w1 := place w row col sym in
      match child alpha beta w1 with
      | None => None
      | Some (value, w2) =>
          let w3 := place w2 row col "." in
          let best_value' := ext_max best_value value in
          let alpha' := ext_max alpha value in
          if ext_le beta alpha'
          then Some ((best_value', alpha', true), w3)
          else Some ((best_value', alpha', false), bump w3)
      end
    else Some ((best_value, alpha, false), w).

(** The body of the inner loop of the minimizing branch, on the loop state
    [(best_value, beta)]. *)
Definition min_cell (opponent_symbol : string) (alpha : ext) (row col : Z)
    (s : ext * ext) : M (ext * ext * bool) :=
  fun w =>
    let '(best_value, beta) := s in
    if is_valid_move (self w) row col then
      let w1 := place w row col opponent_symbol in
      match child alpha beta w1 with
      | None => None
      | Some (value, w2) =>
          let w3 := place w2 row col "." in
          let best_value' := ext_min best_value value in
          let beta' := ext_min beta value in
          if ext_le beta' alpha
          then Some ((best_value', beta', true), w3)
          else Some ((best_value', beta', false), bump w3)
      end
    else Some ((best_value, beta, false), w).

(** The two nested loops of a node: [break] leaves the inner loop only, the
    scan goes on with the next row. *)
Definition scan_rows (cell_body : Z -> Z -> ext * ext -> M (ext * ext * bool))
    (s : ext * ext) : M (ext * ext) :=
  fun w =>
    for_loop
      (no_break (fun row s w' =>
         for_loop (cell_body row) (range (board_size (self w'))) s w'))
      (range (board_size (self w))) s w.

End Node.

(** [Gomoku.minimax]; [fuel] bounds the recursion. *)
Fixpoint minimax (fuel : nat) (depth : Z) (alpha beta : ext)
    (maximizing_player : bool) (sym opponent_symbol : string)
    (start_time : Z) : M ext :=
  match fuel with
  | O => fun _ => None
  | S fuel' => fun w =>
      if (depth =? 0) || is_full (self w)
      then Some (Fin (evaluate_board (self w) sym), w)
      else
        let (now, w1) := time_time w in
        if now - start_time >? ai_time_limit (self w1)
        then Some (Fin (evaluate_board (self w1) sym), w1)
        else if maximizing_player then
          match scan_rows
                  (max_cell (fun a b => minimax fuel' (depth - 1) a b false
                                          sym opponent_symbol start_time)
                     sym beta)
                  (NegInf, alpha) w1 with
          | None => None
          | Some ((best_value, _), w2) => Some (best_value, w2)
          end
        else
          match scan_rows
                  (min_cell (fun a b => minimax fuel' (depth - 1) a b true
                                          sym opponent_symbol start_time)
                     opponent_symbol alpha)
                  (PosInf, beta) w1 with
          | None => None
          | Some ((best_value, _), w2) => Some (best_value, w2)
          end
  end.

(** The body of the root scan of [iterative_deepening], on the loop state
    [(current_best_move, current_best_score)].  The recursion below a root
    move is at most [depth - 1] deep, so [depth] is fuel enough. *)
Definition sweep_cell (depth : Z) (sym opponent_symbol : string)
    (start_time : Z) (row col : Z) (s : option Move * ext)
  : M (option Move * ext) :=
  fun w =>
    let '(current_best_move, current_best_score) := s in
    if is_valid_move (self w) row col then
      let w1 := place w row col sym in
      match minimax (Z.to_nat depth) (depth - 1) NegInf PosInf false
              sym opponent_symbol start_time w1 with
      | None => None
      | Some (score, w2) =>
          let w3 := place w2 row col "." in
          if ext_lt current_best_score score
          then Some ((Some (row, col), score), w3)
          else Some ((current_best_move, current_best_score), w3)
      end
    else Some ((current_best_move, current_best_score), w).

(** One pass of the [while] body: the scan of all cells at one depth. *)
Definition sweep (depth : Z) (sym opponent_symbol : string) (start_time : Z)
  : M (option Move * ext) :=
  fun w =>
    for_loop
      (no_break (fun row s w' =>
         for_loop
           (no_break (sweep_cell depth sym opponent_symbol start_time row))
           (range (board_size (self w'))) s w'))
      (range (board_size (self w))) (None, NegInf) w.

(** The [while] loop of [iterative_deepening]; [n] bounds the number of
    times its condition is evaluated. *)
Fixpoint deepening_loop (n : nat) (sym opponent_symbol : string)
    (start_time : Z) (best_move : option Move) (best_score : ext)
    (depth : Z) : M (option Move) :=
  match n with
  | O => fun _ => None
  | S n' => fun w =>
      let (now, w1) := time_time w in
      if now - start_time <? ai_time_limit (self w1) then
        match sweep depth sym opponent_symbol start_time w1 with
        | None => None
        | Some ((current_best_move, current_best_score), w2) =>
            match current_best_move with
            | Some _ =>
                deepening_loop n' sym opponent_symbol start_time
                  current_best_move current_best_score (depth + 1) w2
            | None =>
                deepening_loop n' sym opponent_symbol start_time
                  best_move best_score (depth + 1) w2
            end
        end
      else Some (best_move, w1)
  end.

(** [Gomoku.iterative_deepening]. *)
Definition iterative_deepening (n : nat) (sym opponent_symbol : string)
  : M (option Move) :=
  fun w =>
    let (start_time, w0) := time_time w in
    deepening_loop n sym opponent_symbol start_time None NegInf 1 w0.

(** [random.choice]: [rand k] is the index drawn in a list of [k]
    elements. *)
Variable rand : nat -> nat.

(** [Gomoku.random_ai]. *)
Definition random_ai (g : Gomoku) : option Move :=
  let moves := valid_moves g in
  match moves with
  | [] => None
  | _ :: _ => moves !! (rand (length moves) mod length moves)%nat
  end.

(** [Gomoku.get_ai_move]. *)
Definition get_ai_move (n : nat) (player opponent : Player) : M (option Move) :=
  fun w =>
    if decide (ai_type player = Some "random") then
      Some (random_ai (self w), w)
    else if decide (ai_type player = Some "greedy") then
      let (m, g') := greedy_ai (self w) (symbol player) in
      Some (m, mkWorld g' (ticks w))
    else if decide (ai_type player = Some "worst") then
      let (m, g') := worst_ai (self w) (symbol opponent) in
      Some (m, mkWorld g' (ticks w))
    else if decide (ai_type player = Some "expert") then
      iterative_deepening n (symbol player) (symbol opponent) w
    else Some (None, w).

End Search.

(** ** Vocabulary of the statements *)

(** The four scan directions of a line: to the right, down, down-right and
    up-right, as [(row step, column step)]. *)
Inductive Direction : Type :=
| Right
| Down
| DownRight
| UpRight.

Definition delta (d : Direction) : Z * Z :=
  match d with
  | Right => (0, 1)
  | Down => (1, 0)
  | DownRight => (1, 1)
  | UpRight => (-1, 1)
  end.

(** [run g sym row col d len]: the [len] cells met from [(row, col)] on,
    stepping along [d], are all on the board and all hold [sym]. *)
Definition run (g : Gomoku) (sym : string) (row col : Z) (d : Direction)
    (len : Z) : Prop :=
  forall i, 0 <= i < len ->
    in_bounds g (row + i * fst (delta d)) (col + i * snd (delta d)) = true /\
    cell (board g) (row + i * fst (delta d)) (col + i * snd (delta d)) = sym.

Definition sumZ (l : list Z) : Z := fold_right Z.add 0 l.

(** The cells of the board in the window of [2 * win_length - 1] cells
    centred on [(row, col)] along the axis [d]. *)
Definition window (g : Gomoku) (row col : Z) (d : Z * Z) : list Move :=
  List.filter (fun m => in_bounds g (fst m) (snd m))
    (map (fun i => (row + fst d * i, col + snd d * i))
       (range_from (1 - win_length g) (win_length g))).

(** How many of the cells [ms] hold a symbol accepted by [p]. *)
Definition count_cells (g : Gomoku) (p : string -> bool) (ms : list Move) : Z :=
  Z.of_nat (length (List.filter (fun m => p (cell (board g) (fst m) (snd m))) ms)).

(** (a) marks of [sym] in the four axis windows of a cell. *)
Definition own_alignment (g : Gomoku) (sym : string) (m : Move) : Z :=
  sumZ (map (fun d => count_cells g (fun s => String.eqb s sym)
                        (window g (fst m) (snd m) d)) directions4).

(** (b) the centre bonus. *)
Definition manhattan (a b : Move) : Z :=
  Z.abs (fst a - fst b) + Z.abs (snd a - snd b).

Definition center_bonus (g : Gomoku) (m : Move) : Z :=
  Z.max 0 (5 - manhattan m (board_size g / 2, board_size g / 2)).

(** (c) empty cells among the eight neighbours. *)
Definition free_neighbours (g : Gomoku) (m : Move) : Z :=
  count_cells g (fun s => String.eqb s ".")
    (List.filter (fun q => in_bounds g (fst q) (snd q))
       (map (fun d => (fst m + fst d, snd m + snd d)) directions8)).

(** (d) cells of the four axis windows that hold [sym] or are empty. *)
Definition extension (g : Gomoku) (sym : string) (m : Move) : Z :=
  sumZ (map (fun d => count_cells g
                        (fun s => String.eqb s sym || String.eqb s ".")
                        (window g (fst m) (snd m) d)) directions4).

Definition holds (g : Gomoku) (sym : string) (m : Move) : bool :=
  String.eqb (cell (board g) (fst m) (snd m)) sym.

(** The score as the statement of the evaluator gives it: the four terms
    over the cells of [sym], minus the alignment term over the cells of the
    opponent. *)
Definition evaluate_formula (g : Gomoku) (sym : string) : Z :=
  sumZ (map (fun m => own_alignment g sym m + center_bonus g m
                      + free_neighbours g m + extension g sym m)
          (List.filter (holds g sym) (cells (board_size g))))
  - sumZ (map (own_alignment g (opponent_of sym))
            (List.filter (holds g (opponent_of sym)) (cells (board_size g)))).

(** [m] is the cell a scan of [l] keeps when it replaces its candidate only
    on a strictly greater score: a cell of maximal score, every cell before
    it scoring strictly less. *)
Definition first_maximal (score : Move -> Z) (l : list Move) (m : Move) : Prop :=
  exists before after,
    l = before ++ m :: after /\
    (forall x, In x before -> score x < score m) /\
    (forall x, In x after -> score x <= score m).

(** The same for a scan keeping the minimum. *)
Definition first_minimal (score : Move -> Z) (l : list Move) (m : Move) : Prop :=
  exists before after,
    l = before ++ m :: after /\
    (forall x, In x before -> score m < score x) /\
    (forall x, In x after -> score m <= score x).

(** Row-major order on cells: [x] is scanned before [m]. *)
Definition row_major_before (x m : Move) : Prop :=
  fst x < fst m \/ (fst x = fst m /\ snd x < snd m).

(** One comparison of a scan that keeps the first best cell: the candidate
    and its score, replaced when [better] holds of the old and new score. *)
Definition scan_step (better : ext -> ext -> bool) (score : Move -> ext)
    (acc : option Move * ext) (m : Move) : option Move * ext :=
  if better (snd acc) (score m) then (Some m, score m) else acc.

(** The score one-ply lookahead gives a candidate cell: [sym] is placed
    there and the board evaluated for [sym]. *)
Definition lookahead (g : Gomoku) (sym : string) (m : Move) : Z :=
  evaluate_board (assign g (fst m) (snd m) sym) sym.

(** ** Unpruned minimax, the reference of the search *)

(** Minimax of [d] plies from a position, without pruning and without a
    clock: a leaf ([d = 0] or a full board) is the evaluation for [sym], the
    root maximiser, at every level; a maximizing node places [sym] and takes
    the maximum over the valid cells, a minimizing node places [opp] and
    takes the minimum. *)
Fixpoint plain_minimax (d : nat) (maximizing : bool) (sym opp : string)
    (g : Gomoku) : ext :=
  match d with
  | O => Fin (evaluate_board g sym)
  | S d' =>
      if is_full g then Fin (evaluate_board g sym)
      else if maximizing then
        fold_left (fun best m =>
                     ext_max best
                       (plain_minimax d' false sym opp
                          (assign g (fst m) (snd m) sym)))
          (valid_moves g) NegInf
      else
        fold_left (fun best m =>
                     ext_min best
                       (plain_minimax d' true sym opp
                          (assign g (fst m) (snd m) opp)))
          (valid_moves g) PosInf
  end.

(** The root move of an unpruned search of [depth] plies: every valid cell
    in row-major order is scored by the unpruned minimax of the position
    after [sym] is placed there, and the first cell of maximal score is
    kept. *)
Definition unpruned_root_move (depth : nat) (sym opp : string) (g : Gomoku)
  : option Move :=
  fst (fold_left
         (scan_step ext_lt
            (fun m => plain_minimax (Nat.pred depth) false sym opp
                        (assign g (fst m) (snd m) sym)))
         (valid_moves g) (None, NegInf)).

(** ** Vocabulary of the search proofs *)

(** Two objects that differ at most in the node counter. *)
Definition same_game (g g' : Gomoku) : Prop :=
  board_size g' = board_size g /\ win_length g' = win_length g /\
  ai_time_limit g' = ai_time_limit g /\ board g' = board g.

(** What a call may change: the node counter and the number of clock
    readings. *)
Definition frame (w w' : World) : Prop :=
  same_game (self w) (self w') /\ (ticks w <= ticks w')%nat.

(** [v] answers for the true value [u] in the window [(a, b)]: exact inside
    the window, on the same side outside. *)
Definition bracket (a b u v : ext) : Prop :=
  (ext_le u a = true -> ext_le v a = true) /\
  (ext_le b u = true -> ext_le b v = true) /\
  (ext_lt a u = true -> ext_lt u b = true -> v = u).

(** Loop invariant of a maximizing node entered with the window [(a0, b)],
    on the loop state [(best_value, alpha)]; [p] is the maximum of the true
    values of the cells scanned so far.  Either no cut has happened, and
    [alpha] is both [best_value] and [p] raised to [a0]; or one has, and the
    node is worth at least [b]. *)
Definition max_inv (a0 b p : ext) (s : ext * ext) : Prop :=
  (ext_lt (snd s) b = true /\ snd s = ext_max a0 (fst s) /\
   snd s = ext_max a0 p) \/
  (ext_le b (snd s) = true /\ ext_le b (fst s) = true /\ ext_le b p = true).

(** Loop invariant of a minimizing node entered with the window [(a, b0)],
    on the loop state [(best_value, beta)]. *)
Definition min_inv (a b0 p : ext) (s : ext * ext) : Prop :=
  (ext_lt a (snd s) = true /\ snd s = ext_min b0 (fst s) /\
   snd s = ext_min b0 p) \/
  (ext_le (snd s) a = true /\ ext_le (fst s) a = true /\ ext_le p a = true).

(** The maximum (minimum) of [value] over the positions reached by placing
    [mark] on the valid cells among [l], folded from [p]. *)
Definition children_max (value : Gomoku -> ext) (mark : string) (g : Gomoku)
    (l : list Move) (p : ext) : ext :=
  fold_left (fun acc m => ext_max acc (value (assign g (fst m) (snd m) mark)))
    (List.filter (fun m => is_valid_move g (fst m) (snd m)) l) p.

Definition children_min (value : Gomoku -> ext) (mark : string) (g : Gomoku)
    (l : list Move) (p : ext) : ext :=
  fold_left (fun acc m => ext_min acc (value (assign g (fst m) (snd m) mark)))
    (List.filter (fun m => is_valid_move g (fst m) (snd m)) l) p.

(** The root scan over the valid cells among [l]: the first cell of
    maximal [value] after [mark] is placed, from the candidate [acc]. *)
Definition root_scan (value : Gomoku -> ext) (mark : string) (g : Gomoku)
    (l : list Move) (acc : option Move * ext) : option Move * ext :=
  fold_left (scan_step ext_lt (fun m => value (assign g (fst m) (snd m) mark)))
    (List.filter (fun m => is_valid_move g (fst m) (snd m)) l) acc.

(** A score that is an integer, not one of the infinities. *)
Definition finite (x : ext) : Prop := exists z, x = Fin z.

(** ** Positions used in the examples *)

(** 'O' at (0,0), 'X' at (1,1), 'X' to move, with a given time limit. *)
Definition ox_game (limit : Z) : Gomoku :=
  mkGomoku 3 3 limit [["O"; "."; "."]; ["."; "X"; "."]; ["."; "."; "."]] 0.

(** The maximizing node reached in the third sweep from the empty 3 x 3
    board after 'X' at (0,0) and 'O' at (0,2), when two of its cells have
    been counted. *)
Definition cut_world : World :=
  mkWorld (mkGomoku 3 3 5
             [["X"; "."; "O"]; ["."; "."; "."]; ["."; "."; "."]] 2) 0.

(** The call on a leaf below that node: depth 0, one unit of fuel, an idle
    clock. *)
Definition leaf_call (a b : ext) : M ext :=
  minimax (fun _ => 0) 1 0 a b false "X" "O" 0.

(** ** What a node of the search counts

    The visits of a node are the valid cells for which it makes the
    recursive call, in the order of the scan.  The definitions below follow
    the scan without the counter: they record each visit with what the call
    below returned, whether the test [beta <= alpha] that follows it cut the
    row, and what the call below added to the counter.  [clock t] is the
    reading a call takes when [t] readings have been taken. *)

Record Visit := mkVisit {
  visited : Move;
  returned : ext;
  cuts : bool;
  below : Z
}.

(** What the visits [vs] of a node add to [nodes_expanded]: what the calls
    below added, and one for each visit that does not cut. *)
Definition counted (vs : list Visit) : Z :=
  sumZ (map below vs)
  + Z.of_nat (length (List.filter (fun v => negb (cuts v)) vs)).

(** The visits of one row, from the loop state [s] and the reading [t]:
    [call] gives the value, the count and the next reading of the call
    below a cell, [test] the new loop state and the outcome of the cut
    test.  A visit that cuts ends the row. *)
Fixpoint row_visits (call : ext * ext -> Move -> nat -> ext * Z * nat)
    (test : ext * ext -> ext -> ext * ext * bool)
    (g : Gomoku) (row : Z) (cols : list Z) (s : ext * ext) (t : nat)
  : ext * ext * list Visit * nat :=
  match cols with
  | [] => (s, [], t)
  | col :: rest =>
      if is_valid_move g row col then
        let '(v, c, t1) := call s (row, col) t in
        let '(s1, brk) := test s v in
        if brk then (s1, [mkVisit (row, col) v true c], t1)
        else
          let '(s2, vs, t2) := row_visits call test g row rest s1 t1 in
          (s2, mkVisit (row, col) v false c :: vs, t2)
      else row_visits call test g row rest s t
  end.

(** The visits of a node: its rows one after the other, each from the loop
    state the one before left, a cut or not. *)
Definition node_visits (call : ext * ext -> Move -> nat -> ext * Z * nat)
    (test : ext * ext -> ext -> ext * ext * bool)
    (g : Gomoku) (rows : list Z) (s : ext * ext) (t : nat)
  : ext * ext * list Visit * nat :=
  fold_left
    (fun acc row =>
       let '(s0, vs0, t0) := acc in
       let '(s1, vs1, t1) :=
         row_visits call test g row (range (board_size g)) s0 t0 in
       (s1, vs0 ++ vs1, t1))
    rows (s, [], t).

Section Explore.

Variable clock : nat -> Z.
Variables sym opp : string.
Variable start : Z.

(** The value, the visits and the next reading of a call of [minimax] of
    depth [d]: no visit at depth 0, on a full board or past the deadline;
    otherwise the visits of the scan, the call below a cell being of depth
    [d - 1] and of the other kind. *)
Fixpoint explore (d : nat) (maximizing : bool) (alpha beta : ext)
    (g : Gomoku) (t : nat) : ext * list Visit * nat :=
  match d with
  | O => (Fin (evaluate_board g sym), [], t)
  | S d' =>
      if is_full g then (Fin (evaluate_board g sym), [], t)
      else if clock t - start >? ai_time_limit g
      then (Fin (evaluate_board g sym), [], S t)
      else if maximizing then
        let '(s, vs, t') :=
          node_visits
            (fun s m t0 =>
               let '(v, sub, t1) :=
                 explore d' false (snd s) beta
                   (assign g (fst m) (snd m) sym) t0 in
               (v, counted sub, t1))
            (fun s v =>
               (ext_max (fst s) v, ext_max (snd s) v,
                ext_le beta (ext_max (snd s) v)))
            g (range (board_size g)) (NegInf, alpha) (S t) in
        (fst s, vs, t')
      else
        let '(s, vs, t') :=
          node_visits
            (fun s m t0 =>
               let '(v, sub, t1) :=
                 explore d' true alpha (snd s)
                   (assign g (fst m) (snd m) opp) t0 in
               (v, counted sub, t1))
            (fun s v =>
               (ext_min (fst s) v, ext_min (snd s) v,
                ext_le (ext_min (snd s) v) alpha))
            g (range (board_size g)) (PosInf, beta) (S t) in
        (fst s, vs, t')
  end.

(** ** The sweeps a call of [iterative_deepening] runs *)

(** [sweeps_run depth w ms w']: entered at [depth] in the world [w], the
    [while] loop runs the sweeps of depths [depth], [depth + 1], ... one
    after the other, each started when the condition holds and from the
    world the one before left; [ms] lists the moves they select, in order,
    and [w'] is the world once the condition has failed. *)
Inductive sweeps_run : Z -> World -> list Move -> World -> Prop :=
| run_stop depth w :
    ai_time_limit (self w) <= clock (ticks w) - start ->
    sweeps_run depth w [] (snd (time_time clock w))
| run_sweep depth w m score w2 ms w' :
    clock (ticks w) - start < ai_time_limit (self w) ->
    sweep clock depth sym opp start (snd (time_time clock w))
      = Some ((Some m, score), w2) ->
    sweeps_run (depth + 1) w2 ms w' ->
    sweeps_run depth w (m :: ms) w'.

End Explore.

(** ** The interactive loop

    [Gomoku.play] reads the configuration and the entries of the human
    players from the terminal and prints the board.  The model keeps what
    decides the course of a game: the players, whose turn it is, the
    entries as parsed, and the object.  Printing changes nothing and is
    left out. *)

(** [Player(sym, ai_type=t if t != "human" else None)], [t] being the type
    as entered, stripped and in lower case. *)
Definition player_of (sym type : string) : Player :=
  mkPlayer sym (if String.eqb type "human" then None else Some type).

(** The truth value of [player.ai_type] in [if player.ai_type:]: [None] and
    the empty string are false. *)
Definition is_ai (p : Player) : bool :=
  match ai_type p with
  | Some t => negb (String.eqb t "")
  | None => false
  end.

(** One line entered at a human turn, after [split], [int(move[0]) - 1] and
    [ord(move[1].upper()) - 65]: a cell; or a [ValueError] or [IndexError],
    which the loop catches to ask again; or any other exception, which it
    does not catch. *)
Inductive Entry : Type :=
| Cell (row col : Z)
| Unreadable
| Uncaught.

(** How [play] ends: a player wins, the board is full, a machine has no
    move to offer, or an exception leaves the loop. *)
Inductive Outcome : Type :=
| Won (p : Player)
| Drawn
| NoMove (p : Player)
| Raised.

(** The object with [self.ai_time_limit = limit]. *)
Definition with_limit (g : Gomoku) (limit : Z) : Gomoku :=
  {| board_size := board_size g;
     win_length := win_length g;
     ai_time_limit := limit;
     board := board g;
     nodes_expanded := nodes_expanded g |}.

(** The number of cells of the grid that hold [sym]. *)
Definition stones (g : Gomoku) (sym : string) : Z :=
  count_cells g (fun s => String.eqb s sym) (cells (board_size g)).

Section Play.

Variable clock : nat -> Z.
Variable rand : nat -> nat.

(** The fuel given to the [while] loop of the expert at each of its
    turns. *)
Variable patience : nat.

(** [typed k] is the [k]-th line entered at a human turn. *)
Variable typed : nat -> Entry.

(** The [while True:] loop of [play]; [n] bounds the number of turns
    started, [first] tells whether [self.current_player] is [player1], and
    [k] counts the entries read so far. *)
Fixpoint play_loop (n : nat) (player1 player2 : Player) (first : bool)
    (k : nat) : M Outcome :=
  match n with
  | O => fun _ => None
  | S n' => fun w =>
      let current := if first then player1 else player2 in
      let other := if first then player2 else player1 in
      let attempt (row col : Z) (k' : nat) (w1 : World) :=
        let (ok, g) := make_move (self w1) current row col in
        if ok then
          if check_win g current then Some (Won current, mkWorld g (ticks w1))
          else if is_full g then Some (Drawn, mkWorld g (ticks w1))
          else play_loop n' player1 player2 (negb first) k'
                 (mkWorld g (ticks w1))
        else play_loop n' player1 player2 first k' (mkWorld g (ticks w1)) in
      if is_ai current then
        match get_ai_move clock rand patience current other w with
        | None => None
        | Some (Some (row, col), w1) => attempt row col k w1
        | Some (None, w1) => Some (NoMove current, w1)
        end
      else
        match typed k with
        | Cell row col => attempt row col (S k) w
        | Unreadable => play_loop n' player1 player2 first (S k) w
        | Uncaught => Some (Raised, w)
        end
  end.

(** [Gomoku.play], from the time limit and the two player types entered:
    a machine as player 1 is given the centre before the loop starts, and
    the loop starts with player 1 to move in either case. *)
Definition play (n : nat) (limit : Z) (type1 type2 : string) : M Outcome :=
  fun w =>
    let g := with_limit (self w) limit in
    let player1 := player_of "X" type1 in
    let player2 := player_of "O" type2 in
    let center := board_size g / 2 in
    let g1 := if is_ai player1
              then snd (make_move g player1 center center)
              else g in
    play_loop n player1 player2 true 0 (mkWorld g1 (ticks w)).

End Play.

(** * Properties *)

(** ** Board primitives *)

Lemma cell_lookup (b : list (list string)) (row col : Z) (s : string) :
  s <> "" ->
  cell b row col = s <->
  exists line, b !! Z.to_nat row = Some line /\ line !! Z.to_nat col = Some s.
Proof.
  intros Hs. unfold cell. split.
  - destruct (b !! Z.to_nat row) as [line|]; [|intros <-; congruence].
    destruct (line !! Z.to_nat col) as [x|] eqn:Hx; [|intros <-; congruence].
    intros ->. exists line. split; [reflexivity|exact Hx].
  - intros (line & -> & ->). reflexivity.
Qed.

Lemma set_cell_same (b : list (list string)) (row col : Z) (s : string) :
  (Z.to_nat row < length b)%nat ->
  Forall (fun line => (Z.to_nat col < length line)%nat) b ->
  cell (set_cell b row col s) row col = s.
Proof.
  intros Hr Hc. unfold cell, set_cell.
  rewrite list_lookup_alter_eq.
  destruct (lookup_lt_is_Some_2 b _ Hr) as [line Hline].
  rewrite Hline. simpl.
  rewrite list_lookup_insert_eq; [reflexivity|].
  eapply (Forall_lookup_1 _ _ _ _ Hc Hline).
Qed.

Lemma set_cell_other (b : list (list string)) (row col r c : Z) (s : string) :
  (Z.to_nat r, Z.to_nat c) <> (Z.to_nat row, Z.to_nat col) ->
  cell (set_cell b row col s) r c = cell b r c.
Proof.
  intros Hne. unfold cell, set_cell.
  destruct (decide (Z.to_nat row = Z.to_nat r)) as [Heq|Hd].
  - rewrite Heq, list_lookup_alter_eq.
    destruct (b !! Z.to_nat r) as [line|]; simpl; [|reflexivity].
    rewrite list_lookup_insert_ne; [reflexivity|]. congruence.
  - rewrite list_lookup_alter_ne by assumption. reflexivity.
Qed.

(** Placing on an empty cell and resetting it gives back the same grid. *)
Lemma set_cell_undo (b : list (list string)) (row col : Z) (s : string) :
  cell b row col = "." ->
  set_cell (set_cell b row col s) row col "." = b.
Proof.
  intros Hcell. apply cell_lookup in Hcell as (line & Hline & Hcol); [|discriminate].
  unfold set_cell. apply list_eq. intros i.
  destruct (decide (Z.to_nat row = i)) as [<-|Hd].
  - rewrite !list_lookup_alter_eq, Hline. simpl. f_equal.
    rewrite list_insert_insert_eq. apply list_insert_id. exact Hcol.
  - rewrite !list_lookup_alter_ne by assumption. reflexivity.
Qed.

Lemma set_cell_shape (b : list (list string)) (row col : Z) (s : string) (n : nat) :
  length b = n /\ Forall (fun line => length line = n) b ->
  length (set_cell b row col s) = n /\
  Forall (fun line => length line = n) (set_cell b row col s).
Proof.
  intros [Hlen Hall]. unfold set_cell. split.
  - rewrite length_alter. exact Hlen.
  - apply Forall_lookup_2. intros i line Hi.
    destruct (decide (Z.to_nat row = i)) as [<-|Hd].
    + rewrite list_lookup_alter_eq in Hi.
      destruct (b !! Z.to_nat row) as [old|] eqn:Hold; simpl in Hi; [|discriminate].
      injection Hi as <-. rewrite length_insert.
      eapply (Forall_lookup_1 _ _ _ _ Hall Hold).
    + rewrite list_lookup_alter_ne in Hi by assumption.
      eapply (Forall_lookup_1 _ _ _ _ Hall Hi).
Qed.

Lemma wf_init (size wlen limit : Z) : wf (init size wlen limit).
Proof.
  unfold wf, init. simpl. split.
  - apply length_replicate.
  - apply Forall_replicate. apply length_replicate.
Qed.

Lemma wf_assign (g : Gomoku) (row col : Z) (s : string) :
  wf g -> wf (assign g row col s).
Proof.
  unfold wf, assign. simpl. apply set_cell_shape.
Qed.

Lemma wf_reachable (g : Gomoku) : reachable g -> wf g.
Proof.
  induction 1 as [size wlen limit|g player row col _ IH|g row col _ IH].
  - apply wf_init.
  - unfold make_move. destruct (is_valid_move g row col); simpl; [|exact IH].
    apply wf_assign, IH.
  - apply wf_assign, IH.
Qed.

Lemma in_bounds_spec (g : Gomoku) (row col : Z) :
  in_bounds g row col = true <->
  0 <= row < board_size g /\ 0 <= col < board_size g.
Proof.
  unfold in_bounds. rewrite !andb_true_iff, !Z.leb_le, !Z.ltb_lt. lia.
Qed.

Lemma is_valid_move_spec (g : Gomoku) (row col : Z) :
  is_valid_move g row col = true <->
  (0 <= row < board_size g /\ 0 <= col < board_size g) /\
  cell (board g) row col = ".".
Proof.
  unfold is_valid_move.
  rewrite andb_true_iff, in_bounds_spec, String.eqb_eq. reflexivity.
Qed.

Lemma retract_assign (g : Gomoku) (row col : Z) (s : string) :
  is_valid_move g row col = true ->
  retract (assign g row col s) row col = g.
Proof.
  intros Hv. apply is_valid_move_spec in Hv as [_ Hcell].
  unfold retract, assign, with_board. simpl.
  rewrite set_cell_undo by exact Hcell. destruct g; reflexivity.
Qed.

(** C8: [is_valid_move] holds exactly for an in-bounds empty cell;
    [make_move] returns the value of [is_valid_move], on success writes the
    player's symbol at the cell and nothing else, and on failure leaves the
    whole object as it was. *)
Theorem make_move_iff_valid (g : Gomoku) (player : Player) (row col : Z) :
  wf g ->
  (is_valid_move g row col = true <->
     (0 <= row < board_size g /\ 0 <= col < board_size g) /\
     exists line, board g !! Z.to_nat row = Some line /\
                  line !! Z.to_nat col = Some ".") /\
  fst (make_move g player row col) = is_valid_move g row col /\
  (is_valid_move g row col = true ->
     let g' := snd (make_move g player row col) in
     cell (board g') row col = symbol player /\
     (forall r c, 0 <= r -> 0 <= c -> (r, c) <> (row, col) ->
        cell (board g') r c = cell (board g) r c) /\
     wf g' /\
     board_size g' = board_size g /\ win_length g' = win_length g /\
     ai_time_limit g' = ai_time_limit g /\
     nodes_expanded g' = nodes_expanded g) /\
  (is_valid_move g row col = false ->
     snd (make_move g player row col) = g).
Proof.
  intros Hwf. split; [|split; [|split]].
  - rewrite is_valid_move_spec, cell_lookup by discriminate. reflexivity.
  - unfold make_move. destruct (is_valid_move g row col); reflexivity.
  - intros Hv. unfold make_move. rewrite Hv. simpl.
    apply is_valid_move_spec in Hv as [[Hr Hc] _].
    destruct Hwf as [Hlen Hall].
    repeat split; try reflexivity.
    + apply set_cell_same; [lia|].
      eapply Forall_impl; [exact Hall|]. simpl. intros line ->. lia.
    + intros r c Hr0 Hc0 Hne. apply set_cell_other.
      intros Heq. apply Hne. injection Heq as H1 H2. f_equal; lia.
    + apply (set_cell_shape _ _ _ _ _ (conj Hlen Hall)).
    + apply (set_cell_shape _ _ _ _ _ (conj Hlen Hall)).
  - intros Hv. unfold make_move. rewrite Hv. reflexivity.
Qed.

Lemma make_move_iff_valid_witness :
  fst (make_move (init 3 3 2) (mkPlayer "X" None) 1 1) = true /\
  fst (make_move (init 3 3 2) (mkPlayer "X" None) 3 (-1)) = false.
Proof.
  pose proof (make_move_iff_valid (init 3 3 2) (mkPlayer "X" None) 1 1
                (wf_init 3 3 2)) as (_ & H1 & _).
  pose proof (make_move_iff_valid (init 3 3 2) (mkPlayer "X" None) 3 (-1)
                (wf_init 3 3 2)) as (_ & H2 & _).
  split; [rewrite H1|rewrite H2]; reflexivity.
Defined.

(** C9: in every reachable state, a successful [make_move] at a cell
    followed by the retraction of that cell gives back an object equal to
    the one before the move, the whole grid included. *)
Theorem place_retract_roundtrip (g g' : Gomoku) (player : Player) (row col : Z) :
  reachable g ->
  make_move g player row col = (true, g') ->
  retract g' row col = g.
Proof.
  intros _ Hmove. unfold make_move in Hmove.
  destruct (is_valid_move g row col) eqn:Hv; [|discriminate].
  injection Hmove as <-. apply retract_assign. exact Hv.
Qed.

Lemma place_retract_roundtrip_witness :
  retract (assign (init 3 3 2) 1 2 "O") 1 2 = init 3 3 2.
Proof.
  apply (place_retract_roundtrip (init 3 3 2) _ (mkPlayer "O" None) 1 2).
  - apply reach_init.
  - reflexivity.
Defined.

(** ** Win detection *)

Lemma In_range (n x : Z) : In x (range n) <-> 0 <= x < n.
Proof.
  unfold range. rewrite in_map_iff. split.
  - intros (k & <- & Hk). apply in_seq in Hk. lia.
  - intros Hx. exists (Z.to_nat x). split; [lia|]. apply in_seq. lia.
Qed.

Lemma length_range (n : Z) : length (range n) = Z.to_nat n.
Proof. unfold range. rewrite length_map, length_seq. reflexivity. Qed.

(** The walk of [check_direction] counts every iteration exactly when every
    cell it meets matches. *)
Lemma check_direction_loop_full (iters : list Z) (g : Gomoku)
    (row col dr dc : Z) (sym : string) (count : Z) :
  check_direction_loop iters g row col dr dc sym count
    = count + Z.of_nat (length iters) <->
  forall i, 0 <= i < Z.of_nat (length iters) ->
    in_bounds g (row + i * dr) (col + i * dc) = true /\
    cell (board g) (row + i * dr) (col + i * dc) = sym.
Proof.
  revert row col count.
  induction iters as [|x rest IH]; intros row col count; simpl length.
  - simpl. split; [intros _ i Hi; lia | intros _; lia].
  - cbn [check_direction_loop].
    destruct (in_bounds g row col && String.eqb (cell (board g) row col) sym)
      eqn:Hok.
    + apply andb_true_iff in Hok as [Hin Heq]. apply String.eqb_eq in Heq.
      replace (count + Z.of_nat (S (length rest)))
        with (count + 1 + Z.of_nat (length rest)) by lia.
      rewrite IH. split.
      * intros H i Hi. destruct (decide (i = 0)) as [->|Hne].
        -- rewrite !Z.mul_0_l, !Z.add_0_r. split; assumption.
        -- specialize (H (i - 1) ltac:(lia)).
           replace (row + dr + (i - 1) * dr) with (row + i * dr) in H by lia.
           replace (col + dc + (i - 1) * dc) with (col + i * dc) in H by lia.
           exact H.
      * intros H i Hi. specialize (H (i + 1) ltac:(lia)).
        replace (row + (i + 1) * dr) with (row + dr + i * dr) in H by lia.
        replace (col + (i + 1) * dc) with (col + dc + i * dc) in H by lia.
        exact H.
    + split; [lia|]. intros H. specialize (H 0 ltac:(lia)).
      rewrite !Z.mul_0_l, !Z.add_0_r in H. destruct H as [Hin Heq].
      rewrite Hin, Heq, String.eqb_refl in Hok. discriminate.
Qed.

Lemma check_direction_spec (g : Gomoku) (row col dr dc : Z) (sym : string) :
  check_direction g row col dr dc sym = true <->
  0 <= win_length g /\
  forall i, 0 <= i < win_length g ->
    in_bounds g (row + i * dr) (col + i * dc) = true /\
    cell (board g) (row + i * dr) (col + i * dc) = sym.
Proof.
  unfold check_direction. rewrite Z.eqb_eq.
  destruct (Z.le_gt_cases 0 (win_length g)) as [Hw|Hw].
  - pose proof (check_direction_loop_full (range (win_length g)) g row col
                  dr dc sym 0) as H.
    rewrite length_range, Z2Nat.id, Z.add_0_l in H by exact Hw.
    rewrite H. tauto.
  - unfold range. replace (Z.to_nat (win_length g)) with 0%nat by lia.
    simpl. lia.
Qed.

Lemma check_win_spec (g : Gomoku) (player : Player) :
  check_win g player = true <->
  exists row col, in_bounds g row col = true /\
    (check_direction g row col 1 0 (symbol player) = true \/
     check_direction g row col 0 1 (symbol player) = true \/
     check_direction g row col 1 1 (symbol player) = true \/
     check_direction g row col 1 (-1) (symbol player) = true).
Proof.
  unfold check_win. cbv zeta. rewrite existsb_exists. split.
  - intros (row & Hrow & H). apply existsb_exists in H as (col & Hcol & H).
    apply In_range in Hrow, Hcol.
    exists row, col. split; [apply in_bounds_spec; lia|].
    rewrite !orb_true_iff in H. tauto.
  - intros (row & col & Hin & H). apply in_bounds_spec in Hin.
    exists row. split; [apply In_range; lia|].
    apply existsb_exists. exists col. split; [apply In_range; lia|].
    rewrite !orb_true_iff. tauto.
Qed.

(** C5: [check_win] holds exactly when some cell of the board starts a
    forward run of [win_length] cells of the player's symbol to the right,
    down, down-right or up-right; so it fires for every line of exactly
    [win_length] such cells, whichever of its cells the scan meets first,
    and does not fire when no run reaches [win_length]. *)
Theorem check_win_iff_run (g : Gomoku) (player : Player) :
  wf g -> 0 <= win_length g ->
  (check_win g player = true <->
     exists row col d, in_bounds g row col = true /\
       run g (symbol player) row col d (win_length g)) /\
  (forall row col d, in_bounds g row col = true ->
     run g (symbol player) row col d (win_length g) ->
     check_win g player = true) /\
  ((forall row col d, in_bounds g row col = true ->
      ~ run g (symbol player) row col d (win_length g)) ->
   check_win g player = false).
Proof.
  intros _ Hw.
  assert (Hiff : check_win g player = true <->
     exists row col d, in_bounds g row col = true /\
       run g (symbol player) row col d (win_length g)).
  { rewrite check_win_spec. setoid_rewrite check_direction_spec. split.
    - intros (row & col & Hin & [H|[H|[H|H]]]); destruct H as [_ H].
      + exists row, col, Down. split; [exact Hin|]. intros i Hi.
        simpl. specialize (H i Hi). exact H.
      + exists row, col, Right. split; [exact Hin|]. intros i Hi.
        simpl. specialize (H i Hi). exact H.
      + exists row, col, DownRight. split; [exact Hin|]. intros i Hi.
        simpl. specialize (H i Hi). exact H.
      + destruct (decide (win_length g = 0)) as [H0|Hpos].
        * exists row, col, UpRight. split; [exact Hin|]. intros i Hi. lia.
        * exists (row + (win_length g - 1)), (col - (win_length g - 1)), UpRight.
          split.
          -- specialize (H (win_length g - 1) ltac:(lia)).
             replace (col - (win_length g - 1))
               with (col + (win_length g - 1) * -1) by lia.
             replace (row + (win_length g - 1))
               with (row + (win_length g - 1) * 1) by lia.
             apply H.
          -- intros i Hi. simpl.
             specialize (H (win_length g - 1 - i) ltac:(lia)).
             replace (row + (win_length g - 1) + i * -1)
               with (row + (win_length g - 1 - i) * 1) by lia.
             replace (col - (win_length g - 1) + i * 1)
               with (col + (win_length g - 1 - i) * -1) by lia.
             exact H.
    - intros (row & col & d & Hin & H). unfold run in H.
      destruct d; simpl in H.
      + exists row, col. split; [exact Hin|]. right. left.
        split; [exact Hw|exact H].
      + exists row, col. split; [exact Hin|]. left.
        split; [exact Hw|exact H].
      + exists row, col. split; [exact Hin|]. right. right. left.
        split; [exact Hw|exact H].
      + destruct (decide (win_length g = 0)) as [H0|Hpos].
        * exists row, col. split; [exact Hin|]. right. right. right.
          split; [exact Hw|]. intros i Hi. lia.
        * exists (row - (win_length g - 1)), (col + (win_length g - 1)).
          split.
          -- specialize (H (win_length g - 1) ltac:(lia)).
             replace (row - (win_length g - 1))
               with (row + (win_length g - 1) * -1) by lia.
             replace (col + (win_length g - 1))
               with (col + (win_length g - 1) * 1) by lia.
             apply H.
          -- right. right. right. split; [exact Hw|]. intros i Hi.
             specialize (H (win_length g - 1 - i) ltac:(lia)).
             replace (row - (win_length g - 1) + i * 1)
               with (row + (win_length g - 1 - i) * -1) by lia.
             replace (col + (win_length g - 1) + i * -1)
               with (col + (win_length g - 1 - i) * 1) by lia.
             exact H. }
  split; [exact Hiff|split].
  - intros row col d Hin Hrun. apply Hiff. eauto.
  - intros Hnone. destruct (check_win g player) eqn:Hcw; [|reflexivity].
    exfalso. destruct Hiff as [Hiff _].
    destruct (Hiff eq_refl) as (row & col & d & Hin & Hrun).
    exact (Hnone row col d Hin Hrun).
Qed.

Lemma check_win_iff_run_witness :
  check_win
    (mkGomoku 4 3 2
       [["."; "."; "X"; "."]; ["."; "X"; "."; "."];
        ["X"; "."; "."; "."]; ["."; "."; "."; "."]] 0)
    (mkPlayer "X" None) = true.
Proof.
  eapply (check_win_iff_run _ (mkPlayer "X" None)).
  - split; [reflexivity|]. repeat constructor.
  - simpl. lia.
  - instantiate (1 := 0). instantiate (1 := 2). reflexivity.
  - instantiate (1 := UpRight). intros i Hi. simpl in Hi.
    assert (i = 0 \/ i = 1 \/ i = 2) as [->|[->| ->]] by lia;
      split; reflexivity.
Defined.

(** The scenario of the rule book: four in a row do not win at
    [win_length = 5]; the fifth stone at the end of the row does. *)
Example four_then_five :
  let g := mkGomoku 6 5 2
             [["."; "."; "."; "."; "."; "."];
              ["."; "X"; "X"; "X"; "X"; "."];
              ["."; "."; "."; "."; "."; "."];
              ["."; "."; "."; "."; "."; "."];
              ["."; "."; "."; "."; "."; "."];
              ["."; "."; "."; "."; "."; "."]] 0 in
  check_win g (mkPlayer "X" None) = false /\
  check_win (snd (make_move g (mkPlayer "X" None) 1 5)) (mkPlayer "X" None)
    = true.
Proof. split; vm_compute; reflexivity. Qed.

(** ** Positional evaluator *)

Lemma fold_left_agree {A B : Type} (f h : A -> B -> A) (l : list B) (a : A) :
  (forall x y, f x y = h x y) -> fold_left f l a = fold_left h l a.
Proof.
  intros Hfh. revert a. induction l as [|y l IH]; intros a; simpl.
  - reflexivity.
  - rewrite Hfh. apply IH.
Qed.

Lemma fold_left_add {B : Type} (h : B -> Z) (l : list B) (a : Z) :
  fold_left (fun acc y => acc + h y) l a = a + sumZ (map h l).
Proof.
  revert a. induction l as [|y l IH]; intros a; simpl.
  - lia.
  - rewrite IH. lia.
Qed.

Lemma fold_left_count {B : Type} (p : B -> bool) (l : list B) (a : Z) :
  fold_left (fun acc y => if p y then acc + 1 else acc) l a
  = a + Z.of_nat (length (List.filter p l)).
Proof.
  revert a. induction l as [|y l IH]; intros a; simpl.
  - lia.
  - rewrite IH. destruct (p y); simpl length; lia.
Qed.

Lemma fold_left_count2 {B : Type} (p q : B -> bool) (l : list B) (a : Z) :
  fold_left (fun acc y => if p y then if q y then acc + 1 else acc else acc) l a
  = a + Z.of_nat (length (List.filter (fun y => p y && q y) l)).
Proof.
  revert a. induction l as [|y l IH]; intros a; simpl.
  - lia.
  - rewrite IH. destruct (p y), (q y); simpl length; lia.
Qed.

Lemma sumZ_app (l1 l2 : list Z) : sumZ (l1 ++ l2) = sumZ l1 + sumZ l2.
Proof. induction l1 as [|x l1 IH]; simpl; [reflexivity|]. rewrite IH. lia. Qed.

Lemma fold_left_grid {B C : Type} (h : B -> C -> Z) (lb : list B) (lc : list C)
    (a : Z) :
  fold_left (fun acc x => fold_left (fun acc y => acc + h x y) lc acc) lb a
  = a + sumZ (map (fun p => h (fst p) (snd p)) (list_prod lb lc)).
Proof.
  revert a. induction lb as [|x lb IH]; intros a; simpl.
  - lia.
  - rewrite IH, fold_left_add, map_app, sumZ_app, map_map. simpl.
    symmetry. apply Z.add_assoc.
Qed.

Lemma filter_filter_map_length {B C : Type} (f : B -> C) (p q : C -> bool)
    (l : list B) :
  length (List.filter q (List.filter p (map f l)))
  = length (List.filter (fun x => p (f x) && q (f x)) l).
Proof.
  induction l as [|x l IH]; simpl; [reflexivity|].
  destruct (p (f x)); simpl; [|exact IH].
  destruct (q (f x)); simpl; rewrite IH; reflexivity.
Qed.

Lemma range_from_shift (g : Gomoku) :
  range_from (- win_length g + 1) (win_length g)
  = range_from (1 - win_length g) (win_length g).
Proof. f_equal. lia. Qed.

Lemma count_aligned_formula (g : Gomoku) (row col : Z) (sym : string) :
  count_aligned g row col sym = own_alignment g sym (row, col).
Proof.
  unfold count_aligned, own_alignment, count_cells, window.
  rewrite range_from_shift.
  unfold directions4. cbn [fold_left map sumZ fold_right fst snd].
  rewrite !fold_left_count, !filter_filter_map_length. cbn [fst snd]. lia.
Qed.

Lemma potential_extension_formula (g : Gomoku) (row col : Z) (sym : string) :
  potential_extension g row col sym = extension g sym (row, col).
Proof.
  unfold potential_extension, extension, count_cells, window.
  rewrite range_from_shift.
  unfold directions4. cbn [fold_left map sumZ fold_right fst snd].
  cbv zeta. rewrite !fold_left_count2, !filter_filter_map_length.
  cbn [fst snd]. lia.
Qed.

Lemma count_adjacent_spaces_formula (g : Gomoku) (row col : Z) :
  count_adjacent_spaces g row col = free_neighbours g (row, col).
Proof.
  unfold count_adjacent_spaces, free_neighbours, count_cells.
  rewrite filter_filter_map_length, fold_left_count. cbn [fst snd]. lia.
Qed.

Lemma fold_left_grid_as_sum {B C : Type} (f : B -> Z -> C -> Z)
    (h : B -> C -> Z) (lb : list B) (lc : list C) (a : Z) :
  (forall x acc y, f x acc y = acc + h x y) ->
  fold_left (fun acc x => fold_left (f x) lc acc) lb a
  = a + sumZ (map (fun p => h (fst p) (snd p)) (list_prod lb lc)).
Proof.
  intros Hf. rewrite <- fold_left_grid.
  apply fold_left_agree. intros acc x.
  apply fold_left_agree. intros acc' y. apply Hf.
Qed.

Lemma sumZ_split {B : Type} (p q : B -> bool) (f h : B -> Z) (l : list B) :
  (forall x, p x = true -> q x = true -> False) ->
  sumZ (map (fun x => if p x then f x else if q x then - h x else 0) l)
  = sumZ (map f (List.filter p l)) - sumZ (map h (List.filter q l)).
Proof.
  intros Hpq. induction l as [|x l IH]; simpl; [reflexivity|].
  rewrite IH.
  destruct (p x) eqn:Hp, (q x) eqn:Hq; simpl; try lia.
  exfalso. exact (Hpq x Hp Hq).
Qed.

Lemma opponent_of_differs (sym : string) : opponent_of sym <> sym.
Proof.
  unfold opponent_of. destruct (String.eqb sym "O") eqn:H.
  - apply String.eqb_eq in H. subst. discriminate.
  - apply String.eqb_neq in H. congruence.
Qed.



(** ** One-ply strategies *)

Lemma scan_max_first_maximal (score : Move -> Z) (l : list Move) :
  l <> [] ->
  exists m,
    fold_left (scan_step ext_lt (fun x => Fin (score x))) l (None, NegInf)
      = (Some m, Fin (score m)) /\
    first_maximal score l m.
Proof.
  induction l as [|x l IH] using rev_ind; [congruence|]. intros _.
  rewrite fold_left_app. simpl.
  destruct l as [|y l'].
  - simpl. exists x. split; [reflexivity|].
    exists [], []. repeat split; intros z [].
  - destruct IH as (m & Hfold & before & after & Hl & Hb & Ha); [discriminate|].
    rewrite Hfold. unfold scan_step. cbn [snd ext_lt].
    destruct (Z.ltb_spec (score m) (score x)) as [Hlt|Hge].
    + exists x. split; [reflexivity|].
      exists (y :: l'), []. repeat split.
      * intros z Hz. rewrite Hl in Hz.
        apply in_app_or in Hz as [Hz|[<-|Hz]].
        -- specialize (Hb z Hz). lia.
        -- exact Hlt.
        -- specialize (Ha z Hz). lia.
      * intros z [].
    + exists m. split; [reflexivity|].
      exists before, (after ++ [x]). repeat split.
      * rewrite Hl, <- app_assoc. reflexivity.
      * exact Hb.
      * intros z Hz. apply in_app_or in Hz as [Hz|[<-|[]]].
        -- exact (Ha z Hz).
        -- exact Hge.
Qed.

Lemma scan_min_first_minimal (score : Move -> Z) (l : list Move) :
  l <> [] ->
  exists m,
    fold_left (scan_step (fun old new => ext_lt new old) (fun x => Fin (score x)))
      l (None, PosInf)
      = (Some m, Fin (score m)) /\
    first_minimal score l m.
Proof.
  induction l as [|x l IH] using rev_ind; [congruence|]. intros _.
  rewrite fold_left_app. simpl.
  destruct l as [|y l'].
  - simpl. exists x. split; [reflexivity|].
    exists [], []. repeat split; intros z [].
  - destruct IH as (m & Hfold & before & after & Hl & Hb & Ha); [discriminate|].
    rewrite Hfold. unfold scan_step. cbn [snd ext_lt].
    destruct (Z.ltb_spec (score x) (score m)) as [Hlt|Hge].
    + exists x. split; [reflexivity|].
      exists (y :: l'), []. repeat split.
      * intros z Hz. rewrite Hl in Hz.
        apply in_app_or in Hz as [Hz|[<-|Hz]].
        -- specialize (Hb z Hz). lia.
        -- exact Hlt.
        -- specialize (Ha z Hz). lia.
      * intros z [].
    + exists m. split; [reflexivity|].
      exists before, (after ++ [x]). repeat split.
      * rewrite Hl, <- app_assoc. reflexivity.
      * exact Hb.
      * intros z Hz. apply in_app_or in Hz as [Hz|[<-|[]]].
        -- exact (Ha z Hz).
        -- exact Hge.
Qed.

Lemma filter_valid_row (g : Gomoku) (row col : Z) (cols : list Z) :
  List.filter (fun m => is_valid_move g (fst m) (snd m))
    (map (pair row) (col :: cols))
  = (if is_valid_move g row col then [(row, col)] else [])
    ++ List.filter (fun m => is_valid_move g (fst m) (snd m))
         (map (pair row) cols).
Proof. simpl. destruct (is_valid_move g row col); reflexivity. Qed.

(** The row scan of [greedy_ai] leaves the object as it found it and keeps
    the first best of the valid cells of the row. *)
Lemma greedy_cols_scan (g : Gomoku) (sym : string) (row : Z) (cols : list Z)
    (acc : option Move * ext) :
  fold_left (greedy_cell sym row) cols (acc, g)
  = (fold_left (scan_step ext_lt (fun m => Fin (lookahead g sym m)))
       (List.filter (fun m => is_valid_move g (fst m) (snd m))
          (map (pair row) cols)) acc, g).
Proof.
  revert acc. induction cols as [|col cols IH]; intros [bm bs]; [reflexivity|].
  rewrite filter_valid_row, fold_left_app. cbn [fold_left].
  unfold greedy_cell at 2.
  destruct (is_valid_move g row col) eqn:Hv.
  - fold (retract (assign g row col sym) row col).
    rewrite (retract_assign g row col sym Hv).
    cbn [fold_left]. unfold scan_step, lookahead. cbn [fst snd].
    destruct (ext_lt bs _); apply IH.
  - apply IH.
Qed.

Lemma worst_cols_scan (g : Gomoku) (sym : string) (row : Z) (cols : list Z)
    (acc : option Move * ext) :
  fold_left (worst_cell sym row) cols (acc, g)
  = (fold_left (scan_step (fun old new => ext_lt new old)
                  (fun m => Fin (lookahead g sym m)))
       (List.filter (fun m => is_valid_move g (fst m) (snd m))
          (map (pair row) cols)) acc, g).
Proof.
  revert acc. induction cols as [|col cols IH]; intros [bm bs]; [reflexivity|].
  rewrite filter_valid_row, fold_left_app. cbn [fold_left].
  unfold worst_cell at 2.
  destruct (is_valid_move g row col) eqn:Hv.
  - fold (retract (assign g row col sym) row col).
    rewrite (retract_assign g row col sym Hv).
    cbn [fold_left]. unfold scan_step, lookahead. cbn [fst snd].
    destruct (ext_lt _ bs); apply IH.
  - apply IH.
Qed.

Lemma filter_list_prod_cons {B : Type} (p : Z * B -> bool) (x : Z)
    (xs : list Z) (ys : list B) :
  List.filter p (list_prod (x :: xs) ys)
  = List.filter p (map (pair x) ys) ++ List.filter p (list_prod xs ys).
Proof. simpl. apply List.filter_app. Qed.

Lemma greedy_rows_scan (g : Gomoku) (sym : string) (rows : list Z)
    (acc : option Move * ext) :
  fold_left (fun a row =>
     fold_left (greedy_cell sym row) (range (board_size (snd a))) a)
    rows (acc, g)
  = (fold_left (scan_step ext_lt (fun m => Fin (lookahead g sym m)))
       (List.filter (fun m => is_valid_move g (fst m) (snd m))
          (list_prod rows (range (board_size g)))) acc, g).
Proof.
  revert acc. induction rows as [|row rows IH]; intros acc; [reflexivity|].
  rewrite filter_list_prod_cons, fold_left_app. cbn [fold_left snd].
  rewrite greedy_cols_scan. apply IH.
Qed.

Lemma worst_rows_scan (g : Gomoku) (sym : string) (rows : list Z)
    (acc : option Move * ext) :
  fold_left (fun a row =>
     fold_left (worst_cell sym row) (range (board_size (snd a))) a)
    rows (acc, g)
  = (fold_left (scan_step (fun old new => ext_lt new old)
                  (fun m => Fin (lookahead g sym m)))
       (List.filter (fun m => is_valid_move g (fst m) (snd m))
          (list_prod rows (range (board_size g)))) acc, g).
Proof.
  revert acc. induction rows as [|row rows IH]; intros acc; [reflexivity|].
  rewrite filter_list_prod_cons, fold_left_app. cbn [fold_left snd].
  rewrite worst_cols_scan. apply IH.
Qed.

Lemma greedy_ai_scan (g : Gomoku) (sym : string) :
  greedy_ai g sym
  = (fst (fold_left (scan_step ext_lt (fun m => Fin (lookahead g sym m)))
            (valid_moves g) (None, NegInf)), g).
Proof.
  unfold greedy_ai. rewrite (greedy_rows_scan g sym _ (None, NegInf)).
  unfold valid_moves, cells.
  destruct (fold_left _ _ _) as [bm bs]. reflexivity.
Qed.

Lemma worst_ai_scan (g : Gomoku) (sym : string) :
  worst_ai g sym
  = (fst (fold_left (scan_step (fun old new => ext_lt new old)
                       (fun m => Fin (lookahead g sym m)))
            (valid_moves g) (None, PosInf)), g).
Proof.
  unfold worst_ai. rewrite (worst_rows_scan g sym _ (None, PosInf)).
  unfold valid_moves, cells.
  destruct (fold_left _ _ _) as [bm bs]. reflexivity.
Qed.

Lemma In_valid_moves (g : Gomoku) (m : Move) :
  In m (valid_moves g) <-> is_valid_move g (fst m) (snd m) = true.
Proof.
  unfold valid_moves, cells. rewrite filter_In. split; [tauto|].
  intros Hv. split; [|exact Hv]. destruct m as [row col].
  apply is_valid_move_spec in Hv as [[Hr Hc] _].
  apply in_prod; apply In_range; assumption.
Qed.

(** The scans meet the valid cells in row-major order. *)
Lemma range_sorted (a k : nat) :
  StronglySorted Z.lt (map Z.of_nat (seq a k)).
Proof.
  revert a. induction k as [|k IH]; intros a; simpl; constructor.
  - apply IH.
  - apply List.Forall_forall. intros x Hx.
    apply in_map_iff in Hx as (i & <- & Hi). apply in_seq in Hi. lia.
Qed.

Lemma sorted_app {B : Type} (R : B -> B -> Prop) (l1 l2 : list B) :
  StronglySorted R l1 -> StronglySorted R l2 ->
  (forall x y, In x l1 -> In y l2 -> R x y) ->
  StronglySorted R (l1 ++ l2).
Proof.
  intros H1 H2 H12. induction H1 as [|x l1 Hl1 IH Hx]; simpl; [exact H2|].
  constructor.
  - apply IH. intros y z Hy Hz. apply H12; [right; exact Hy|exact Hz].
  - apply List.Forall_forall. intros y Hy. apply in_app_or in Hy as [Hy|Hy].
    + apply (proj1 (List.Forall_forall _ _) Hx y Hy).
    + apply H12; [left; reflexivity|exact Hy].
Qed.

Lemma sorted_filter {B : Type} (R : B -> B -> Prop) (p : B -> bool)
    (l : list B) :
  StronglySorted R l -> StronglySorted R (List.filter p l).
Proof.
  induction 1 as [|x l Hl IH Hx]; simpl; [constructor|].
  destruct (p x); [|exact IH]. constructor; [exact IH|].
  apply List.Forall_forall. intros y Hy. apply filter_In in Hy as [Hy _].
  apply (proj1 (List.Forall_forall _ _) Hx y Hy).
Qed.

Lemma sorted_split {B : Type} (R : B -> B -> Prop) (l1 l2 : list B) (m : B) :
  StronglySorted R (l1 ++ m :: l2) -> forall y, In y l2 -> R m y.
Proof.
  induction l1 as [|x l1 IH]; simpl; intros H y Hy.
  - apply StronglySorted_inv in H as [_ H].
    apply (proj1 (List.Forall_forall _ _) H y Hy).
  - apply StronglySorted_inv in H as [H _]. apply (IH H y Hy).
Qed.

Lemma row_sorted (row : Z) (cols : list Z) :
  StronglySorted Z.lt cols ->
  StronglySorted row_major_before (map (pair row) cols).
Proof.
  induction 1 as [|col cols Hc IH Hcol]; simpl; constructor; [exact IH|].
  apply List.Forall_forall. intros x Hx. apply in_map_iff in Hx as (c & <- & Hc').
  right. simpl. split; [reflexivity|].
  apply (proj1 (List.Forall_forall _ _) Hcol c Hc').
Qed.

Lemma grid_sorted (rows cols : list Z) :
  StronglySorted Z.lt rows -> StronglySorted Z.lt cols ->
  StronglySorted row_major_before (list_prod rows cols).
Proof.
  intros Hrows Hcols. induction Hrows as [|row rows Hr IH Hrow]; simpl;
    [constructor|].
  apply sorted_app.
  - apply row_sorted, Hcols.
  - exact IH.
  - intros x y Hx Hy. apply in_map_iff in Hx as (c & <- & _).
    destruct y as [r' c']. apply in_prod_iff in Hy as [Hr' _].
    left. simpl. apply (proj1 (List.Forall_forall _ _) Hrow r' Hr').
Qed.

Lemma cells_sorted (n : Z) : StronglySorted row_major_before (cells n).
Proof. apply grid_sorted; apply range_sorted. Qed.

Lemma valid_moves_sorted (g : Gomoku) :
  StronglySorted row_major_before (valid_moves g).
Proof. apply sorted_filter, cells_sorted. Qed.

Lemma row_major_asym (x y : Move) :
  row_major_before x y -> row_major_before y x -> False.
Proof. unfold row_major_before. lia. Qed.

(** On a list in row-major order, the cell a first-best scan keeps is a
    best cell that beats every cell scanned before it. *)
Lemma first_maximal_row_major (score : Move -> Z) (l : list Move) (m : Move) :
  StronglySorted row_major_before l -> first_maximal score l m ->
  (forall x, In x l -> score x <= score m) /\
  (forall x, In x l -> row_major_before x m -> score x < score m).
Proof.
  intros Hsorted (before & after & -> & Hb & Ha).
  pose proof (sorted_split _ _ _ _ Hsorted) as Hafter.
  split; intros x Hx.
  - apply in_app_or in Hx as [Hx|[<-|Hx]].
    + specialize (Hb x Hx). lia.
    + lia.
    + apply (Ha x Hx).
  - intros Hxm. apply in_app_or in Hx as [Hx|[<-|Hx]].
    + apply (Hb x Hx).
    + exfalso. exact (row_major_asym _ _ Hxm Hxm).
    + exfalso. exact (row_major_asym _ _ Hxm (Hafter x Hx)).
Qed.

Lemma first_minimal_row_major (score : Move -> Z) (l : list Move) (m : Move) :
  StronglySorted row_major_before l -> first_minimal score l m ->
  (forall x, In x l -> score m <= score x) /\
  (forall x, In x l -> row_major_before x m -> score m < score x).
Proof.
  intros Hsorted (before & after & -> & Hb & Ha).
  pose proof (sorted_split _ _ _ _ Hsorted) as Hafter.
  split; intros x Hx.
  - apply in_app_or in Hx as [Hx|[<-|Hx]].
    + specialize (Hb x Hx). lia.
    + lia.
    + apply (Ha x Hx).
  - intros Hxm. apply in_app_or in Hx as [Hx|[<-|Hx]].
    + apply (Hb x Hx).
    + exfalso. exact (row_major_asym _ _ Hxm Hxm).
    + exfalso. exact (row_major_asym _ _ Hxm (Hafter x Hx)).
Qed.

(** C7: on a board with a valid move, [greedy_ai] returns a valid cell whose
    one-ply score (place [sym], evaluate for [sym]) is maximal among the
    valid cells and strictly greater than the score of every valid cell
    before it in row-major order, and leaves the board retracted; on the
    empty 15 x 15 board with [win_length = 5] it returns the centre [(7, 7)]
    for ['X']. *)
Theorem greedy_ai_first_maximal :
  (forall (g : Gomoku) (sym : string),
     wf g -> valid_moves g <> [] ->
     exists m,
       greedy_ai g sym = (Some m, g) /\
       is_valid_move g (fst m) (snd m) = true /\
       (forall x, is_valid_move g (fst x) (snd x) = true ->
          lookahead g sym x <= lookahead g sym m) /\
       (forall x, is_valid_move g (fst x) (snd x) = true ->
          row_major_before x m ->
          lookahead g sym x < lookahead g sym m)) /\
  fst (greedy_ai (init 15 5 2) "X") = Some (7, 7).
Proof.
  split.
  - intros g sym _ Hne.
    destruct (scan_max_first_maximal (lookahead g sym) (valid_moves g) Hne)
      as (m & Hfold & Hfirst).
    exists m. rewrite greedy_ai_scan, Hfold. split; [reflexivity|].
    destruct (first_maximal_row_major _ _ _ (valid_moves_sorted g) Hfirst)
      as [Hmax Hstrict].
    split; [|split].
    + apply In_valid_moves. destruct Hfirst as (before & after & -> & _).
      apply in_or_app. right. left. reflexivity.
    + intros x Hx. apply Hmax, In_valid_moves, Hx.
    + intros x Hx. apply Hstrict, In_valid_moves, Hx.
  - vm_compute. reflexivity.
Qed.

Lemma greedy_ai_first_maximal_witness :
  exists m,
    greedy_ai (init 3 3 2) "X" = (Some m, init 3 3 2) /\
    is_valid_move (init 3 3 2) (fst m) (snd m) = true /\
    (forall x, is_valid_move (init 3 3 2) (fst x) (snd x) = true ->
       lookahead (init 3 3 2) "X" x <= lookahead (init 3 3 2) "X" m) /\
    (forall x, is_valid_move (init 3 3 2) (fst x) (snd x) = true ->
       row_major_before x m ->
       lookahead (init 3 3 2) "X" x < lookahead (init 3 3 2) "X" m).
Proof.
  apply (proj1 greedy_ai_first_maximal).
  - apply wf_init.
  - vm_compute. discriminate.
Defined.

(** C6: for a player of type "worst", [get_ai_move] scans with the
    opponent's symbol: on a board with a valid move it returns a valid cell
    whose one-ply score for the opponent (place the opponent's symbol,
    evaluate for the opponent) is minimal among the valid cells and
    strictly less than the score of every valid cell before it in
    row-major order, and the board is left retracted. *)
Theorem worst_ai_first_minimal (clock : nat -> Z) (rand : nat -> nat)
    (n : nat) (player opponent : Player) (w : World) :
  wf (self w) -> valid_moves (self w) <> [] ->
  ai_type player = Some "worst" ->
  exists m,
    get_ai_move clock rand n player opponent w = Some (Some m, w) /\
    worst_ai (self w) (symbol opponent) = (Some m, self w) /\
    is_valid_move (self w) (fst m) (snd m) = true /\
    (forall x, is_valid_move (self w) (fst x) (snd x) = true ->
       lookahead (self w) (symbol opponent) m
       <= lookahead (self w) (symbol opponent) x) /\
    (forall x, is_valid_move (self w) (fst x) (snd x) = true ->
       row_major_before x m ->
       lookahead (self w) (symbol opponent) m
       < lookahead (self w) (symbol opponent) x).
Proof.
  intros _ Hne Htype.
  destruct (scan_min_first_minimal (lookahead (self w) (symbol opponent))
              (valid_moves (self w)) Hne) as (m & Hfold & Hfirst).
  assert (Hworst : worst_ai (self w) (symbol opponent) = (Some m, self w)).
  { rewrite worst_ai_scan, Hfold. reflexivity. }
  destruct (first_minimal_row_major _ _ _ (valid_moves_sorted (self w)) Hfirst)
    as [Hmin Hstrict].
  exists m. split; [|split; [exact Hworst|split; [|split]]].
  - unfold get_ai_move. rewrite Htype.
    destruct (decide (Some "worst" = Some "random")) as [H|_]; [discriminate|].
    destruct (decide (Some "worst" = Some "greedy")) as [H|_]; [discriminate|].
    destruct (decide (Some "worst" = Some "worst")) as [_|H]; [|congruence].
    rewrite Hworst. destruct w; reflexivity.
  - apply In_valid_moves. destruct Hfirst as (before & after & -> & _).
    apply in_or_app. right. left. reflexivity.
  - intros x Hx. apply Hmin, In_valid_moves, Hx.
  - intros x Hx. apply Hstrict, In_valid_moves, Hx.
Qed.

Lemma worst_ai_first_minimal_witness :
  exists m,
    get_ai_move (fun _ => 0) (fun _ => 0%nat) 1
      (mkPlayer "X" (Some "worst")) (mkPlayer "O" (Some "greedy"))
      (mkWorld (init 3 3 2) 0) = Some (Some m, mkWorld (init 3 3 2) 0) /\
    worst_ai (init 3 3 2) "O" = (Some m, init 3 3 2) /\
    is_valid_move (init 3 3 2) (fst m) (snd m) = true /\
    (forall x, is_valid_move (init 3 3 2) (fst x) (snd x) = true ->
       lookahead (init 3 3 2) "O" m <= lookahead (init 3 3 2) "O" x) /\
    (forall x, is_valid_move (init 3 3 2) (fst x) (snd x) = true ->
       row_major_before x m ->
       lookahead (init 3 3 2) "O" m < lookahead (init 3 3 2) "O" x).
Proof.
  apply (worst_ai_first_minimal (fun _ => 0) (fun _ => 0%nat) 1
           (mkPlayer "X" (Some "worst")) (mkPlayer "O" (Some "greedy"))
           (mkWorld (init 3 3 2) 0)).
  - apply wf_init.
  - vm_compute. discriminate.
  - reflexivity.
Defined.

(** ** Arithmetic of the extended scores *)

Lemma ext_max_Fin (x y : Z) : ext_max (Fin x) (Fin y) = Fin (Z.max x y).
Proof.
  unfold ext_max. simpl. destruct (Z.ltb_spec x y); f_equal; lia.
Qed.

Lemma ext_min_Fin (x y : Z) : ext_min (Fin x) (Fin y) = Fin (Z.min x y).
Proof.
  unfold ext_min. simpl. destruct (Z.ltb_spec y x); f_equal; lia.
Qed.

Lemma ext_max_NegInf_l (x : ext) : ext_max NegInf x = x.
Proof. destruct x; reflexivity. Qed.

Lemma ext_max_NegInf_r (x : ext) : ext_max x NegInf = x.
Proof. destruct x; reflexivity. Qed.

Lemma ext_max_PosInf_l (x : ext) : ext_max PosInf x = PosInf.
Proof. destruct x; reflexivity. Qed.

Lemma ext_max_PosInf_r (x : ext) : ext_max x PosInf = PosInf.
Proof. destruct x; reflexivity. Qed.

Lemma ext_min_NegInf_l (x : ext) : ext_min NegInf x = NegInf.
Proof. destruct x; reflexivity. Qed.

Lemma ext_min_NegInf_r (x : ext) : ext_min x NegInf = NegInf.
Proof. destruct x; reflexivity. Qed.

Lemma ext_min_PosInf_l (x : ext) : ext_min PosInf x = x.
Proof. destruct x; reflexivity. Qed.

Lemma ext_min_PosInf_r (x : ext) : ext_min x PosInf = x.
Proof. destruct x; reflexivity. Qed.

Create Rewrite HintDb ext_simpl.

#[local] Hint Rewrite ext_max_Fin ext_min_Fin ext_max_NegInf_l ext_max_NegInf_r
  ext_max_PosInf_l ext_max_PosInf_r ext_min_NegInf_l ext_min_NegInf_r
  ext_min_PosInf_l ext_min_PosInf_r : ext_simpl.

(** Case analysis on the extended scores in sight; what is left is linear
    arithmetic on the finite ones. *)
Ltac ext_prune :=
  cbn [ext_lt negb fst snd] in *;
  autorewrite with ext_simpl in *;
  cbn [ext_lt negb fst snd] in *;
  try discriminate.

Ltac ext_cases :=
  unfold ext_le in *;
  repeat (match goal with
          | x : ext |- _ => destruct x
          end; ext_prune).

Lemma Fin_eq_iff (x y : Z) : Fin x = Fin y <-> x = y.
Proof. split; [intros H; injection H; auto | intros ->; reflexivity]. Qed.

Lemma Fin_NegInf_iff (x : Z) : Fin x = NegInf <-> False.
Proof. split; [discriminate | tauto]. Qed.

Lemma Fin_PosInf_iff (x : Z) : Fin x = PosInf <-> False.
Proof. split; [discriminate | tauto]. Qed.

Lemma NegInf_Fin_iff (x : Z) : NegInf = Fin x <-> False.
Proof. split; [discriminate | tauto]. Qed.

Lemma PosInf_Fin_iff (x : Z) : PosInf = Fin x <-> False.
Proof. split; [discriminate | tauto]. Qed.

Lemma NegInf_PosInf_iff : NegInf = PosInf <-> False.
Proof. split; [discriminate | tauto]. Qed.

Lemma PosInf_NegInf_iff : PosInf = NegInf <-> False.
Proof. split; [discriminate | tauto]. Qed.

Ltac ext_close :=
  repeat match goal with
         | H : context [Fin _ = Fin _] |- _ => rewrite Fin_eq_iff in H
         | H : context [Fin _ = NegInf] |- _ => rewrite Fin_NegInf_iff in H
         | H : context [Fin _ = PosInf] |- _ => rewrite Fin_PosInf_iff in H
         | H : context [NegInf = Fin _] |- _ => rewrite NegInf_Fin_iff in H
         | H : context [PosInf = Fin _] |- _ => rewrite PosInf_Fin_iff in H
         | H : context [NegInf = PosInf] |- _ => rewrite NegInf_PosInf_iff in H
         | H : context [PosInf = NegInf] |- _ => rewrite PosInf_NegInf_iff in H
         | |- context [Fin _ = Fin _] => rewrite Fin_eq_iff
         | |- context [Fin _ = NegInf] => rewrite Fin_NegInf_iff
         | |- context [Fin _ = PosInf] => rewrite Fin_PosInf_iff
         | |- context [NegInf = Fin _] => rewrite NegInf_Fin_iff
         | |- context [PosInf = Fin _] => rewrite PosInf_Fin_iff
         | |- context [NegInf = PosInf] => rewrite NegInf_PosInf_iff
         | |- context [PosInf = NegInf] => rewrite PosInf_NegInf_iff
         end;
  try tauto; try lia.

Lemma bracket_exact (a b u : ext) : bracket a b u u.
Proof. unfold bracket. tauto. Qed.

Lemma bracket_full (u v : ext) : bracket NegInf PosInf u v -> v = u.
Proof.
  unfold bracket. intros (H1 & H2 & H3). ext_cases; ext_close.
Qed.

Lemma ext_max_assoc (x y z : ext) :
  ext_max (ext_max x y) z = ext_max x (ext_max y z).
Proof. ext_cases; ext_close. Qed.

Lemma ext_min_assoc (x y z : ext) :
  ext_min (ext_min x y) z = ext_min x (ext_min y z).
Proof. ext_cases; ext_close. Qed.

Lemma ext_le_max_l (b x y : ext) :
  ext_le b x = true -> ext_le b (ext_max x y) = true.
Proof. intros H. ext_cases; ext_close. Qed.

Lemma ext_le_max_r (b x y : ext) :
  ext_le b y = true -> ext_le b (ext_max x y) = true.
Proof. intros H. ext_cases; ext_close. Qed.

Lemma ext_le_min_l (a x y : ext) :
  ext_le x a = true -> ext_le (ext_min x y) a = true.
Proof. intros H. ext_cases; ext_close. Qed.

Lemma ext_le_min_r (a x y : ext) :
  ext_le y a = true -> ext_le (ext_min x y) a = true.
Proof. intros H. ext_cases; ext_close. Qed.

Lemma ext_le_false (x y : ext) : ext_le x y = false -> ext_lt y x = true.
Proof. unfold ext_le. destruct (ext_lt y x); [reflexivity|discriminate]. Qed.

(** In an open window, a child that does not cut moves [alpha] exactly as
    its true value would. *)
Lemma bracket_open_max (a b c v : ext) :
  ext_lt a b = true -> bracket a b c v ->
  ext_le b (ext_max a v) = false ->
  ext_max a v = ext_max a c.
Proof.
  unfold bracket. intros H (H1 & H2 & H3) Hcut. ext_cases; ext_close.
Qed.

(** In an open window, a child that cuts is truly worth the bound. *)
Lemma bracket_cut_max (a b c v : ext) :
  ext_lt a b = true -> bracket a b c v ->
  ext_le b (ext_max a v) = true ->
  ext_le b v = true /\ ext_le b c = true.
Proof.
  unfold bracket. intros H (H1 & H2 & H3) Hcut. ext_cases; ext_close.
Qed.

Lemma bracket_open_min (a b c v : ext) :
  ext_lt a b = true -> bracket a b c v ->
  ext_le (ext_min b v) a = false ->
  ext_min b v = ext_min b c.
Proof.
  unfold bracket. intros H (H1 & H2 & H3) Hcut. ext_cases; ext_close.
Qed.

Lemma bracket_cut_min (a b c v : ext) :
  ext_lt a b = true -> bracket a b c v ->
  ext_le (ext_min b v) a = true ->
  ext_le v a = true /\ ext_le c a = true.
Proof.
  unfold bracket. intros H (H1 & H2 & H3) Hcut. ext_cases; ext_close.
Qed.

Lemma max_init (a0 b : ext) :
  ext_lt a0 b = true -> max_inv a0 b NegInf (NegInf, a0).
Proof.
  intros H. left. cbn [fst snd]. rewrite ext_max_NegInf_r. tauto.
Qed.

(** One valid cell of a maximizing node: the child's value [v] answers for
    its true value [c] in the current window when that window is open. *)
Lemma max_step (a0 b p best a c v : ext) :
  ext_lt a0 b = true ->
  max_inv a0 b p (best, a) ->
  (ext_lt a b = true -> bracket a b c v) ->
  max_inv a0 b (ext_max p c) (ext_max best v, ext_max a v).
Proof.
  intros H0 Hinv Hv. unfold max_inv in *. cbn [fst snd] in *.
  destruct Hinv as [(H1 & H2 & H3)|(H1 & H2 & H3)].
  - specialize (Hv H1).
    destruct (ext_le b (ext_max a v)) eqn:Hcut.
    + destruct (bracket_cut_max a b c v H1 Hv Hcut) as [Hbv Hbc].
      right. split; [reflexivity|].
      split; [apply ext_le_max_r, Hbv | apply ext_le_max_r, Hbc].
    + left. split; [apply ext_le_false, Hcut|]. split.
      * rewrite H2 at 1. apply ext_max_assoc.
      * rewrite (bracket_open_max a b c v H1 Hv Hcut).
        rewrite H3 at 1. apply ext_max_assoc.
  - right. split; [apply ext_le_max_l, H1|].
    split; [apply ext_le_max_l, H2 | apply ext_le_max_l, H3].
Qed.

Lemma max_final (a0 b u best a : ext) :
  ext_lt a0 b = true -> max_inv a0 b u (best, a) -> bracket a0 b u best.
Proof.
  intros H0 Hinv. unfold max_inv, bracket in *. cbn [fst snd] in *.
  destruct Hinv as [(H1 & H2 & H3)|(H1 & H2 & H3)].
  - subst a. ext_cases; ext_close.
  - clear H1. ext_cases; ext_close.
Qed.

(** After a cut the invariant only asks the true maximum to stay above the
    bound, so it survives the cells the [break] skips. *)
Lemma max_inv_cut (a0 b p p' best a : ext) :
  ext_le b a = true -> ext_le p p' = true ->
  max_inv a0 b p (best, a) -> max_inv a0 b p' (best, a).
Proof.
  intros Hcut Hp Hinv. unfold max_inv in *. cbn [fst snd] in *.
  destruct Hinv as [(H1 & H2 & H3)|(H1 & H2 & H3)].
  - exfalso. clear H2 H3 Hp. ext_cases; ext_close.
  - right. split; [exact H1|]. split; [exact H2|].
    clear H1 H2 Hcut. ext_cases; ext_close.
Qed.

Lemma min_init (a b0 : ext) :
  ext_lt a b0 = true -> min_inv a b0 PosInf (PosInf, b0).
Proof.
  intros H. left. cbn [fst snd]. rewrite ext_min_PosInf_r. tauto.
Qed.

(** One valid cell of a minimizing node. *)
Lemma min_step (a b0 p best b c v : ext) :
  ext_lt a b0 = true ->
  min_inv a b0 p (best, b) ->
  (ext_lt a b = true -> bracket a b c v) ->
  min_inv a b0 (ext_min p c) (ext_min best v, ext_min b v).
Proof.
  intros H0 Hinv Hv. unfold min_inv in *. cbn [fst snd] in *.
  destruct Hinv as [(H1 & H2 & H3)|(H1 & H2 & H3)].
  - specialize (Hv H1).
    destruct (ext_le (ext_min b v) a) eqn:Hcut.
    + destruct (bracket_cut_min a b c v H1 Hv Hcut) as [Hva Hca].
      right. split; [reflexivity|].
      split; [apply ext_le_min_r, Hva | apply ext_le_min_r, Hca].
    + left. split; [apply ext_le_false, Hcut|]. split.
      * rewrite H2 at 1. apply ext_min_assoc.
      * rewrite (bracket_open_min a b c v H1 Hv Hcut).
        rewrite H3 at 1. apply ext_min_assoc.
  - right. split; [apply ext_le_min_l, H1|].
    split; [apply ext_le_min_l, H2 | apply ext_le_min_l, H3].
Qed.

Lemma min_final (a b0 u best b : ext) :
  ext_lt a b0 = true -> min_inv a b0 u (best, b) -> bracket a b0 u best.
Proof.
  intros H0 Hinv. unfold min_inv, bracket in *. cbn [fst snd] in *.
  destruct Hinv as [(H1 & H2 & H3)|(H1 & H2 & H3)].
  - subst b. ext_cases; ext_close.
  - clear H1. ext_cases; ext_close.
Qed.

Lemma min_inv_cut (a b0 p p' best b : ext) :
  ext_le b a = true -> ext_le p' p = true ->
  min_inv a b0 p (best, b) -> min_inv a b0 p' (best, b).
Proof.
  intros Hcut Hp Hinv. unfold min_inv in *. cbn [fst snd] in *.
  destruct Hinv as [(H1 & H2 & H3)|(H1 & H2 & H3)].
  - exfalso. clear H2 H3 Hp. ext_cases; ext_close.
  - right. split; [exact H1|]. split; [exact H2|].
    clear H1 H2 Hcut. ext_cases; ext_close.
Qed.

Lemma fold_max_above {B : Type} (f : B -> ext) (l : list B) (p : ext) :
  ext_le p (fold_left (fun acc m => ext_max acc (f m)) l p) = true.
Proof.
  revert p. induction l as [|m l IH]; intros p; cbn [fold_left].
  - ext_cases; ext_close.
  - specialize (IH (ext_max p (f m))).
    remember (fold_left _ l _) as q eqn:Hq. clear Hq.
    remember (f m) as c eqn:Hc. clear Hc.
    ext_cases; ext_close.
Qed.

Lemma fold_min_below {B : Type} (f : B -> ext) (l : list B) (p : ext) :
  ext_le (fold_left (fun acc m => ext_min acc (f m)) l p) p = true.
Proof.
  revert p. induction l as [|m l IH]; intros p; cbn [fold_left].
  - ext_cases; ext_close.
  - specialize (IH (ext_min p (f m))).
    remember (fold_left _ l _) as q eqn:Hq. clear Hq.
    remember (f m) as c eqn:Hc. clear Hc.
    ext_cases; ext_close.
Qed.

(** ** What the search leaves unchanged *)

Lemma same_game_refl (g : Gomoku) : same_game g g.
Proof. unfold same_game. tauto. Qed.

Lemma same_game_trans (g1 g2 g3 : Gomoku) :
  same_game g1 g2 -> same_game g2 g3 -> same_game g1 g3.
Proof. unfold same_game. intuition congruence. Qed.

Lemma same_game_sym (g1 g2 : Gomoku) : same_game g1 g2 -> same_game g2 g1.
Proof. unfold same_game. intuition congruence. Qed.

Lemma same_game_cases (g g' : Gomoku) :
  same_game g g' ->
  g' = mkGomoku (board_size g) (win_length g) (ai_time_limit g) (board g)
         (nodes_expanded g').
Proof.
  destruct g, g'. unfold same_game. simpl.
  intros (-> & -> & -> & ->). reflexivity.
Qed.

Ltac same_game_subst H :=
  let E := fresh "E" in
  pose proof (same_game_cases _ _ H) as E; rewrite E; clear E.

Lemma is_valid_move_same (g g' : Gomoku) (row col : Z) :
  same_game g g' -> is_valid_move g' row col = is_valid_move g row col.
Proof. intros H. same_game_subst H. destruct g; reflexivity. Qed.

Lemma is_full_same (g g' : Gomoku) :
  same_game g g' -> is_full g' = is_full g.
Proof. intros H. same_game_subst H. destruct g; reflexivity. Qed.

Lemma evaluate_board_same (g g' : Gomoku) (sym : string) :
  same_game g g' -> evaluate_board g' sym = evaluate_board g sym.
Proof. intros H. same_game_subst H. destruct g; reflexivity. Qed.

Lemma valid_moves_same (g g' : Gomoku) :
  same_game g g' -> valid_moves g' = valid_moves g.
Proof. intros H. same_game_subst H. destruct g; reflexivity. Qed.

Lemma assign_same (g g' : Gomoku) (row col : Z) (s : string) :
  same_game g g' -> same_game (assign g row col s) (assign g' row col s).
Proof.
  unfold same_game, assign, with_board. simpl.
  intros (H1 & H2 & H3 & H4). rewrite H4. tauto.
Qed.

Lemma plain_minimax_same (d : nat) (mx : bool) (sym opp : string)
    (g g' : Gomoku) :
  same_game g g' ->
  plain_minimax d mx sym opp g' = plain_minimax d mx sym opp g.
Proof.
  revert mx g g'. induction d as [|d IH]; intros mx g g' H; cbn [plain_minimax].
  - rewrite (evaluate_board_same g g' sym H). reflexivity.
  - rewrite (is_full_same g g' H), (evaluate_board_same g g' sym H),
      (valid_moves_same g g' H).
    destruct (is_full g); [reflexivity|].
    destruct mx; apply fold_left_agree; intros best m; f_equal;
      apply IH, assign_same, H.
Qed.

Lemma frame_refl (w : World) : frame w w.
Proof. split; [apply same_game_refl | lia]. Qed.

Lemma frame_trans (w1 w2 w3 : World) :
  frame w1 w2 -> frame w2 w3 -> frame w1 w3.
Proof.
  intros [H1 H2] [H3 H4]. split; [eapply same_game_trans; eassumption | lia].
Qed.

Lemma frame_bump (w : World) : frame w (bump w).
Proof. split; [unfold same_game; simpl; tauto | simpl; lia]. Qed.

(** A placement, a call that keeps the frame of the placed position, and
    the retraction together keep the frame. *)
Lemma frame_place_retract (w w2 : World) (row col : Z) (s : string) :
  is_valid_move (self w) row col = true ->
  frame (place w row col s) w2 ->
  frame w (place w2 row col ".").
Proof.
  intros Hv [Hs Ht]. split; [|exact Ht].
  apply (assign_same _ _ row col ".") in Hs. simpl in Hs.
  fold (retract (assign (self w) row col s) row col) in Hs.
  rewrite (retract_assign _ _ _ _ Hv) in Hs. exact Hs.
Qed.

Lemma for_loop_frame {S : Type} (body : Z -> S -> M (S * bool))
    (items : list Z) (s r : S) (w w' : World) :
  (forall x s1 w1 r1 w2, body x s1 w1 = Some (r1, w2) -> frame w1 w2) ->
  for_loop body items s w = Some (r, w') -> frame w w'.
Proof.
  intros Hbody. revert s w.
  induction items as [|x items IH]; intros s w; cbn [for_loop].
  - intros [= _ <-]. apply frame_refl.
  - destruct (body x s w) as [[[s1 brk] w1]|] eqn:Hb; [|discriminate].
    apply Hbody in Hb. destruct brk.
    + intros [= _ <-]. exact Hb.
    + intros Hrest. apply IH in Hrest. eapply frame_trans; eassumption.
Qed.

Lemma no_break_frame {S : Type} (body : Z -> S -> M S) :
  (forall x s1 w1 r1 w2, body x s1 w1 = Some (r1, w2) -> frame w1 w2) ->
  forall x s1 w1 r1 w2, no_break body x s1 w1 = Some (r1, w2) -> frame w1 w2.
Proof.
  intros Hbody x s1 w1 r1 w2. unfold no_break.
  destruct (body x s1 w1) as [[s2 w3]|] eqn:Hb; [|discriminate].
  intros [= _ <-]. eapply Hbody, Hb.
Qed.

Lemma scan_rows_frame (cell_body : Z -> Z -> ext * ext -> M (ext * ext * bool))
    (s r : ext * ext) (w w' : World) :
  (forall row col s1 w1 r1 w2,
     cell_body row col s1 w1 = Some (r1, w2) -> frame w1 w2) ->
  scan_rows cell_body s w = Some (r, w') -> frame w w'.
Proof.
  intros Hcell. unfold scan_rows. apply for_loop_frame.
  apply no_break_frame. intros row s1 w1 r1 w2.
  apply for_loop_frame. apply Hcell.
Qed.

Lemma max_cell_frame (child : ext -> ext -> M ext) (sym : string) (beta : ext)
    (row col : Z) (s : ext * ext) (r : ext * ext * bool) (w w' : World) :
  (forall a b w1 v w2, child a b w1 = Some (v, w2) -> frame w1 w2) ->
  max_cell child sym beta row col s w = Some (r, w') -> frame w w'.
Proof.
  intros Hchild. unfold max_cell. destruct s as [best alpha].
  destruct (is_valid_move (self w) row col) eqn:Hv.
  - destruct (child alpha beta (place w row col sym)) as [[v w2]|] eqn:Hc;
      [|discriminate].
    apply Hchild in Hc. pose proof (frame_place_retract _ _ _ _ _ Hv Hc) as Hf.
    destruct (ext_le beta (ext_max alpha v)); intros [= _ <-].
    + exact Hf.
    + eapply frame_trans; [exact Hf | apply frame_bump].
  - intros [= _ <-]. apply frame_refl.
Qed.

Lemma min_cell_frame (child : ext -> ext -> M ext) (opp : string) (alpha : ext)
    (row col : Z) (s : ext * ext) (r : ext * ext * bool) (w w' : World) :
  (forall a b w1 v w2, child a b w1 = Some (v, w2) -> frame w1 w2) ->
  min_cell child opp alpha row col s w = Some (r, w') -> frame w w'.
Proof.
  intros Hchild. unfold min_cell. destruct s as [best beta].
  destruct (is_valid_move (self w) row col) eqn:Hv.
  - destruct (child alpha beta (place w row col opp)) as [[v w2]|] eqn:Hc;
      [|discriminate].
    apply Hchild in Hc. pose proof (frame_place_retract _ _ _ _ _ Hv Hc) as Hf.
    destruct (ext_le (ext_min beta v) alpha); intros [= _ <-].
    + exact Hf.
    + eapply frame_trans; [exact Hf | apply frame_bump].
  - intros [= _ <-]. apply frame_refl.
Qed.

Lemma time_time_frame (clock : nat -> Z) (w : World) :
  frame w (snd (time_time clock w)).
Proof. split; [apply same_game_refl | simpl; lia]. Qed.

Lemma minimax_frame (clock : nat -> Z) (fuel : nat) (depth : Z)
    (alpha beta : ext) (mx : bool) (sym opp : string) (start : Z)
    (w : World) (v : ext) (w' : World) :
  minimax clock fuel depth alpha beta mx sym opp start w = Some (v, w') ->
  frame w w'.
Proof.
  revert depth alpha beta mx w v w'.
  induction fuel as [|fuel IH]; intros depth alpha beta mx w v w';
    cbn [minimax]; [discriminate|].
  destruct ((depth =? 0) || is_full (self w)).
  { intros [= _ <-]. apply frame_refl. }
  pose proof (time_time_frame clock w) as Ht.
  destruct (time_time clock w) as [now w1]. cbn [snd] in Ht.
  destruct (now - start >? ai_time_limit (self w1)).
  { intros [= _ <-]. exact Ht. }
  destruct mx.
  - destruct (scan_rows _ _ w1) as [[[best a] w2]|] eqn:Hscan; [|discriminate].
    intros [= _ <-]. eapply frame_trans; [exact Ht|].
    eapply scan_rows_frame; [|exact Hscan].
    intros row col s1 w3 r1 w4. apply max_cell_frame.
    intros a0 b0 w5 v0 w6. apply IH.
  - destruct (scan_rows _ _ w1) as [[[best b] w2]|] eqn:Hscan; [|discriminate].
    intros [= _ <-]. eapply frame_trans; [exact Ht|].
    eapply scan_rows_frame; [|exact Hscan].
    intros row col s1 w3 r1 w4. apply min_cell_frame.
    intros a0 b0 w5 v0 w6. apply IH.
Qed.

Lemma sweep_cell_frame (clock : nat -> Z) (depth : Z) (sym opp : string)
    (start row col : Z) (s r : option Move * ext) (w w' : World) :
  sweep_cell clock depth sym opp start row col s w = Some (r, w') ->
  frame w w'.
Proof.
  unfold sweep_cell. destruct s as [cm cs].
  destruct (is_valid_move (self w) row col) eqn:Hv.
  - destruct (minimax _ _ _ _ _ _ _ _ _ _) as [[v w2]|] eqn:Hc; [|discriminate].
    apply minimax_frame in Hc.
    pose proof (frame_place_retract _ _ _ _ _ Hv Hc) as Hf.
    destruct (ext_lt cs v); intros [= _ <-]; exact Hf.
  - intros [= _ <-]. apply frame_refl.
Qed.

Lemma sweep_frame (clock : nat -> Z) (depth : Z) (sym opp : string)
    (start : Z) (r : option Move * ext) (w w' : World) :
  sweep clock depth sym opp start w = Some (r, w') -> frame w w'.
Proof.
  unfold sweep. apply for_loop_frame.
  apply no_break_frame. intros row s1 w1 r1 w2.
  apply for_loop_frame. apply no_break_frame.
  intros col s2 w3 r2 w4. apply sweep_cell_frame.
Qed.

Lemma deepening_loop_frame (clock : nat -> Z) (n : nat) (sym opp : string)
    (start : Z) (bm : option Move) (bs : ext) (depth : Z)
    (w : World) (m : option Move) (w' : World) :
  deepening_loop clock n sym opp start bm bs depth w = Some (m, w') ->
  frame w w'.
Proof.
  revert bm bs depth w.
  induction n as [|n IH]; intros bm bs depth w; cbn [deepening_loop];
    [discriminate|].
  pose proof (time_time_frame clock w) as Ht.
  destruct (time_time clock w) as [now w1]. cbn [snd] in Ht.
  destruct (now - start <? ai_time_limit (self w1)).
  - destruct (sweep _ _ _ _ _ w1) as [[[cm cs] w2]|] eqn:Hs; [|discriminate].
    apply sweep_frame in Hs.
    destruct cm; intros Hrest; apply IH in Hrest;
      eapply frame_trans; [exact Ht| |exact Ht|];
      eapply frame_trans; eassumption.
  - intros [= _ <-]. exact Ht.
Qed.

Lemma iterative_deepening_frame (clock : nat -> Z) (n : nat)
    (sym opp : string) (w : World) (m : option Move) (w' : World) :
  iterative_deepening clock n sym opp w = Some (m, w') -> frame w w'.
Proof.
  unfold iterative_deepening.
  pose proof (time_time_frame clock w) as Ht.
  destruct (time_time clock w) as [start w0]. cbn [snd] in Ht.
  intros H. apply deepening_loop_frame in H.
  eapply frame_trans; eassumption.
Qed.

(** ** The search returns *)

Lemma for_loop_total {S : Type} (body : Z -> S -> M (S * bool))
    (items : list Z) (s : S) (w : World) :
  (forall x s1 w1, is_Some (body x s1 w1)) ->
  is_Some (for_loop body items s w).
Proof.
  intros Hbody. revert s w.
  induction items as [|x items IH]; intros s w; cbn [for_loop].
  - eexists. reflexivity.
  - destruct (Hbody x s w) as [[[s1 brk] w1] ->].
    destruct brk; [eexists; reflexivity | apply IH].
Qed.

Lemma no_break_total {S : Type} (body : Z -> S -> M S) :
  (forall x s1 w1, is_Some (body x s1 w1)) ->
  forall x s1 w1, is_Some (no_break body x s1 w1).
Proof.
  intros Hbody x s1 w1. unfold no_break.
  destruct (Hbody x s1 w1) as [[s2 w2] ->]. eexists. reflexivity.
Qed.

Lemma scan_rows_total (cell_body : Z -> Z -> ext * ext -> M (ext * ext * bool))
    (s : ext * ext) (w : World) :
  (forall row col s1 w1, is_Some (cell_body row col s1 w1)) ->
  is_Some (scan_rows cell_body s w).
Proof.
  intros Hcell. unfold scan_rows. apply for_loop_total.
  apply no_break_total. intros row s1 w1. apply for_loop_total.
  intros col s2 w2. apply Hcell.
Qed.

Lemma max_cell_total (child : ext -> ext -> M ext) (sym : string) (beta : ext)
    (row col : Z) (s : ext * ext) (w : World) :
  (forall a b w1, is_Some (child a b w1)) ->
  is_Some (max_cell child sym beta row col s w).
Proof.
  intros Hchild. unfold max_cell. destruct s as [best alpha].
  destruct (is_valid_move (self w) row col); [|eexists; reflexivity].
  destruct (Hchild alpha beta (place w row col sym)) as [[v w2] ->].
  destruct (ext_le beta (ext_max alpha v)); eexists; reflexivity.
Qed.

Lemma min_cell_total (child : ext -> ext -> M ext) (opp : string) (alpha : ext)
    (row col : Z) (s : ext * ext) (w : World) :
  (forall a b w1, is_Some (child a b w1)) ->
  is_Some (min_cell child opp alpha row col s w).
Proof.
  intros Hchild. unfold min_cell. destruct s as [best beta].
  destruct (is_valid_move (self w) row col); [|eexists; reflexivity].
  destruct (Hchild alpha beta (place w row col opp)) as [[v w2] ->].
  destruct (ext_le (ext_min beta v) alpha); eexists; reflexivity.
Qed.

(** Fuel above the depth is enough for [minimax]. *)
Lemma minimax_total (clock : nat -> Z) (fuel : nat) (depth : Z)
    (alpha beta : ext) (mx : bool) (sym opp : string) (start : Z) (w : World) :
  0 <= depth < Z.of_nat fuel ->
  is_Some (minimax clock fuel depth alpha beta mx sym opp start w).
Proof.
  revert depth alpha beta mx w.
  induction fuel as [|fuel IH]; intros depth alpha beta mx w Hd; [lia|].
  cbn [minimax].
  destruct (Z.eqb_spec depth 0) as [->|Hne]; [eexists; reflexivity|].
  cbn [orb]. destruct (is_full (self w)); [eexists; reflexivity|].
  destruct (time_time clock w) as [now w1].
  destruct (now - start >? ai_time_limit (self w1)); [eexists; reflexivity|].
  destruct mx.
  - destruct (scan_rows_total
                (max_cell (fun a b => minimax clock fuel (depth - 1) a b false
                                        sym opp start) sym beta)
                (NegInf, alpha) w1) as [[[best a] w2] ->].
    + intros row col s1 w3. apply max_cell_total.
      intros a b w4. apply IH. lia.
    + eexists. reflexivity.
  - destruct (scan_rows_total
                (min_cell (fun a b => minimax clock fuel (depth - 1) a b true
                                        sym opp start) opp alpha)
                (PosInf, beta) w1) as [[[best b] w2] ->].
    + intros row col s1 w3. apply min_cell_total.
      intros a b w4. apply IH. lia.
    + eexists. reflexivity.
Qed.

Lemma sweep_cell_total (clock : nat -> Z) (depth : Z) (sym opp : string)
    (start row col : Z) (s : option Move * ext) (w : World) :
  1 <= depth ->
  is_Some (sweep_cell clock depth sym opp start row col s w).
Proof.
  intros Hd. unfold sweep_cell. destruct s as [cm cs].
  destruct (is_valid_move (self w) row col); [|eexists; reflexivity].
  destruct (minimax_total clock (Z.to_nat depth) (depth - 1) NegInf PosInf
              false sym opp start (place w row col sym)) as [[v w2] ->];
    [lia|].
  destruct (ext_lt cs v); eexists; reflexivity.
Qed.

Lemma sweep_total (clock : nat -> Z) (depth : Z) (sym opp : string)
    (start : Z) (w : World) :
  1 <= depth -> is_Some (sweep clock depth sym opp start w).
Proof.
  intros Hd. unfold sweep. apply for_loop_total.
  apply no_break_total. intros row s1 w1. apply for_loop_total.
  apply no_break_total. intros col s2 w2. apply sweep_cell_total. exact Hd.
Qed.

(** The [while] loop returns once its condition has been evaluated at a
    reading taken at or after the deadline; [n] evaluations are enough when
    every reading from the [n]-th on is that late. *)
Lemma deepening_loop_total (clock : nat -> Z) (n : nat) (sym opp : string)
    (start : Z) (bm : option Move) (bs : ext) (depth : Z) (w : World) :
  1 <= depth -> (1 <= n)%nat ->
  (forall k, (ticks w + n - 1 <= k)%nat ->
     ai_time_limit (self w) <= clock k - start) ->
  is_Some (deepening_loop clock n sym opp start bm bs depth w).
Proof.
  revert bm bs depth w.
  induction n as [|n IH]; intros bm bs depth w Hd Hn Hlate; [lia|].
  cbn [deepening_loop]. unfold time_time. cbn [self].
  destruct (Z.ltb_spec (clock (ticks w) - start) (ai_time_limit (self w)))
    as [Hearly|_]; [|eexists; reflexivity].
  assert (Hn' : (1 <= n)%nat).
  { destruct n; [|lia]. specialize (Hlate (ticks w) ltac:(lia)). lia. }
  destruct (sweep_total clock depth sym opp start
              (mkWorld (self w) (S (ticks w))) Hd) as [[[cm cs] w2] Hs].
  rewrite Hs. apply sweep_frame in Hs. destruct Hs as [Hsame Hticks].
  cbn [self ticks] in Hsame, Hticks.
  assert (Hlate' : forall k, (ticks w2 + n - 1 <= k)%nat ->
                     ai_time_limit (self w2) <= clock k - start).
  { intros k Hk. destruct Hsame as (_ & _ & -> & _). apply Hlate. lia. }
  destruct cm; apply IH; try assumption; lia.
Qed.

Lemma iterative_deepening_total (clock : nat -> Z) (n : nat)
    (sym opp : string) (w : World) :
  (1 <= n)%nat ->
  (forall k, (ticks w + n <= k)%nat ->
     ai_time_limit (self w) <= clock k - clock (ticks w)) ->
  is_Some (iterative_deepening clock n sym opp w).
Proof.
  intros Hn Hlate. unfold iterative_deepening, time_time.
  apply deepening_loop_total; [lia|exact Hn|].
  cbn [self ticks]. intros k Hk. apply Hlate. lia.
Qed.

(** ** Alpha-beta against unpruned minimax *)

Section NodeSound.

Variable child : ext -> ext -> M ext.
Variable value : Gomoku -> ext.
Variable limit : Z.

Hypothesis child_frame :
  forall a b w v w', child a b w = Some (v, w') -> frame w w'.

Hypothesis child_sound :
  forall a b w v w',
    ai_time_limit (self w) = limit ->
    child a b w = Some (v, w') ->
    ext_lt a b = true -> bracket a b (value (self w)) v.

Hypothesis value_same :
  forall g g', same_game g g' -> value g' = value g.

Lemma children_max_same (mark : string) (g g' : Gomoku) (l : list Move)
    (p : ext) :
  same_game g g' ->
  children_max value mark g' l p = children_max value mark g l p.
Proof.
  intros H. unfold children_max.
  rewrite (List.filter_ext _ (fun m => is_valid_move g (fst m) (snd m)))
    by (intros m; apply is_valid_move_same, H).
  apply fold_left_agree. intros acc m. f_equal.
  apply value_same, assign_same, H.
Qed.

Lemma children_min_same (mark : string) (g g' : Gomoku) (l : list Move)
    (p : ext) :
  same_game g g' ->
  children_min value mark g' l p = children_min value mark g l p.
Proof.
  intros H. unfold children_min.
  rewrite (List.filter_ext _ (fun m => is_valid_move g (fst m) (snd m)))
    by (intros m; apply is_valid_move_same, H).
  apply fold_left_agree. intros acc m. f_equal.
  apply value_same, assign_same, H.
Qed.

Lemma children_max_cons (mark : string) (g : Gomoku) (row col : Z)
    (cols : list Z) (p : ext) :
  children_max value mark g (map (pair row) (col :: cols)) p
  = children_max value mark g (map (pair row) cols)
      (if is_valid_move g row col
       then ext_max p (value (assign g row col mark)) else p).
Proof.
  unfold children_max. rewrite filter_valid_row, fold_left_app.
  destruct (is_valid_move g row col); reflexivity.
Qed.

Lemma children_min_cons (mark : string) (g : Gomoku) (row col : Z)
    (cols : list Z) (p : ext) :
  children_min value mark g (map (pair row) (col :: cols)) p
  = children_min value mark g (map (pair row) cols)
      (if is_valid_move g row col
       then ext_min p (value (assign g row col mark)) else p).
Proof.
  unfold children_min. rewrite filter_valid_row, fold_left_app.
  destruct (is_valid_move g row col); reflexivity.
Qed.

Lemma children_max_rows (mark : string) (g : Gomoku) (row : Z)
    (rows cols : list Z) (p : ext) :
  children_max value mark g (list_prod (row :: rows) cols) p
  = children_max value mark g (list_prod rows cols)
      (children_max value mark g (map (pair row) cols) p).
Proof.
  unfold children_max. rewrite filter_list_prod_cons, fold_left_app.
  reflexivity.
Qed.

Lemma children_min_rows (mark : string) (g : Gomoku) (row : Z)
    (rows cols : list Z) (p : ext) :
  children_min value mark g (list_prod (row :: rows) cols) p
  = children_min value mark g (list_prod rows cols)
      (children_min value mark g (map (pair row) cols) p).
Proof.
  unfold children_min. rewrite filter_list_prod_cons, fold_left_app.
  reflexivity.
Qed.

(** The inner loop of a maximizing node keeps [max_inv], the maximum of the
    true values running over the valid cells of the row. *)
Lemma max_cols_sound (sym : string) (a0 b : ext) (row : Z) (cols : list Z)
    (s r : ext * ext) (w w' : World) (p : ext) :
  ext_lt a0 b = true ->
  ai_time_limit (self w) = limit ->
  max_inv a0 b p s ->
  for_loop (max_cell child sym b row) cols s w = Some (r, w') ->
  max_inv a0 b (children_max value sym (self w) (map (pair row) cols) p) r.
Proof.
  intros Hwin. revert s w p.
  induction cols as [|col cols IH]; intros [best a] w p Hlim Hinv;
    cbn [for_loop].
  - intros [= <- _]. exact Hinv.
  - rewrite children_max_cons. unfold max_cell at 1.
    destruct (is_valid_move (self w) row col) eqn:Hv.
    + destruct (child a b (place w row col sym)) as [[v w2]|] eqn:Hc;
        [|discriminate].
      pose proof (child_frame _ _ _ _ _ Hc) as Hf.
      pose proof (frame_place_retract _ _ _ _ _ Hv Hf) as Hf3.
      assert (Hb : ext_lt a b = true ->
                   bracket a b (value (assign (self w) row col sym)) v).
      { intros Hab. exact (child_sound a b (place w row col sym) v w2 Hlim Hc Hab). }
      pose proof (max_step a0 b p best a _ v Hwin Hinv Hb) as Hinv'.
      destruct (ext_le b (ext_max a v)) eqn:Hcut.
      * intros [= <- _].
        eapply max_inv_cut; [exact Hcut| |exact Hinv'].
        apply fold_max_above.
      * intros Hrest.
        pose proof (frame_trans _ _ _ Hf3 (frame_bump _)) as [Hsame _].
        rewrite <- (children_max_same sym _ _ _ _ Hsame).
        eapply (IH _ (bump (place w2 row col "."))); [|exact Hinv'|exact Hrest].
        destruct Hsame as (_ & _ & -> & _). exact Hlim.
    + intros Hrest. apply (IH _ _ _ Hlim Hinv Hrest).
Qed.

Lemma min_cols_sound (opp : string) (a b0 : ext) (row : Z) (cols : list Z)
    (s r : ext * ext) (w w' : World) (p : ext) :
  ext_lt a b0 = true ->
  ai_time_limit (self w) = limit ->
  min_inv a b0 p s ->
  for_loop (min_cell child opp a row) cols s w = Some (r, w') ->
  min_inv a b0 (children_min value opp (self w) (map (pair row) cols) p) r.
Proof.
  intros Hwin. revert s w p.
  induction cols as [|col cols IH]; intros [best b] w p Hlim Hinv;
    cbn [for_loop].
  - intros [= <- _]. exact Hinv.
  - rewrite children_min_cons. unfold min_cell at 1.
    destruct (is_valid_move (self w) row col) eqn:Hv.
    + destruct (child a b (place w row col opp)) as [[v w2]|] eqn:Hc;
        [|discriminate].
      pose proof (child_frame _ _ _ _ _ Hc) as Hf.
      pose proof (frame_place_retract _ _ _ _ _ Hv Hf) as Hf3.
      assert (Hb : ext_lt a b = true ->
                   bracket a b (value (assign (self w) row col opp)) v).
      { intros Hab. exact (child_sound a b (place w row col opp) v w2 Hlim Hc Hab). }
      pose proof (min_step a b0 p best b _ v Hwin Hinv Hb) as Hinv'.
      destruct (ext_le (ext_min b v) a) eqn:Hcut.
      * intros [= <- _].
        eapply min_inv_cut; [exact Hcut| |exact Hinv'].
        apply fold_min_below.
      * intros Hrest.
        pose proof (frame_trans _ _ _ Hf3 (frame_bump _)) as [Hsame _].
        rewrite <- (children_min_same opp _ _ _ _ Hsame).
        eapply (IH _ (bump (place w2 row col "."))); [|exact Hinv'|exact Hrest].
        destruct Hsame as (_ & _ & -> & _). exact Hlim.
    + intros Hrest. apply (IH _ _ _ Hlim Hinv Hrest).
Qed.

Lemma max_rows_sound (sym : string) (a0 b : ext) (rows : list Z)
    (s r : ext * ext) (w w' : World) (p : ext) :
  ext_lt a0 b = true ->
  ai_time_limit (self w) = limit ->
  max_inv a0 b p s ->
  for_loop
    (no_break (fun row s1 w1 =>
       for_loop (max_cell child sym b row) (range (board_size (self w1))) s1 w1))
    rows s w = Some (r, w') ->
  max_inv a0 b
    (children_max value sym (self w)
       (list_prod rows (range (board_size (self w)))) p) r.
Proof.
  intros Hwin. revert s w p.
  induction rows as [|row rows IH]; intros s w p Hlim Hinv; cbn [for_loop].
  - intros [= <- _]. exact Hinv.
  - unfold no_break at 1.
    destruct (for_loop (max_cell child sym b row) _ s w) as [[s1 w1]|] eqn:Hrow;
      [|discriminate].
    intros Hrest. rewrite children_max_rows.
    pose proof (max_cols_sound _ _ _ _ _ _ _ _ _ _ Hwin Hlim Hinv Hrow) as Hinv1.
    assert (Hsame : same_game (self w) (self w1)).
    { eapply for_loop_frame; [|exact Hrow].
      intros x s2 w2 r2 w3. apply max_cell_frame, child_frame. }
    pose proof Hsame as (Hsize & _ & Hl & _).
    rewrite <- (children_max_same sym _ _ _ _ Hsame), <- Hsize.
    eapply (IH s1 w1); [congruence| |exact Hrest].
    rewrite Hsize. exact Hinv1.
Qed.

Lemma min_rows_sound (opp : string) (a b0 : ext) (rows : list Z)
    (s r : ext * ext) (w w' : World) (p : ext) :
  ext_lt a b0 = true ->
  ai_time_limit (self w) = limit ->
  min_inv a b0 p s ->
  for_loop
    (no_break (fun row s1 w1 =>
       for_loop (min_cell child opp a row) (range (board_size (self w1))) s1 w1))
    rows s w = Some (r, w') ->
  min_inv a b0
    (children_min value opp (self w)
       (list_prod rows (range (board_size (self w)))) p) r.
Proof.
  intros Hwin. revert s w p.
  induction rows as [|row rows IH]; intros s w p Hlim Hinv; cbn [for_loop].
  - intros [= <- _]. exact Hinv.
  - unfold no_break at 1.
    destruct (for_loop (min_cell child opp a row) _ s w) as [[s1 w1]|] eqn:Hrow;
      [|discriminate].
    intros Hrest. rewrite children_min_rows.
    pose proof (min_cols_sound _ _ _ _ _ _ _ _ _ _ Hwin Hlim Hinv Hrow) as Hinv1.
    assert (Hsame : same_game (self w) (self w1)).
    { eapply for_loop_frame; [|exact Hrow].
      intros x s2 w2 r2 w3. apply min_cell_frame, child_frame. }
    pose proof Hsame as (Hsize & _ & Hl & _).
    rewrite <- (children_min_same opp _ _ _ _ Hsame), <- Hsize.
    eapply (IH s1 w1); [congruence| |exact Hrest].
    rewrite Hsize. exact Hinv1.
Qed.

(** A maximizing node answers for the maximum of the true values of its
    children, whatever its cuts skipped. *)
Lemma max_node_sound (sym : string) (a0 b best a : ext) (w w' : World) :
  ext_lt a0 b = true ->
  ai_time_limit (self w) = limit ->
  scan_rows (max_cell child sym b) (NegInf, a0) w = Some ((best, a), w') ->
  bracket a0 b
    (children_max value sym (self w) (cells (board_size (self w))) NegInf) best.
Proof.
  intros Hwin Hlim Hscan. unfold scan_rows in Hscan.
  apply (max_final a0 b _ best a Hwin).
  apply (max_rows_sound _ _ _ _ _ _ _ _ _ Hwin Hlim (max_init a0 b Hwin) Hscan).
Qed.

Lemma min_node_sound (opp : string) (a b0 best b : ext) (w w' : World) :
  ext_lt a b0 = true ->
  ai_time_limit (self w) = limit ->
  scan_rows (min_cell child opp a) (PosInf, b0) w = Some ((best, b), w') ->
  bracket a b0
    (children_min value opp (self w) (cells (board_size (self w))) PosInf) best.
Proof.
  intros Hwin Hlim Hscan. unfold scan_rows in Hscan.
  apply (min_final a b0 _ best b Hwin).
  apply (min_rows_sound _ _ _ _ _ _ _ _ _ Hwin Hlim (min_init a b0 Hwin) Hscan).
Qed.

End NodeSound.

(** With a clock that never passes the deadline, [minimax] answers for the
    unpruned minimax value of its position in its window. *)
Lemma minimax_sound (clock : nat -> Z) (sym opp : string) (start limit : Z) :
  (forall k, clock k - start <= limit) ->
  forall (fuel d : nat) (alpha beta : ext) (mx : bool) (w : World)
         (v : ext) (w' : World),
    ai_time_limit (self w) = limit ->
    minimax clock fuel (Z.of_nat d) alpha beta mx sym opp start w
      = Some (v, w') ->
    ext_lt alpha beta = true ->
    bracket alpha beta (plain_minimax d mx sym opp (self w)) v.
Proof.
  intros Hclock.
  induction fuel as [|fuel IH]; intros d alpha beta mx w v w' Hlim;
    cbn [minimax]; [discriminate|].
  destruct d as [|d].
  - cbn [Z.of_nat Z.eqb orb]. intros [= <- _] _. apply bracket_exact.
  - replace (Z.of_nat (S d) =? 0) with false by (symmetry; apply Z.eqb_neq; lia).
    cbn [orb plain_minimax].
    destruct (is_full (self w)).
    { intros [= <- _] _. apply bracket_exact. }
    unfold time_time. cbn [self]. rewrite Z.gtb_ltb, Hlim.
    destruct (Z.ltb_spec limit (clock (ticks w) - start)) as [Hlate|_].
    { specialize (Hclock (ticks w)). lia. }
    replace (Z.of_nat (S d) - 1) with (Z.of_nat d) by lia.
    destruct mx.
    + destruct (scan_rows _ _ _) as [[[best a] w2]|] eqn:Hscan; [|discriminate].
      intros [= <- _] Hwin.
      refine (max_node_sound
                (fun a b => minimax clock fuel (Z.of_nat d) a b false sym opp start)
                (plain_minimax d false sym opp) limit _ _ _
                sym alpha beta best a (mkWorld (self w) (S (ticks w))) w2
                Hwin Hlim Hscan).
      * intros a1 b1 w3 v3 w4. apply minimax_frame.
      * intros a1 b1 w3 v3 w4 Hl3 Hc3 Hw3. exact (IH _ _ _ _ _ _ _ Hl3 Hc3 Hw3).
      * intros g g'. apply plain_minimax_same.
    + destruct (scan_rows _ _ _) as [[[best b] w2]|] eqn:Hscan; [|discriminate].
      intros [= <- _] Hwin.
      refine (min_node_sound
                (fun a b => minimax clock fuel (Z.of_nat d) a b true sym opp start)
                (plain_minimax d true sym opp) limit _ _ _
                opp alpha beta best b (mkWorld (self w) (S (ticks w))) w2
                Hwin Hlim Hscan).
      * intros a1 b1 w3 v3 w4. apply minimax_frame.
      * intros a1 b1 w3 v3 w4 Hl3 Hc3 Hw3. exact (IH _ _ _ _ _ _ _ Hl3 Hc3 Hw3).
      * intros g g'. apply plain_minimax_same.
Qed.

Lemma root_scan_same (value : Gomoku -> ext) (mark : string) (g g' : Gomoku)
    (l : list Move) (acc : option Move * ext) :
  (forall g1 g2, same_game g1 g2 -> value g2 = value g1) ->
  same_game g g' ->
  root_scan value mark g' l acc = root_scan value mark g l acc.
Proof.
  intros Hvalue H. unfold root_scan.
  rewrite (List.filter_ext _ (fun m => is_valid_move g (fst m) (snd m)))
    by (intros m; apply is_valid_move_same, H).
  apply fold_left_agree. intros a m. unfold scan_step.
  rewrite (Hvalue _ _ (assign_same g g' (fst m) (snd m) mark H)). reflexivity.
Qed.

Lemma root_scan_cons (value : Gomoku -> ext) (mark : string) (g : Gomoku)
    (row col : Z) (cols : list Z) (acc : option Move * ext) :
  root_scan value mark g (map (pair row) (col :: cols)) acc
  = root_scan value mark g (map (pair row) cols)
      (if is_valid_move g row col
       then scan_step ext_lt (fun m => value (assign g (fst m) (snd m) mark))
              acc (row, col)
       else acc).
Proof.
  unfold root_scan. rewrite filter_valid_row, fold_left_app.
  destruct (is_valid_move g row col); reflexivity.
Qed.

Lemma root_scan_rows (value : Gomoku -> ext) (mark : string) (g : Gomoku)
    (row : Z) (rows cols : list Z) (acc : option Move * ext) :
  root_scan value mark g (list_prod (row :: rows) cols) acc
  = root_scan value mark g (list_prod rows cols)
      (root_scan value mark g (map (pair row) cols) acc).
Proof.
  unfold root_scan. rewrite filter_list_prod_cons, fold_left_app. reflexivity.
Qed.

Section Sweep.

Variable clock : nat -> Z.
Variables sym opp : string.
Variables start limit : Z.
Variable d : nat.

Hypothesis unexpired : forall k, clock k - start <= limit.

Lemma sweep_cols_scan (row : Z) (cols : list Z) (s r : option Move * ext)
    (w w' : World) :
  ai_time_limit (self w) = limit ->
  for_loop (no_break (sweep_cell clock (Z.of_nat (S d)) sym opp start row))
    cols s w = Some (r, w') ->
  r = root_scan (plain_minimax d false sym opp) sym (self w)
        (map (pair row) cols) s.
Proof.
  revert s w. induction cols as [|col cols IH]; intros [cm cs] w Hlim;
    cbn [for_loop].
  - intros [= <- _]. reflexivity.
  - rewrite root_scan_cons. unfold no_break at 1. unfold sweep_cell at 1.
    destruct (is_valid_move (self w) row col) eqn:Hv.
    + replace (Z.of_nat (S d) - 1) with (Z.of_nat d) by lia.
      destruct (minimax _ _ _ _ _ _ _ _ _ _) as [[v w2]|] eqn:Hc; [|discriminate].
      pose proof (minimax_frame _ _ _ _ _ _ _ _ _ _ _ _ Hc) as Hf.
      pose proof (frame_place_retract _ _ _ _ _ Hv Hf) as [Hsame _].
      pose proof (minimax_sound clock sym opp start limit unexpired _ d
                    NegInf PosInf false (place w row col sym) v w2 Hlim Hc
                    eq_refl) as Hb.
      apply bracket_full in Hb. cbn [place self] in Hb.
      assert (Hlim' : ai_time_limit (self (place w2 row col ".")) = limit).
      { destruct Hsame as (_ & _ & -> & _). exact Hlim. }
      unfold scan_step. cbn [fst snd]. rewrite <- Hb.
      destruct (ext_lt cs v); intros Hrest;
        apply (IH _ _ Hlim') in Hrest; rewrite Hrest;
        apply root_scan_same; try exact Hsame;
        intros g1 g2; apply plain_minimax_same.
    + intros Hrest. apply (IH _ _ Hlim Hrest).
Qed.

Lemma sweep_rows_scan (rows : list Z) (s r : option Move * ext)
    (w w' : World) :
  ai_time_limit (self w) = limit ->
  for_loop
    (no_break (fun row s1 w1 =>
       for_loop
         (no_break (sweep_cell clock (Z.of_nat (S d)) sym opp start row))
         (range (board_size (self w1))) s1 w1))
    rows s w = Some (r, w') ->
  r = root_scan (plain_minimax d false sym opp) sym (self w)
        (list_prod rows (range (board_size (self w)))) s.
Proof.
  revert s w. induction rows as [|row rows IH]; intros s w Hlim;
    cbn [for_loop].
  - intros [= <- _]. reflexivity.
  - unfold no_break at 1.
    destruct (for_loop _ (range _) s w) as [[s1 w1]|] eqn:Hrow; [|discriminate].
    intros Hrest. rewrite root_scan_rows.
    pose proof (sweep_cols_scan _ _ _ _ _ _ Hlim Hrow) as Hs1.
    assert (Hsame : same_game (self w) (self w1)).
    { eapply for_loop_frame; [|exact Hrow].
      apply no_break_frame. intros x s2 w2 r2 w3. apply sweep_cell_frame. }
    pose proof Hsame as (Hsize & _ & Hl & _).
    apply IH in Hrest; [|congruence].
    rewrite Hrest, Hsize, Hs1.
    apply root_scan_same; [|exact Hsame].
    intros g1 g2; apply plain_minimax_same.
Qed.

End Sweep.

(** C2: at every depth, for every position and both symbols, when the
    clock never passes the deadline the sweep of [iterative_deepening]
    returns, leaves the board as it found it, and selects the root move
    that unpruned minimax of the same depth selects, the first of the best
    cells in row-major order. *)
Theorem pruned_sweep_selects_unpruned_move (clock : nat -> Z) (depth : nat)
    (sym opp : string) (start : Z) (w : World) :
  wf (self w) -> (1 <= depth)%nat ->
  (forall k, clock k - start <= ai_time_limit (self w)) ->
  exists score w',
    sweep clock (Z.of_nat depth) sym opp start w
      = Some ((unpruned_root_move depth sym opp (self w), score), w') /\
    board (self w') = board (self w).
Proof.
  intros _ Hdepth Hclock. destruct depth as [|d]; [lia|].
  destruct (sweep_total clock (Z.of_nat (S d)) sym opp start w ltac:(lia))
    as [[[m score] w'] Hsweep].
  exists score, w'. split.
  - rewrite Hsweep. do 2 f_equal.
    pose proof (sweep_rows_scan clock sym opp start (ai_time_limit (self w))
                  d Hclock _ _ _ _ _ eq_refl Hsweep) as Hscan.
    unfold unpruned_root_move, valid_moves, cells. cbn [Nat.pred].
    unfold root_scan in Hscan. rewrite <- Hscan. reflexivity.
  - apply sweep_frame in Hsweep. destruct Hsweep as [(_ & _ & _ & Hb) _].
    exact Hb.
Qed.

Lemma pruned_sweep_selects_unpruned_move_witness :
  exists score w',
    sweep (fun _ => 0) 3 "X" "O" 0
      (mkWorld (mkGomoku 3 3 5
                  [["X"; "O"; "."]; ["."; "O"; "."]; ["."; "."; "."]] 0) 0)
      = Some ((unpruned_root_move 3 "X" "O"
                 (mkGomoku 3 3 5
                    [["X"; "O"; "."]; ["."; "O"; "."]; ["."; "."; "."]] 0),
               score), w') /\
    board (self w')
      = [["X"; "O"; "."]; ["."; "O"; "."]; ["."; "."; "."]].
Proof.
  apply (pruned_sweep_selects_unpruned_move (fun _ => 0) 3 "X" "O" 0
           (mkWorld (mkGomoku 3 3 5
                       [["X"; "O"; "."]; ["."; "O"; "."]; ["."; "."; "."]] 0) 0)).
  - split; [reflexivity|]. repeat constructor.
  - lia.
  - intros k. simpl. lia.
Defined.

(** ** Every sweep on a board with a free cell produces a move *)

Lemma wf_same (g g' : Gomoku) : same_game g g' -> wf g -> wf g'.
Proof.
  unfold same_game, wf. intros (-> & _ & _ & ->). tauto.
Qed.

Lemma forallb_false {B : Type} (f : B -> bool) (l : list B) :
  forallb f l = false -> exists x, In x l /\ f x = false.
Proof.
  induction l as [|x l IH]; simpl; [discriminate|].
  destruct (f x) eqn:Hx.
  - intros H. destruct (IH H) as (y & Hy & Hfy). exists y. tauto.
  - intros _. exists x. tauto.
Qed.

(** On a grid of the constructor's shape, a board that is not full has a
    valid move. *)
Lemma not_full_valid (g : Gomoku) :
  wf g -> is_full g = false ->
  exists row col,
    In row (range (board_size g)) /\ In col (range (board_size g)) /\
    is_valid_move g row col = true.
Proof.
  intros [Hlen Hall] Hfull. unfold is_full in Hfull.
  apply forallb_false in Hfull. destruct Hfull as (line & Hline & Hdot).
  apply negb_false_iff, existsb_exists in Hdot.
  destruct Hdot as (s & Hs & Heq). apply String.eqb_eq in Heq. subst s.
  apply list_elem_of_In, list_elem_of_lookup in Hline. destruct Hline as [i Hi].
  apply list_elem_of_In, list_elem_of_lookup in Hs. destruct Hs as [j Hj].
  pose proof (lookup_lt_Some _ _ _ Hi) as Hi'.
  pose proof (lookup_lt_Some _ _ _ Hj) as Hj'.
  rewrite (Forall_lookup_1 _ _ _ _ Hall Hi) in Hj'.
  exists (Z.of_nat i), (Z.of_nat j).
  split; [apply In_range; lia|]. split; [apply In_range; lia|].
  apply is_valid_move_spec. split; [lia|].
  unfold cell. rewrite !Nat2Z.id, Hi, Hj. reflexivity.
Qed.

Lemma finite_max (x y : ext) :
  finite x \/ x = NegInf -> finite y -> finite (ext_max x y).
Proof.
  intros [[a ->]| ->] [b ->].
  - rewrite ext_max_Fin. eexists. reflexivity.
  - eexists. reflexivity.
Qed.

Lemma finite_min (x y : ext) :
  finite x \/ x = PosInf -> finite y -> finite (ext_min x y).
Proof.
  intros [[a ->]| ->] [b ->].
  - rewrite ext_min_Fin. eexists. reflexivity.
  - eexists. reflexivity.
Qed.

(** The scan of a node: the best value stays finite once it is, and becomes
    finite at the first valid cell. *)
Lemma node_cols_finite (cell_body : Z -> ext * ext -> M (ext * ext * bool))
    (init : ext) (cols : list Z) (row : Z) (s r : ext * ext) (w w' : World) :
  (forall col s1 w1 r1 w2,
     cell_body col s1 w1 = Some (r1, w2) -> frame w1 w2) ->
  (forall col s1 w1 r1 brk w2,
     wf (self w1) -> finite (fst s1) \/ fst s1 = init ->
     cell_body col s1 w1 = Some ((r1, brk), w2) ->
     if is_valid_move (self w1) row col then finite (fst r1)
     else r1 = s1 /\ brk = false) ->
  wf (self w) -> finite (fst s) \/ fst s = init ->
  for_loop cell_body cols s w = Some (r, w') ->
  (finite (fst s) -> finite (fst r)) /\
  (finite (fst r) \/ fst r = init) /\
  ((exists col, In col cols /\ is_valid_move (self w) row col = true) ->
   finite (fst r)).
Proof.
  intros Hframe Hbody. revert s w.
  induction cols as [|col cols IH]; intros s w Hwf Hs; cbn [for_loop].
  - intros [= <- _]. split; [tauto|]. split; [exact Hs|].
    intros (col & [] & _).
  - destruct (cell_body col s w) as [[[s1 brk] w1]|] eqn:Hb; [|discriminate].
    destruct (Hframe _ _ _ _ _ Hb) as [Hsame _].
    pose proof (Hbody _ _ _ _ _ _ Hwf Hs Hb) as Hcell.
    destruct (is_valid_move (self w) row col) eqn:Hv.
    + destruct brk.
      * intros [= <- _]. tauto.
      * intros Hrest.
        destruct (IH _ _ (wf_same _ _ Hsame Hwf) (or_introl Hcell) Hrest)
          as (H1 & H2 & H3).
        specialize (H1 Hcell). tauto.
    + destruct Hcell as [-> ->]. intros Hrest.
      destruct (IH _ _ (wf_same _ _ Hsame Hwf) Hs Hrest) as (H1 & H2 & H3).
      split; [exact H1|]. split; [exact H2|].
      intros (c & [<-|Hin] & Hc).
      * congruence.
      * apply H3. exists c. split; [exact Hin|].
        rewrite (is_valid_move_same _ _ _ _ Hsame). exact Hc.
Qed.

Lemma node_rows_finite
    (cell_body : Z -> Z -> ext * ext -> M (ext * ext * bool))
    (init : ext) (rows : list Z) (s r : ext * ext) (w w' : World) :
  (forall row col s1 w1 r1 w2,
     cell_body row col s1 w1 = Some (r1, w2) -> frame w1 w2) ->
  (forall row col s1 w1 r1 brk w2,
     wf (self w1) -> finite (fst s1) \/ fst s1 = init ->
     cell_body row col s1 w1 = Some ((r1, brk), w2) ->
     if is_valid_move (self w1) row col then finite (fst r1)
     else r1 = s1 /\ brk = false) ->
  wf (self w) -> finite (fst s) \/ fst s = init ->
  for_loop
    (no_break (fun row s1 w1 =>
       for_loop (cell_body row) (range (board_size (self w1))) s1 w1))
    rows s w = Some (r, w') ->
  (finite (fst s) -> finite (fst r)) /\
  (finite (fst r) \/ fst r = init) /\
  ((exists row col, In row rows /\ In col (range (board_size (self w))) /\
                    is_valid_move (self w) row col = true) ->
   finite (fst r)).
Proof.
  intros Hframe Hbody. revert s w.
  induction rows as [|row rows IH]; intros s w Hwf Hs; cbn [for_loop].
  - intros [= <- _]. split; [tauto|]. split; [exact Hs|].
    intros (row & col & [] & _).
  - unfold no_break at 1.
    destruct (for_loop (cell_body row) _ s w) as [[s1 w1]|] eqn:Hrow;
      [|discriminate].
    intros Hrest.
    destruct (node_cols_finite (cell_body row) init _ row _ _ _ _
                (Hframe row) (Hbody row) Hwf Hs Hrow) as (H1 & H2 & H3).
    assert (Hsame : same_game (self w) (self w1)).
    { eapply for_loop_frame; [|exact Hrow]. apply Hframe. }
    destruct (IH _ _ (wf_same _ _ Hsame Hwf) H2 Hrest) as (H4 & H5 & H6).
    split; [tauto|]. split; [exact H5|].
    intros (r0 & c0 & [<-|Hin] & Hc0 & Hv0).
    + apply H4, H3. exists c0. tauto.
    + apply H6. exists r0, c0. split; [exact Hin|].
      pose proof Hsame as (Hsize & _). rewrite Hsize.
      split; [exact Hc0|].
      rewrite (is_valid_move_same _ _ _ _ Hsame). exact Hv0.
Qed.

Lemma max_cell_finite (child : ext -> ext -> M ext) (sym : string)
    (beta : ext) (row col : Z) (s r : ext * ext) (brk : bool) (w w' : World) :
  (forall a b w1 v w2, wf (self w1) -> child a b w1 = Some (v, w2) -> finite v) ->
  wf (self w) -> finite (fst s) \/ fst s = NegInf ->
  max_cell child sym beta row col s w = Some ((r, brk), w') ->
  if is_valid_move (self w) row col then finite (fst r)
  else r = s /\ brk = false.
Proof.
  intros Hchild Hwf Hs. unfold max_cell. destruct s as [best alpha].
  destruct (is_valid_move (self w) row col).
  - destruct (child alpha beta (place w row col sym)) as [[v w2]|] eqn:Hc;
      [|discriminate].
    apply Hchild in Hc; [|apply wf_assign, Hwf].
    destruct (ext_le beta (ext_max alpha v)); intros [= <- _ _];
      apply finite_max; assumption.
  - intros [= <- <- _]. tauto.
Qed.

Lemma min_cell_finite (child : ext -> ext -> M ext) (opp : string)
    (alpha : ext) (row col : Z) (s r : ext * ext) (brk : bool) (w w' : World) :
  (forall a b w1 v w2, wf (self w1) -> child a b w1 = Some (v, w2) -> finite v) ->
  wf (self w) -> finite (fst s) \/ fst s = PosInf ->
  min_cell child opp alpha row col s w = Some ((r, brk), w') ->
  if is_valid_move (self w) row col then finite (fst r)
  else r = s /\ brk = false.
Proof.
  intros Hchild Hwf Hs. unfold min_cell. destruct s as [best beta].
  destruct (is_valid_move (self w) row col).
  - destruct (child alpha beta (place w row col opp)) as [[v w2]|] eqn:Hc;
      [|discriminate].
    apply Hchild in Hc; [|apply wf_assign, Hwf].
    destruct (ext_le (ext_min beta v) alpha); intros [= <- _ _];
      apply finite_min; assumption.
  - intros [= <- <- _]. tauto.
Qed.

(** On a grid of the constructor's shape [minimax] returns an integer. *)
Lemma minimax_finite (clock : nat -> Z) (fuel : nat) (depth : Z)
    (alpha beta : ext) (mx : bool) (sym opp : string) (start : Z)
    (w : World) (v : ext) (w' : World) :
  wf (self w) ->
  minimax clock fuel depth alpha beta mx sym opp start w = Some (v, w') ->
  finite v.
Proof.
  revert depth alpha beta mx w v w'.
  induction fuel as [|fuel IH]; intros depth alpha beta mx w v w' Hwf;
    cbn [minimax]; [discriminate|].
  destruct (depth =? 0); cbn [orb].
  { intros [= <- _]. eexists. reflexivity. }
  destruct (is_full (self w)) eqn:Hfull.
  { intros [= <- _]. eexists. reflexivity. }
  unfold time_time. cbn [self].
  destruct (clock (ticks w) - start >? ai_time_limit (self w)).
  { intros [= <- _]. eexists. reflexivity. }
  destruct (not_full_valid _ Hwf Hfull) as (row & col & Hrow & Hcol & Hv).
  destruct mx.
  - destruct (scan_rows _ _ _) as [[[best a] w2]|] eqn:Hscan; [|discriminate].
    intros [= <- _]. unfold scan_rows in Hscan.
    eapply (node_rows_finite _ NegInf _ _ (best, a)) in Hscan.
    + destruct Hscan as (_ & _ & H3). apply H3. exists row, col. tauto.
    + intros r0 c0 s1 w1 r1 w3. apply max_cell_frame.
      intros a0 b0 w4 v0 w5. apply minimax_frame.
    + intros r0 c0 s1 w1 r1 brk w3. apply max_cell_finite.
      intros a0 b0 w4 v0 w5 Hwf4. apply IH, Hwf4.
    + exact Hwf.
    + right. reflexivity.
  - destruct (scan_rows _ _ _) as [[[best b] w2]|] eqn:Hscan; [|discriminate].
    intros [= <- _]. unfold scan_rows in Hscan.
    eapply (node_rows_finite _ PosInf _ _ (best, b)) in Hscan.
    + destruct Hscan as (_ & _ & H3). apply H3. exists row, col. tauto.
    + intros r0 c0 s1 w1 r1 w3. apply min_cell_frame.
      intros a0 b0 w4 v0 w5. apply minimax_frame.
    + intros r0 c0 s1 w1 r1 brk w3. apply min_cell_finite.
      intros a0 b0 w4 v0 w5 Hwf4. apply IH, Hwf4.
    + exact Hwf.
    + right. reflexivity.
Qed.

(** The root scan keeps a candidate once it has one, and takes the first
    valid cell as its first candidate. *)
Lemma sweep_cols_some (clock : nat -> Z) (depth : Z) (sym opp : string)
    (start row : Z) (cols : list Z) (s r : option Move * ext) (w w' : World) :
  wf (self w) -> (fst s = None -> snd s = NegInf) ->
  for_loop (no_break (sweep_cell clock depth sym opp start row)) cols s w
    = Some (r, w') ->
  (fst r = None -> snd r = NegInf) /\
  (is_Some (fst s) -> is_Some (fst r)) /\
  ((exists col, In col cols /\ is_valid_move (self w) row col = true) ->
   is_Some (fst r)).
Proof.
  revert s w. induction cols as [|col cols IH]; intros [cm cs] w Hwf Hs;
    cbn [for_loop].
  - intros [= <- _]. split; [exact Hs|]. split; [tauto|].
    intros (col & [] & _).
  - unfold no_break at 1. unfold sweep_cell at 1.
    destruct (is_valid_move (self w) row col) eqn:Hv.
    + destruct (minimax _ _ _ _ _ _ _ _ _ _) as [[v w2]|] eqn:Hc; [|discriminate].
      pose proof (minimax_frame _ _ _ _ _ _ _ _ _ _ _ _ Hc) as Hf.
      pose proof (frame_place_retract _ _ _ _ _ Hv Hf) as [Hsame _].
      apply minimax_finite in Hc; [|apply wf_assign, Hwf].
      destruct Hc as [z ->]. cbn [fst snd] in Hs.
      destruct (ext_lt cs (Fin z)) eqn:Hlt; intros Hrest.
      * apply IH in Hrest; [|apply (wf_same _ _ Hsame Hwf)|discriminate].
        destruct Hrest as (H1 & H2 & H3). cbn [fst] in H2.
        split; [exact H1|]. split; intros _; apply H2; eexists; reflexivity.
      * assert (Hcm : is_Some cm).
        { destruct cm; [eexists; reflexivity|].
          rewrite (Hs eq_refl) in Hlt. discriminate. }
        apply IH in Hrest; [|apply (wf_same _ _ Hsame Hwf)|exact Hs].
        destruct Hrest as (H1 & H2 & H3). cbn [fst] in H2.
        split; [exact H1|]. split; intros _; apply H2, Hcm.
    + intros Hrest. apply IH in Hrest; [|exact Hwf|exact Hs].
      destruct Hrest as (H1 & H2 & H3).
      split; [exact H1|]. split; [exact H2|].
      intros (c & [<-|Hin] & Hc); [congruence|].
      apply H3. exists c. tauto.
Qed.

Lemma sweep_rows_some (clock : nat -> Z) (depth : Z) (sym opp : string)
    (start : Z) (rows : list Z) (s r : option Move * ext) (w w' : World) :
  wf (self w) -> (fst s = None -> snd s = NegInf) ->
  for_loop
    (no_break (fun row s1 w1 =>
       for_loop (no_break (sweep_cell clock depth sym opp start row))
         (range (board_size (self w1))) s1 w1))
    rows s w = Some (r, w') ->
  (fst r = None -> snd r = NegInf) /\
  (is_Some (fst s) -> is_Some (fst r)) /\
  ((exists row col, In row rows /\ In col (range (board_size (self w))) /\
                    is_valid_move (self w) row col = true) ->
   is_Some (fst r)).
Proof.
  revert s w. induction rows as [|row rows IH]; intros s w Hwf Hs;
    cbn [for_loop].
  - intros [= <- _]. split; [exact Hs|]. split; [tauto|].
    intros (row & col & [] & _).
  - unfold no_break at 1.
    destruct (for_loop _ (range _) s w) as [[s1 w1]|] eqn:Hrow; [|discriminate].
    intros Hrest.
    destruct (sweep_cols_some _ _ _ _ _ _ _ _ _ _ _ Hwf Hs Hrow)
      as (H1 & H2 & H3).
    assert (Hsame : same_game (self w) (self w1)).
    { eapply for_loop_frame; [|exact Hrow].
      apply no_break_frame. intros x s2 w2 r2 w3. apply sweep_cell_frame. }
    apply IH in Hrest; [|apply (wf_same _ _ Hsame Hwf)|exact H1].
    destruct Hrest as (H4 & H5 & H6).
    split; [exact H4|]. split; [tauto|].
    intros (r0 & c0 & [<-|Hin] & Hc0 & Hv0).
    + apply H5, H3. exists c0. tauto.
    + apply H6. exists r0, c0. split; [exact Hin|].
      pose proof Hsame as (Hsize & _). rewrite Hsize.
      split; [exact Hc0|].
      rewrite (is_valid_move_same _ _ _ _ Hsame). exact Hv0.
Qed.

Lemma sweep_some (clock : nat -> Z) (depth : Z) (sym opp : string)
    (start : Z) (r : option Move * ext) (w w' : World) :
  wf (self w) -> valid_moves (self w) <> [] ->
  sweep clock depth sym opp start w = Some (r, w') ->
  is_Some (fst r).
Proof.
  intros Hwf Hne Hsweep. unfold sweep in Hsweep.
  apply sweep_rows_some in Hsweep; [|exact Hwf|reflexivity].
  destruct Hsweep as (_ & _ & H). apply H.
  destruct (valid_moves (self w)) as [|[row col] l] eqn:Hl; [congruence|].
  assert (Hin : In (row, col) (valid_moves (self w))) by (rewrite Hl; left; reflexivity).
  unfold valid_moves, cells in Hin. apply filter_In in Hin as [Hin Hv].
  apply in_prod_iff in Hin as [Hr Hc].
  exists row, col. tauto.
Qed.

(** ** The strategies and the search give the board back *)

(** C10: [greedy_ai], [worst_ai], [minimax] and [iterative_deepening] return
    with the board equal to the board at entry, the cut of alpha-beta
    included: every placement is retracted before the cut is tested.  The
    one-ply scans always return; [minimax] returns with fuel above a
    non-negative depth, and [iterative_deepening] once the clock is past
    the deadline at every reading from the [n]-th on. *)
Theorem search_leaves_board_unchanged :
  (forall (g : Gomoku) (sym : string),
     wf g -> snd (greedy_ai g sym) = g) /\
  (forall (g : Gomoku) (opponent_symbol : string),
     wf g -> snd (worst_ai g opponent_symbol) = g) /\
  (forall (clock : nat -> Z) (fuel : nat) (depth : Z) (alpha beta : ext)
          (mx : bool) (sym opp : string) (start : Z) (w : World),
     wf (self w) ->
     (forall v w',
        minimax clock fuel depth alpha beta mx sym opp start w = Some (v, w') ->
        board (self w') = board (self w)) /\
     (0 <= depth < Z.of_nat fuel ->
      is_Some (minimax clock fuel depth alpha beta mx sym opp start w))) /\
  (forall (clock : nat -> Z) (n : nat) (sym opp : string) (w : World),
     wf (self w) ->
     (forall m w',
        iterative_deepening clock n sym opp w = Some (m, w') ->
        board (self w') = board (self w)) /\
     ((1 <= n)%nat ->
      (forall k, (ticks w + n <= k)%nat ->
         ai_time_limit (self w) <= clock k - clock (ticks w)) ->
      is_Some (iterative_deepening clock n sym opp w))).
Proof.
  split; [|split; [|split]].
  - intros g sym _. rewrite greedy_ai_scan. reflexivity.
  - intros g opp _. rewrite worst_ai_scan. reflexivity.
  - intros clock fuel depth alpha beta mx sym opp start w _. split.
    + intros v w' H. apply minimax_frame in H.
      destruct H as [(_ & _ & _ & Hb) _]. exact Hb.
    + apply minimax_total.
  - intros clock n sym opp w _. split.
    + intros m w' H. apply iterative_deepening_frame in H.
      destruct H as [(_ & _ & _ & Hb) _]. exact Hb.
    + apply iterative_deepening_total.
Qed.

Lemma search_leaves_board_unchanged_witness :
  snd (greedy_ai (init 3 3 2) "X") = init 3 3 2 /\
  snd (worst_ai (init 3 3 2) "O") = init 3 3 2 /\
  is_Some (minimax (fun _ => 0) 3 2 NegInf PosInf true "X" "O" 0
             (mkWorld (init 3 3 2) 0)) /\
  is_Some (iterative_deepening Z.of_nat 3 "X" "O" (mkWorld (init 3 3 2) 0)).
Proof.
  destruct search_leaves_board_unchanged as (Hg & Hw & Hm & Hi).
  split; [apply Hg, wf_init|]. split; [apply Hw, wf_init|]. split.
  - apply Hm; [apply wf_init|]. lia.
  - apply Hi; [apply wf_init|lia|].
    cbn [ticks self init ai_time_limit]. intros k Hk. lia.
Defined.

(** ** The node counter *)

Lemma counted_nil : counted [] = 0.
Proof. reflexivity. Qed.

Lemma counted_cons (x : Visit) (vs : list Visit) :
  counted (x :: vs) = below x + (if cuts x then 0 else 1) + counted vs.
Proof.
  unfold counted. cbn [map sumZ fold_right List.filter].
  destruct (cuts x); cbn [negb length]; unfold sumZ; lia.
Qed.

Lemma counted_app (vs1 vs2 : list Visit) :
  counted (vs1 ++ vs2) = counted vs1 + counted vs2.
Proof.
  induction vs1 as [|x vs1 IH]; [rewrite counted_nil; reflexivity|].
  cbn [app]. rewrite !counted_cons, IH. lia.
Qed.

(** The visits do not depend on the counter. *)
Lemma row_visits_agree (call call' : ext * ext -> Move -> nat -> ext * Z * nat)
    (test : ext * ext -> ext -> ext * ext * bool) (g g' : Gomoku) (row : Z)
    (cols : list Z) :
  same_game g g' -> (forall s m t, call' s m t = call s m t) ->
  forall s t,
    row_visits call' test g' row cols s t = row_visits call test g row cols s t.
Proof.
  intros Hsame Hcall. induction cols as [|col cols IH]; intros s t;
    cbn [row_visits]; [reflexivity|].
  rewrite (is_valid_move_same _ _ row col Hsame).
  destruct (is_valid_move g row col); [|apply IH].
  rewrite Hcall. destruct (call s (row, col) t) as [[v c] t1].
  destruct (test s v) as [s1 brk]. destruct brk; [reflexivity|].
  rewrite IH. reflexivity.
Qed.

Lemma node_visits_agree (call call' : ext * ext -> Move -> nat -> ext * Z * nat)
    (test : ext * ext -> ext -> ext * ext * bool) (g g' : Gomoku)
    (rows : list Z) (s : ext * ext) (t : nat) :
  same_game g g' -> (forall s0 m t0, call' s0 m t0 = call s0 m t0) ->
  node_visits call' test g' rows s t = node_visits call test g rows s t.
Proof.
  intros Hsame Hcall. unfold node_visits. apply fold_left_agree.
  intros [[s0 vs0] t0] row. destruct Hsame as (Hsize & Hrest).
  rewrite Hsize.
  rewrite (row_visits_agree call call' test g g' row _
             (conj Hsize Hrest) Hcall).
  reflexivity.
Qed.

Lemma explore_same (clock : nat -> Z) (sym opp : string) (start : Z)
    (d : nat) (mx : bool) (alpha beta : ext) (g g' : Gomoku) (t : nat) :
  same_game g g' ->
  explore clock sym opp start d mx alpha beta g' t
  = explore clock sym opp start d mx alpha beta g t.
Proof.
  revert mx alpha beta g g' t.
  induction d as [|d IH]; intros mx alpha beta g g' t Hsame; cbn [explore].
  - rewrite (evaluate_board_same _ _ sym Hsame). reflexivity.
  - rewrite (is_full_same _ _ Hsame), (evaluate_board_same _ _ sym Hsame).
    pose proof Hsame as (Hsize & _ & Hlimit & _). rewrite Hlimit, Hsize.
    destruct (is_full g); [reflexivity|].
    destruct (clock t - start >? ai_time_limit g); [reflexivity|].
    destruct mx.
    + erewrite node_visits_agree; [reflexivity|exact Hsame|].
      intros s0 m t0. cbv beta.
      rewrite (IH false (snd s0) beta (assign g (fst m) (snd m) sym)
                 (assign g' (fst m) (snd m) sym) t0 (assign_same _ _ _ _ _ Hsame)).
      reflexivity.
    + erewrite node_visits_agree; [reflexivity|exact Hsame|].
      intros s0 m t0. cbv beta.
      rewrite (IH true alpha (snd s0) (assign g (fst m) (snd m) opp)
                 (assign g' (fst m) (snd m) opp) t0 (assign_same _ _ _ _ _ Hsame)).
      reflexivity.
Qed.

Lemma same_place_retract (w w2 : World) (row col : Z) (s : string) :
  is_valid_move (self w) row col = true ->
  same_game (self (place w row col s)) (self w2) ->
  same_game (self w) (self (place w2 row col ".")).
Proof.
  intros Hv Hs.
  apply (assign_same _ _ row col ".") in Hs. simpl in Hs.
  fold (retract (assign (self w) row col s) row col) in Hs.
  rewrite (retract_assign _ _ _ _ Hv) in Hs. exact Hs.
Qed.

(** The scan of a row, cell by cell, against its visits. *)
Section RowRun.

Variable cell_body : Z -> ext * ext -> M (ext * ext * bool).
Variable call : ext * ext -> Move -> nat -> ext * Z * nat.
Variable test : ext * ext -> ext -> ext * ext * bool.
Variable g : Gomoku.
Variable row : Z.

Hypothesis cell_run :
  forall col s w1, same_game g (self w1) ->
    if is_valid_move g row col then
      forall v c t1, call s (row, col) (ticks w1) = (v, c, t1) ->
        exists w2,
          cell_body col s w1 = Some (test s v, w2) /\
          same_game g (self w2) /\ ticks w2 = t1 /\
          nodes_expanded (self w2)
          = nodes_expanded (self w1) + c + (if snd (test s v) then 0 else 1)
    else cell_body col s w1 = Some ((s, false), w1).

Lemma row_visits_run (cols : list Z) (s : ext * ext) (w1 : World)
    (s' : ext * ext) (vs : list Visit) (t' : nat) :
  same_game g (self w1) ->
  row_visits call test g row cols s (ticks w1) = (s', vs, t') ->
  exists w',
    for_loop cell_body cols s w1 = Some (s', w') /\
    same_game g (self w') /\ ticks w' = t' /\
    nodes_expanded (self w') = nodes_expanded (self w1) + counted vs.
Proof.
  revert s w1 s' vs t'.
  induction cols as [|col cols IH]; intros s w1 s' vs t' Hsame;
    cbn [row_visits for_loop].
  - intros [= <- <- <-]. exists w1. rewrite counted_nil.
    split; [reflexivity|]. split; [exact Hsame|]. split; [reflexivity|lia].
  - pose proof (cell_run col s w1 Hsame) as Hcell.
    destruct (is_valid_move g row col).
    + destruct (call s (row, col) (ticks w1)) as [[v c] t1] eqn:Hcall.
      destruct (Hcell v c t1 eq_refl) as (w2 & -> & Hsame2 & Ht2 & Hn2).
      destruct (test s v) as [s1 brk]. cbn [snd] in Hn2. destruct brk.
      * intros [= <- <- <-]. exists w2. rewrite counted_cons, counted_nil.
        cbn [below cuts].
        split; [reflexivity|]. split; [exact Hsame2|].
        split; [exact Ht2|lia].
      * destruct (row_visits call test g row cols s1 t1) as [[s2 vs2] t2]
          eqn:Hrest.
        intros [= <- <- <-]. rewrite <- Ht2 in Hrest.
        destruct (IH _ _ _ _ _ Hsame2 Hrest) as (w' & Hrun & Hsame' & Ht' & Hn').
        exists w'. rewrite counted_cons. cbn [below cuts].
        split; [exact Hrun|]. split; [exact Hsame'|].
        split; [exact Ht'|lia].
    + rewrite Hcell. apply IH, Hsame.
Qed.

End RowRun.

(** The scan of a node, row by row, against its visits. *)
Lemma node_visits_run
    (cell_body : Z -> Z -> ext * ext -> M (ext * ext * bool))
    (call : ext * ext -> Move -> nat -> ext * Z * nat)
    (test : ext * ext -> ext -> ext * ext * bool) (g : Gomoku) :
  (forall row col s w1, same_game g (self w1) ->
     if is_valid_move g row col then
       forall v c t1, call s (row, col) (ticks w1) = (v, c, t1) ->
         exists w2,
           cell_body row col s w1 = Some (test s v, w2) /\
           same_game g (self w2) /\ ticks w2 = t1 /\
           nodes_expanded (self w2)
           = nodes_expanded (self w1) + c + (if snd (test s v) then 0 else 1)
     else cell_body row col s w1 = Some ((s, false), w1)) ->
  forall (rows : list Z) (s : ext * ext) (w1 : World) (vs0 : list Visit)
         (s' : ext * ext) (vs : list Visit) (t' : nat),
    same_game g (self w1) ->
    fold_left
      (fun acc row =>
         let '(s0, vs1, t0) := acc in
         let '(s1, vs2, t1) :=
           row_visits call test g row (range (board_size g)) s0 t0 in
         (s1, vs1 ++ vs2, t1))
      rows (s, vs0, ticks w1) = (s', vs, t') ->
    exists w' vs1,
      for_loop
        (no_break (fun row s0 w0 =>
           for_loop (cell_body row) (range (board_size (self w0))) s0 w0))
        rows s w1 = Some (s', w') /\
      vs = vs0 ++ vs1 /\
      same_game g (self w') /\ ticks w' = t' /\
      nodes_expanded (self w') = nodes_expanded (self w1) + counted vs1.
Proof.
  intros Hcell rows.
  induction rows as [|row rows IH]; intros s w1 vs0 s' vs t' Hsame;
    cbn [fold_left for_loop].
  - intros [= <- <- <-]. exists w1, []. rewrite counted_nil, app_nil_r.
    split; [reflexivity|]. split; [reflexivity|]. split; [exact Hsame|].
    split; [reflexivity|lia].
  - destruct (row_visits call test g row (range (board_size g)) s (ticks w1))
      as [[s1 vs2] t1] eqn:Hrow.
    intros Hrest. unfold no_break at 1.
    pose proof Hsame as (Hsize & _). rewrite Hsize.
    destruct (row_visits_run (cell_body row) call test g row (Hcell row)
                _ _ _ _ _ _ Hsame Hrow) as (w2 & -> & Hsame2 & Ht2 & Hn2).
    rewrite <- Ht2 in Hrest.
    destruct (IH _ _ _ _ _ _ Hsame2 Hrest)
      as (w' & vs1 & Hrun & Hvs & Hsame' & Ht' & Hn').
    exists w', (vs2 ++ vs1). rewrite counted_app, app_assoc.
    split; [exact Hrun|]. split; [exact Hvs|]. split; [exact Hsame'|].
    split; [exact Ht'|lia].
Qed.

Lemma minimax_step (clock : nat -> Z) (fuel : nat) (depth : Z)
    (alpha beta : ext) (mx : bool) (sym opp : string) (start : Z) (w : World) :
  minimax clock (S fuel) depth alpha beta mx sym opp start w
  = if (depth =? 0) || is_full (self w)
    then Some (Fin (evaluate_board (self w) sym), w)
    else
      let (now, w1) := time_time clock w in
      if now - start >? ai_time_limit (self w1)
      then Some (Fin (evaluate_board (self w1) sym), w1)
      else if mx then
        match scan_rows
                (max_cell (fun a b => minimax clock fuel (depth - 1) a b false
                                        sym opp start)
                   sym beta)
                (NegInf, alpha) w1 with
        | None => None
        | Some ((best_value, _), w2) => Some (best_value, w2)
        end
      else
        match scan_rows
                (min_cell (fun a b => minimax clock fuel (depth - 1) a b true
                                        sym opp start)
                   opp alpha)
                (PosInf, beta) w1 with
        | None => None
        | Some ((best_value, _), w2) => Some (best_value, w2)
        end.
Proof. reflexivity. Qed.

(** A call of [minimax] returns the value of [explore], after the readings
    of [explore], having added to the counter what its visits count. *)
Lemma minimax_explore (clock : nat -> Z) (sym opp : string) (start : Z)
    (d : nat) :
  forall (fuel : nat) (alpha beta : ext) (mx : bool) (w : World)
         (v : ext) (vs : list Visit) (t' : nat),
    (d < fuel)%nat ->
    explore clock sym opp start d mx alpha beta (self w) (ticks w)
      = (v, vs, t') ->
    exists w',
      minimax clock fuel (Z.of_nat d) alpha beta mx sym opp start w
        = Some (v, w') /\
      same_game (self w) (self w') /\ ticks w' = t' /\
      nodes_expanded (self w') = nodes_expanded (self w) + counted vs.
Proof.
  induction d as [|d IH]; intros fuel alpha beta mx w v vs t' Hfuel;
    (destruct fuel as [|fuel]; [lia|]); rewrite minimax_step; cbn [explore].
  - intros [= <- <- <-]. change (Z.of_nat 0 =? 0) with true. cbn [orb].
    exists w. rewrite counted_nil.
    split; [reflexivity|]. split; [apply same_game_refl|].
    split; [reflexivity|lia].
  - replace (Z.of_nat (S d) =? 0) with false by (symmetry; apply Z.eqb_neq; lia).
    replace (Z.of_nat (S d) - 1) with (Z.of_nat d) by lia.
    cbn [orb]. destruct (is_full (self w)).
    { intros [= <- <- <-]. exists w. rewrite counted_nil.
      split; [reflexivity|]. split; [apply same_game_refl|].
      split; [reflexivity|lia]. }
    unfold time_time. cbn [self].
    destruct (clock (ticks w) - start >? ai_time_limit (self w)).
    { intros [= <- <- <-]. eexists. rewrite counted_nil.
      split; [reflexivity|]. split; [apply same_game_refl|].
      split; [reflexivity|cbn [self]; lia]. }
    destruct mx.
    + destruct (node_visits _ _ _ _ _ _) as [[s vs1] t1] eqn:Hnode.
      intros [= <- <- <-]. unfold node_visits in Hnode. unfold scan_rows.
      cbn [self].
      pose proof (fun Hc Hs =>
                    node_visits_run
                      (max_cell (fun a b => minimax clock fuel (Z.of_nat d) a b
                                              false sym opp start) sym beta)
                      _ _ (self w) Hc _ _ (mkWorld (self w) (S (ticks w)))
                      _ _ _ _ Hs Hnode) as Hnv.
      edestruct Hnv as (w' & vs2 & Hrun & Hvs & Hsame' & Ht' & Hn').
      * intros row col [best a] w1 Hsame1. unfold max_cell.
        rewrite (is_valid_move_same _ _ row col Hsame1).
        destruct (is_valid_move (self w) row col) eqn:Hv; [|reflexivity].
        intros v0 c t2. cbn [fst snd].
        destruct (explore clock sym opp start d false a beta
                    (assign (self w) row col sym) (ticks w1))
          as [[v1 sub] t3] eqn:Hsub.
        intros [= <- <- <-].
        rewrite <- (explore_same clock sym opp start d false a beta _
                      (self (place w1 row col sym)) (ticks w1)
                      (assign_same _ _ row col sym Hsame1)) in Hsub.
        destruct (IH fuel a beta false (place w1 row col sym) _ _ _
                    ltac:(lia) Hsub) as (w2 & -> & Hsame2 & Ht2 & Hn2).
        rewrite <- (is_valid_move_same _ _ row col Hsame1) in Hv.
        pose proof (same_place_retract _ _ _ _ _ Hv Hsame2) as Hsame3.
        cbn [place self ticks nodes_expanded assign with_board] in Hn2, Ht2.
        destruct (ext_le beta (ext_max a v1)); eexists;
          (split; [reflexivity|]);
          (split; [|split; [exact Ht2|cbn; lia]]).
        -- exact (same_game_trans _ _ _ Hsame1 Hsame3).
        -- eapply same_game_trans; [exact Hsame1|].
           eapply same_game_trans; [exact Hsame3|]. apply frame_bump.
      * apply same_game_refl.
      * rewrite Hrun. exists w'. cbn [app] in Hvs. subst vs2.
        destruct s as [best a]. cbn [fst self ticks] in *.
        split; [reflexivity|]. split; [exact Hsame'|].
        split; [exact Ht'|exact Hn'].
    + destruct (node_visits _ _ _ _ _ _) as [[s vs1] t1] eqn:Hnode.
      intros [= <- <- <-]. unfold node_visits in Hnode. unfold scan_rows.
      cbn [self].
      pose proof (fun Hc Hs =>
                    node_visits_run
                      (min_cell (fun a b => minimax clock fuel (Z.of_nat d) a b
                                              true sym opp start) opp alpha)
                      _ _ (self w) Hc _ _ (mkWorld (self w) (S (ticks w)))
                      _ _ _ _ Hs Hnode) as Hnv.
      edestruct Hnv as (w' & vs2 & Hrun & Hvs & Hsame' & Ht' & Hn').
      * intros row col [best b] w1 Hsame1. unfold min_cell.
        rewrite (is_valid_move_same _ _ row col Hsame1).
        destruct (is_valid_move (self w) row col) eqn:Hv; [|reflexivity].
        intros v0 c t2. cbn [fst snd].
        destruct (explore clock sym opp start d true alpha b
                    (assign (self w) row col opp) (ticks w1))
          as [[v1 sub] t3] eqn:Hsub.
        intros [= <- <- <-].
        rewrite <- (explore_same clock sym opp start d true alpha b _
                      (self (place w1 row col opp)) (ticks w1)
                      (assign_same _ _ row col opp Hsame1)) in Hsub.
        destruct (IH fuel alpha b true (place w1 row col opp) _ _ _
                    ltac:(lia) Hsub) as (w2 & -> & Hsame2 & Ht2 & Hn2).
        rewrite <- (is_valid_move_same _ _ row col Hsame1) in Hv.
        pose proof (same_place_retract _ _ _ _ _ Hv Hsame2) as Hsame3.
        cbn [place self ticks nodes_expanded assign with_board] in Hn2, Ht2.
        destruct (ext_le (ext_min b v1) alpha); eexists;
          (split; [reflexivity|]);
          (split; [|split; [exact Ht2|cbn; lia]]).
        -- exact (same_game_trans _ _ _ Hsame1 Hsame3).
        -- eapply same_game_trans; [exact Hsame1|].
           eapply same_game_trans; [exact Hsame3|]. apply frame_bump.
      * apply same_game_refl.
      * rewrite Hrun. exists w'. cbn [app] in Hvs. subst vs2.
        destruct s as [best b]. cbn [fst self ticks] in *.
        split; [reflexivity|]. split; [exact Hsame'|].
        split; [exact Ht'|exact Hn'].
Qed.

(** C3, as the code has it: a call of [minimax], of either kind, at any
    depth and on any clock, returns when the fuel exceeds the depth, and
    what it adds to [nodes_expanded] is what its visits count: what the
    calls below its cells added, and one for each valid cell visited whose
    value does not trigger the cut.  The increment comes after the test
    [beta <= alpha], so the cell that cuts is visited, its call below is
    made and counted for what it adds, but the cell itself is not counted;
    a call that is terminal (depth 0, full board, deadline passed) counts
    nothing. *)
Theorem minimax_counts_uncut_visits (clock : nat -> Z) (fuel d : nat)
    (alpha beta : ext) (mx : bool) (sym opp : string) (start : Z)
    (w : World) (v : ext) (vs : list Visit) (t' : nat) :
  (d < fuel)%nat ->
  explore clock sym opp start d mx alpha beta (self w) (ticks w)
    = (v, vs, t') ->
  exists w',
    minimax clock fuel (Z.of_nat d) alpha beta mx sym opp start w
      = Some (v, w') /\
    board (self w') = board (self w) /\
    ticks w' = t' /\
    nodes_expanded (self w')
    = nodes_expanded (self w)
      + sumZ (map below vs)
      + Z.of_nat (length (List.filter (fun x => negb (cuts x)) vs)).
Proof.
  intros Hfuel Hexp.
  destruct (minimax_explore clock sym opp start d fuel alpha beta mx w
              v vs t' Hfuel Hexp) as (w' & Hrun & Hsame & Ht & Hn).
  exists w'. split; [exact Hrun|].
  split; [destruct Hsame as (_ & _ & _ & Hb); exact Hb|].
  split; [exact Ht|]. rewrite Hn. unfold counted. lia.
Qed.

(** The maximizing node of the example below: entered with [beta = 41], it
    visits (0,1) and (1,0), which are counted, then (1,1), which cuts the
    row, and (2,0), which cuts the next row at once; four visits, two
    counted. *)
Lemma minimax_counts_uncut_visits_witness :
  exists w',
    minimax (fun _ => 0) 2 1 NegInf (Fin 41) true "X" "O" 0
      (mkWorld (mkGomoku 3 3 5
                  [["X"; "."; "O"]; ["."; "."; "."]; ["."; "."; "."]] 0) 0)
      = Some (Fin 42, w') /\
    nodes_expanded (self w') = 0 + 0 + 2.
Proof.
  destruct (minimax_counts_uncut_visits (fun _ => 0) 2 1 NegInf (Fin 41) true
              "X" "O" 0
              (mkWorld (mkGomoku 3 3 5
                          [["X"; "."; "O"]; ["."; "."; "."]; ["."; "."; "."]] 0) 0)
              (Fin 42)
              [mkVisit (0, 1) (Fin 36) false 0; mkVisit (1, 0) (Fin 38) false 0;
               mkVisit (1, 1) (Fin 42) true 0; mkVisit (2, 0) (Fin 36) true 0]
              1%nat)
    as (w' & Hrun & _ & _ & Hn).
  - lia.
  - vm_compute. reflexivity.
  - exists w'. split; [exact Hrun|exact Hn].
Defined.

(** The claim C3 fails on the third sweep from the empty 3 x 3 board.  After
    'X' at (0,0) and 'O' at (0,2) the maximizing node is entered with
    [beta = 41], the value of its elder sibling; its cells (0,1) and (1,0)
    score 36 and 38 and are counted, the counter standing at 2; the cell
    (1,1) is a valid move, scores 42 and cuts, and the counter still stands
    at 2 when the visit ends: the visit was not counted. *)
Lemma nodes_expanded_counterexample :
  is_valid_move (self cut_world) 1 1 = true /\
  max_cell leaf_call "X" (Fin 41) 1 1 (Fin 38, Fin 38) cut_world
    = Some ((Fin 42, Fin 42, true), cut_world) /\
  nodes_expanded (self cut_world) <> nodes_expanded (self cut_world) + 1.
Proof.
  split; [reflexivity|]. split; [vm_compute; reflexivity|]. lia.
Qed.

(** ** What iterative deepening returns *)

(** The sweeps the loop runs are determined by the world it is entered
    in. *)
Lemma sweeps_run_unique (clock : nat -> Z) (sym opp : string) (start : Z)
    (depth : Z) (w : World) (ms : list Move) (w' : World) :
  sweeps_run clock sym opp start depth w ms w' ->
  forall ms2 w2,
    sweeps_run clock sym opp start depth w ms2 w2 -> ms2 = ms /\ w2 = w'.
Proof.
  induction 1 as [depth w Hlate|depth w m score w1 ms w' Hearly Hsweep _ IH];
    intros ms2 w2 Hrun; inversion Hrun; subst.
  - split; reflexivity.
  - lia.
  - lia.
  - match goal with
    | H : sweep _ _ _ _ _ _ = Some _ |- _ => rewrite Hsweep in H;
        injection H as <- <- <-
    end.
    match goal with
    | H : sweeps_run _ _ _ _ _ _ _ _ |- _ => destruct (IH _ _ H) as [-> ->]
    end.
    split; reflexivity.
Qed.

(** The [while] loop runs its sweeps one after the other and returns the
    move of the last of them, or the candidate it was entered with when its
    condition fails at once. *)
Lemma deepening_loop_last_sweep (clock : nat -> Z) (n : nat)
    (sym opp : string) (start : Z) (bm : option Move) (bs : ext) (depth : Z)
    (w : World) (res : option Move) (w' : World) :
  wf (self w) -> valid_moves (self w) <> [] ->
  deepening_loop clock n sym opp start bm bs depth w = Some (res, w') ->
  exists ms,
    sweeps_run clock sym opp start depth w ms w' /\
    res = match last ms with Some m => Some m | None => bm end.
Proof.
  revert bm bs depth w.
  induction n as [|n IH]; intros bm bs depth w Hwf Hne; cbn [deepening_loop];
    [discriminate|].
  unfold time_time at 1. cbn [self].
  destruct (Z.ltb_spec (clock (ticks w) - start) (ai_time_limit (self w)))
    as [Hearly|Hlate].
  - destruct (sweep _ _ _ _ _ _) as [[[cm cs] w2]|] eqn:Hs; [|discriminate].
    pose proof (sweep_frame _ _ _ _ _ _ _ _ Hs) as [Hsame _].
    cbn [self] in Hsame.
    pose proof (sweep_some clock depth sym opp start _
                  (mkWorld (self w) (S (ticks w))) w2 Hwf Hne Hs) as [m Hm].
    cbn [fst] in Hm. subst cm.
    intros Hrest.
    apply IH in Hrest;
      [|apply (wf_same _ _ Hsame Hwf)
       |rewrite (valid_moves_same _ _ Hsame); exact Hne].
    destruct Hrest as (ms & Hrun & ->).
    exists (m :: ms). split.
    + eapply run_sweep; [exact Hearly|exact Hs|exact Hrun].
    + destruct ms as [|m1 ms]; [reflexivity|].
      rewrite last_cons_cons.
      destruct (last (m1 :: ms)) eqn:Hlast; [reflexivity|].
      apply last_None in Hlast. discriminate.
  - intros [= <- <-]. exists []. split; [|reflexivity].
    apply (run_stop clock sym opp start depth w Hlate).
Qed.

(** C1, as the code has it: on a board with a valid move,
    [iterative_deepening] returns once the clock is past the deadline.  The
    sweeps it has run by then are those of depths 1, 2, ... up to some
    depth, each started because the loop condition held when it was
    evaluated, each from the world the one before left, and each run to its
    end whatever the clock did meanwhile; which they are is determined by
    the world at entry.  What is returned is the move of the last of them:
    nothing tells a sweep that ran into the deadline from a complete one,
    so such a sweep overwrites the committed move like any other.  If the
    deadline has passed when the condition is first evaluated no sweep runs
    and [None] is returned, as always happens with [ai_time_limit = 0] on a
    clock that does not run backwards. *)
Theorem deepening_returns_last_started_sweep (clock : nat -> Z) (n : nat)
    (sym opp : string) (w : World) :
  wf (self w) -> valid_moves (self w) <> [] ->
  (1 <= n)%nat ->
  (forall k, (ticks w + n <= k)%nat ->
     ai_time_limit (self w) <= clock k - clock (ticks w)) ->
  exists ms w',
    sweeps_run clock sym opp (clock (ticks w)) 1
      (snd (time_time clock w)) ms w' /\
    iterative_deepening clock n sym opp w = Some (last ms, w') /\
    (forall ms2 w2,
       sweeps_run clock sym opp (clock (ticks w)) 1
         (snd (time_time clock w)) ms2 w2 ->
       ms2 = ms /\ w2 = w') /\
    (ai_time_limit (self w) <= clock (S (ticks w)) - clock (ticks w) ->
     ms = []) /\
    (ai_time_limit (self w) = 0 -> clock (ticks w) <= clock (S (ticks w)) ->
     ms = []).
Proof.
  intros Hwf Hne Hn Hlate.
  destruct (iterative_deepening_total clock n sym opp w Hn Hlate)
    as [[res w'] Hrun].
  pose proof Hrun as Hloop.
  unfold iterative_deepening, time_time in Hloop.
  apply deepening_loop_last_sweep in Hloop; [|exact Hwf|exact Hne].
  destruct Hloop as (ms & Hsweeps & Hres).
  assert (Hlast : res = last ms) by (rewrite Hres; destruct (last ms); reflexivity).
  clear Hres. subst res.
  assert (Hfirst : ai_time_limit (self w) <= clock (S (ticks w)) - clock (ticks w)
                   -> ms = []).
  { intros Hstop. inversion Hsweeps; subst; [reflexivity|].
    cbn [self ticks] in *. lia. }
  exists ms, w'. split; [exact Hsweeps|]. split; [exact Hrun|].
  split; [apply (sweeps_run_unique _ _ _ _ _ _ _ _ Hsweeps)|].
  split; [exact Hfirst|]. intros H0 Hmono. apply Hfirst. lia.
Qed.

(** On the board of the example below, with the limit 6 and a clock that
    advances one tick per reading, two sweeps run, and the move of the
    second is returned. *)
Lemma deepening_returns_last_started_sweep_witness :
  exists ms w',
    sweeps_run Z.of_nat "X" "O" 0 1 (mkWorld (ox_game 6) 1) ms w' /\
    ms = [(1, 2); (2, 1)] /\
    iterative_deepening Z.of_nat 10 "X" "O" (mkWorld (ox_game 6) 0)
      = Some (Some (2, 1), w').
Proof.
  destruct (deepening_returns_last_started_sweep Z.of_nat 10 "X" "O"
              (mkWorld (ox_game 6) 0))
    as (ms & w' & Hsweeps & Hrun & Hunique & _).
  - split; [reflexivity|]. repeat constructor.
  - vm_compute. discriminate.
  - lia.
  - cbn [ticks self ai_time_limit ox_game]. intros k Hk. lia.
  - assert (Hms : ms = [(1, 2); (2, 1)]).
    { inversion Hsweeps as [|d0 w0 m1 s1 w1 ms1 w1' _ Hs1 Hrest1]; subst;
        [cbn in *; lia|].
      vm_compute in Hs1. injection Hs1 as <- _ <-.
      inversion Hrest1 as [|d2 w2 m2 s2 w3 ms2 w3' _ Hs2 Hrest2]; subst;
        [cbn in *; lia|].
      vm_compute in Hs2. injection Hs2 as <- _ <-.
      inversion Hrest2 as [? ? _|d4 w4 m4 s4 w5 ms4 w5' Hearly _ _]; subst;
        [reflexivity|].
      cbn in Hearly. lia. }
    exists ms, w'. split; [exact Hsweeps|]. split; [exact Hms|].
    rewrite Hrun, Hms. reflexivity.
Defined.

(** The claim C1 fails on the board with 'O' at (0,0) and 'X' at (1,1),
    'X' to move, on a clock that advances one tick per reading.

    With [ai_time_limit = 0] no sweep runs and [None] is returned although
    seven moves are valid.

    With [ai_time_limit = 6] the call starts at reading 0.  The sweep of
    depth 1 runs between readings 1 and 2, within the deadline, and selects
    (1,2).  The sweep of depth 2 starts after reading 2; its first four
    root moves are searched at readings 3 to 6, the last three at readings
    7 to 9, past the deadline, where [minimax] returns the static
    evaluation at once.  A depth-2 sweep under an idle clock selects (1,2)
    as well, but the sweep cut by the deadline selects (2,1), and (2,1) is
    returned. *)
Lemma deepening_counterexample :
  (length (valid_moves (ox_game 0)) = 7%nat /\
   option_map fst
     (iterative_deepening Z.of_nat 10 "X" "O" (mkWorld (ox_game 0) 0))
     = Some None) /\
  (option_map fst
     (iterative_deepening Z.of_nat 10 "X" "O" (mkWorld (ox_game 6) 0))
     = Some (Some (2, 1)) /\
   option_map (fun r => (fst (fst r), ticks (snd r)))
     (sweep Z.of_nat 1 "X" "O" 0 (mkWorld (ox_game 6) 2))
     = Some (Some (1, 2), 2%nat) /\
   option_map (fun r => (fst (fst r), ticks (snd r)))
     (sweep Z.of_nat 2 "X" "O" 0 (mkWorld (ox_game 6) 3))
     = Some (Some (2, 1), 10%nat) /\
   option_map (fun r => fst (fst r))
     (sweep (fun _ => 0) 2 "X" "O" 0 (mkWorld (ox_game 6) 3))
     = Some (Some (1, 2))).
Proof. repeat split; vm_compute; reflexivity. Qed.

(** * Further properties of the rule engine *)

(** ** Full boards and valid moves *)

Lemma full_no_valid (g : Gomoku) (row col : Z) :
  is_full g = true -> is_valid_move g row col = false.
Proof.
  intros Hfull. destruct (is_valid_move g row col) eqn:Hv; [|reflexivity].
  exfalso. apply is_valid_move_spec in Hv as [_ Hcell].
  apply cell_lookup in Hcell as (line & Hline & Hcol); [|discriminate].
  unfold is_full in Hfull.
  pose proof (proj1 (forallb_forall _ _) Hfull line) as Hl.
  assert (Hin : In line (board g)).
  { apply list_elem_of_In, list_elem_of_lookup. eauto. }
  specialize (Hl Hin). apply negb_true_iff in Hl.
  assert (Hex : existsb (String.eqb ".") line = true).
  { apply existsb_exists. exists ".". split; [|reflexivity].
    apply list_elem_of_In, list_elem_of_lookup. eauto. }
  congruence.
Qed.

Lemma valid_moves_nil (g : Gomoku) :
  valid_moves g = [] <-> forall row col, is_valid_move g row col = false.
Proof.
  split.
  - intros Hnil row col.
    destruct (is_valid_move g row col) eqn:Hv; [|reflexivity].
    assert (Hin : In (row, col) (valid_moves g)) by (apply In_valid_moves; exact Hv).
    rewrite Hnil in Hin. destruct Hin.
  - intros Hnone. destruct (valid_moves g) as [|m l] eqn:Hl; [reflexivity|].
    assert (Hin : In m (valid_moves g)) by (rewrite Hl; left; reflexivity).
    apply In_valid_moves in Hin. rewrite Hnone in Hin. discriminate.
Qed.

Lemma is_full_valid_moves (g : Gomoku) :
  wf g -> (is_full g = true <-> valid_moves g = []).
Proof.
  intros Hwf. rewrite valid_moves_nil. split.
  - intros Hfull row col. apply full_no_valid, Hfull.
  - intros Hnone. destruct (is_full g) eqn:Hfull; [reflexivity|].
    destruct (not_full_valid g Hwf Hfull) as (row & col & _ & _ & Hv).
    rewrite Hnone in Hv. discriminate.
Qed.

(** X1: on a board of the constructor's shape, [is_full] holds exactly when
    no cell is a valid move, that is when the list of valid moves is
    empty. *)
Theorem is_full_iff_no_valid_move (g : Gomoku) :
  wf g ->
  (is_full g = true <-> forall row col, is_valid_move g row col = false) /\
  (is_full g = true <-> valid_moves g = []).
Proof.
  intros Hwf. split; [|apply is_full_valid_moves, Hwf].
  rewrite <- valid_moves_nil. apply is_full_valid_moves, Hwf.
Qed.

Lemma is_full_iff_no_valid_move_witness :
  is_full (mkGomoku 2 2 2 [["X"; "O"]; ["O"; "X"]] 0) = true <->
  valid_moves (mkGomoku 2 2 2 [["X"; "O"]; ["O"; "X"]] 0) = [].
Proof.
  apply (is_full_iff_no_valid_move (mkGomoku 2 2 2 [["X"; "O"]; ["O"; "X"]] 0)).
  split; [reflexivity|]. repeat constructor.
Defined.

(** X2: [random_ai] returns [None] exactly on a full board, and a move it
    returns is a valid move, whatever index [random.choice] draws. *)
Theorem random_ai_valid_or_full (rand : nat -> nat) (g : Gomoku) :
  wf g ->
  (random_ai rand g = None <-> is_full g = true) /\
  (forall m, random_ai rand g = Some m ->
     is_valid_move g (fst m) (snd m) = true).
Proof.
  intros Hwf. rewrite (is_full_valid_moves g Hwf). unfold random_ai.
  destruct (valid_moves g) as [|m0 l] eqn:Hl.
  - split; [tauto|discriminate].
  - assert (Hlt : (rand (length (m0 :: l)) mod length (m0 :: l)
                   < length (m0 :: l))%nat).
    { apply Nat.mod_upper_bound. simpl. lia. }
    destruct (lookup_lt_is_Some_2 _ _ Hlt) as [x Hx]. rewrite Hx.
    split; [split; discriminate|].
    intros m [= <-]. apply In_valid_moves. rewrite Hl.
    apply list_elem_of_In, list_elem_of_lookup. eauto.
Qed.

Lemma random_ai_valid_or_full_witness :
  random_ai (fun k => 5%nat) (init 3 3 2) = Some (1, 2) /\
  is_valid_move (init 3 3 2) 1 2 = true.
Proof.
  split; [vm_compute; reflexivity|].
  apply (proj2 (random_ai_valid_or_full (fun k => 5%nat) (init 3 3 2)
                  (wf_init 3 3 2)) (1, 2)).
  vm_compute. reflexivity.
Defined.

(** X3: [greedy_ai] and [worst_ai] return [None] exactly on a full board. *)
Theorem one_ply_none_iff_full (g : Gomoku) (sym : string) :
  wf g ->
  (fst (greedy_ai g sym) = None <-> is_full g = true) /\
  (fst (worst_ai g sym) = None <-> is_full g = true).
Proof.
  intros Hwf. rewrite (is_full_valid_moves g Hwf).
  rewrite greedy_ai_scan, worst_ai_scan. cbn [fst].
  destruct (valid_moves g) as [|m0 l] eqn:Hl.
  - cbn [fold_left fst]. tauto.
  - destruct (scan_max_first_maximal (lookahead g sym) (m0 :: l))
      as (m & -> & _); [discriminate|].
    destruct (scan_min_first_minimal (lookahead g sym) (m0 :: l))
      as (m' & -> & _); [discriminate|].
    cbn [fst]. split; split; discriminate.
Qed.

Lemma one_ply_none_iff_full_witness :
  fst (greedy_ai (mkGomoku 2 2 2 [["X"; "O"]; ["O"; "X"]] 0) "X") = None /\
  fst (worst_ai (mkGomoku 2 2 2 [["X"; "O"]; ["O"; "X"]] 0) "O") = None.
Proof.
  destruct (one_ply_none_iff_full (mkGomoku 2 2 2 [["X"; "O"]; ["O"; "X"]] 0) "X")
    as [Hg _]; [split; [reflexivity|repeat constructor]|].
  destruct (one_ply_none_iff_full (mkGomoku 2 2 2 [["X"; "O"]; ["O"; "X"]] 0) "O")
    as [_ Hw]; [split; [reflexivity|repeat constructor]|].
  split; [apply Hg|apply Hw]; reflexivity.
Defined.

(** ** What a move changes *)

Lemma is_valid_move_assign_other (g : Gomoku) (row col r c : Z) (s : string) :
  0 <= row -> 0 <= col -> (r, c) <> (row, col) ->
  is_valid_move (assign g row col s) r c = is_valid_move g r c.
Proof.
  intros Hrow Hcol Hne. unfold is_valid_move.
  change (in_bounds (assign g row col s) r c) with (in_bounds g r c).
  destruct (in_bounds g r c) eqn:Hin; [|reflexivity].
  apply in_bounds_spec in Hin. cbn [andb]. f_equal.
  unfold assign, with_board. cbn [board].
  apply set_cell_other. intros [= H1 H2]. apply Hne. f_equal; lia.
Qed.

Lemma cell_assign_same (g : Gomoku) (row col : Z) (s : string) :
  wf g -> in_bounds g row col = true ->
  cell (board (assign g row col s)) row col = s.
Proof.
  intros [Hlen Hall] Hin. apply in_bounds_spec in Hin.
  unfold assign, with_board. cbn [board].
  apply set_cell_same; [lia|].
  eapply Forall_impl; [exact Hall|]. simpl. intros line ->. lia.
Qed.

Lemma make_move_occupied_cells (g g' : Gomoku) (p : Player) (row col : Z) :
  wf g -> symbol p <> "." ->
  make_move g p row col = (true, g') ->
  is_valid_move g row col = true /\
  is_valid_move g' row col = false /\
  (forall r c, (r, c) <> (row, col) ->
     is_valid_move g' r c = is_valid_move g r c).
Proof.
  intros Hwf Hsym Hmove. unfold make_move in Hmove.
  destruct (is_valid_move g row col) eqn:Hv; [|discriminate].
  injection Hmove as <-. split; [reflexivity|].
  pose proof Hv as Hv'. apply is_valid_move_spec in Hv' as [[Hr Hc] _].
  split.
  - unfold is_valid_move. rewrite cell_assign_same;
      [|exact Hwf|apply in_bounds_spec; lia].
    apply andb_false_iff. right. apply String.eqb_neq. exact Hsym.
  - intros r c Hne. apply is_valid_move_assign_other; [lia|lia|exact Hne].
Qed.

(** X4: after a successful [make_move] by a player whose symbol is not
    ['.'], the cell is no longer a valid move, a second [make_move] there
    by anyone is refused and changes nothing, and every other cell is a
    valid move exactly when it was before. *)
Theorem make_move_occupies (g g' : Gomoku) (p q : Player) (row col : Z) :
  wf g -> symbol p <> "." ->
  make_move g p row col = (true, g') ->
  is_valid_move g' row col = false /\
  make_move g' q row col = (false, g') /\
  (forall r c, (r, c) <> (row, col) ->
     is_valid_move g' r c = is_valid_move g r c).
Proof.
  intros Hwf Hsym Hmove.
  destruct (make_move_occupied_cells g g' p row col Hwf Hsym Hmove)
    as (_ & Hocc & Hother).
  split; [exact Hocc|]. split; [|exact Hother].
  unfold make_move. rewrite Hocc. reflexivity.
Qed.

Lemma make_move_occupies_witness :
  is_valid_move (assign (init 3 3 2) 1 1 "X") 1 1 = false /\
  make_move (assign (init 3 3 2) 1 1 "X") (mkPlayer "O" None) 1 1
    = (false, assign (init 3 3 2) 1 1 "X").
Proof.
  destruct (make_move_occupies (init 3 3 2) (assign (init 3 3 2) 1 1 "X")
              (mkPlayer "X" None) (mkPlayer "O" None) 1 1)
    as (H1 & H2 & _).
  - apply wf_init.
  - discriminate.
  - reflexivity.
  - split; [exact H1|exact H2].
Defined.

(** Dropping one element from the cells a filter accepts. *)
Lemma filter_drop_one (p p' : Move -> bool) (l : list Move) (x : Move) :
  StronglySorted row_major_before l -> In x l ->
  p x = true -> p' x = false ->
  (forall y, y <> x -> p' y = p y) ->
  length (List.filter p l) = S (length (List.filter p' l)).
Proof.
  intros Hsorted Hin Hpx Hpx' Hother.
  induction Hsorted as [|y l Hl IH Hy]; [destruct Hin|].
  cbn [List.filter].
  destruct (decide (y = x)) as [->|Hne].
  - rewrite Hpx, Hpx'. cbn [length]. f_equal. f_equal.
    apply List.filter_ext_in. intros z Hz. symmetry. apply Hother.
    intros ->. apply (proj1 (List.Forall_forall _ _) Hy) in Hz.
    exact (row_major_asym _ _ Hz Hz).
  - destruct Hin as [Heq|Hin]; [congruence|].
    rewrite (Hother y Hne). specialize (IH Hin).
    destruct (p y); cbn [length]; rewrite IH; reflexivity.
Qed.

(** A placement of a symbol other than ['.'] on a valid cell leaves one
    valid move fewer. *)
Lemma valid_moves_assign (g : Gomoku) (row col : Z) (s : string) :
  wf g -> s <> "." -> is_valid_move g row col = true ->
  length (valid_moves g) = S (length (valid_moves (assign g row col s))).
Proof.
  intros Hwf Hs Hv.
  destruct (make_move_occupied_cells g (assign g row col s) (mkPlayer s None)
              row col Hwf Hs) as (_ & Hocc & Hother).
  { unfold make_move. rewrite Hv. reflexivity. }
  unfold valid_moves.
  change (board_size (assign g row col s)) with (board_size g).
  apply (filter_drop_one _ _ _ (row, col)).
  - apply cells_sorted.
  - apply is_valid_move_spec in Hv as [[Hr Hc] _].
    apply in_prod; apply In_range; assumption.
  - exact Hv.
  - exact Hocc.
  - intros [r c] Hne. apply Hother. exact Hne.
Qed.

(** X5: a successful [make_move] with a symbol other than ['.'] leaves
    exactly one valid move fewer; so a game has at most
    [board_size * board_size] successful moves. *)
Theorem make_move_uses_one_cell (g g' : Gomoku) (p : Player) (row col : Z) :
  wf g -> symbol p <> "." ->
  make_move g p row col = (true, g') ->
  length (valid_moves g) = S (length (valid_moves g')) /\
  (length (valid_moves g) <= Z.to_nat (board_size g) * Z.to_nat (board_size g))%nat.
Proof.
  intros Hwf Hsym Hmove. split.
  - unfold make_move in Hmove.
    destruct (is_valid_move g row col) eqn:Hv; [|discriminate].
    injection Hmove as <-. apply valid_moves_assign; assumption.
  - unfold valid_moves, cells.
    etransitivity; [apply List.filter_length_le|].
    rewrite length_prod, length_range. reflexivity.
Qed.

Lemma make_move_uses_one_cell_witness :
  length (valid_moves (init 3 3 2))
  = S (length (valid_moves (assign (init 3 3 2) 0 2 "O"))).
Proof.
  apply (make_move_uses_one_cell (init 3 3 2) _ (mkPlayer "O" None) 0 2).
  - apply wf_init.
  - discriminate.
  - reflexivity.
Defined.

(** ** A fresh game *)

Lemma cell_init (size wlen limit row col : Z) :
  in_bounds (init size wlen limit) row col = true ->
  cell (board (init size wlen limit)) row col = ".".
Proof.
  intros Hin. apply in_bounds_spec in Hin. cbn [init board_size] in Hin.
  unfold cell, init. cbn [board].
  rewrite lookup_replicate_2 by lia. rewrite lookup_replicate_2 by lia.
  reflexivity.
Qed.

Lemma filter_all {B : Type} (p : B -> bool) (l : list B) :
  (forall x, In x l -> p x = true) -> List.filter p l = l.
Proof.
  induction l as [|x l IH]; intros H; simpl; [reflexivity|].
  rewrite (H x (or_introl eq_refl)). f_equal. apply IH.
  intros y Hy. apply H. right. exact Hy.
Qed.

Lemma filter_none {B : Type} (p : B -> bool) (l : list B) :
  (forall x, In x l -> p x = false) -> List.filter p l = [].
Proof.
  induction l as [|x l IH]; intros H; simpl; [reflexivity|].
  rewrite (H x (or_introl eq_refl)). apply IH.
  intros y Hy. apply H. right. exact Hy.
Qed.

Lemma In_cells (n : Z) (m : Move) :
  In m (cells n) <-> 0 <= fst m < n /\ 0 <= snd m < n.
Proof.
  destruct m as [row col]. unfold cells. cbn [fst snd]. split.
  - intros H. apply in_prod_iff in H as [Hr Hc].
    apply In_range in Hr, Hc. tauto.
  - intros [Hr Hc]. apply in_prod; apply In_range; assumption.
Qed.

(** The score of the evaluator as the sum it accumulates. *)
Lemma evaluate_board_sum (g : Gomoku) (sym : string) :
  evaluate_board g sym = evaluate_formula g sym.
Proof.
  unfold evaluate_board, evaluate_formula. cbv zeta.
  rewrite (fold_left_grid_as_sum _
             (fun row col =>
                if holds g sym (row, col)
                then own_alignment g sym (row, col) + center_bonus g (row, col)
                     + free_neighbours g (row, col) + extension g sym (row, col)
                else if holds g (opponent_of sym) (row, col)
                     then - own_alignment g (opponent_of sym) (row, col)
                     else 0)).
  - rewrite Z.add_0_l. unfold cells.
    rewrite <- (sumZ_split (holds g sym) (holds g (opponent_of sym))).
    + reflexivity.
    + intros [row col] H1 H2. unfold holds in H1, H2. simpl in H1, H2.
      apply String.eqb_eq in H1, H2.
      apply (opponent_of_differs sym). congruence.
  - intros row score col. unfold holds. cbn [fst snd].
    rewrite !count_aligned_formula, potential_extension_formula,
      count_adjacent_spaces_formula.
    unfold center_bonus, manhattan. cbn [fst snd].
    destruct (String.eqb (cell (board g) row col) sym); [lia|].
    destruct (String.eqb (cell (board g) row col) (opponent_of sym)); lia.
Qed.

Lemma opponent_of_not_dot (sym : string) : opponent_of sym <> ".".
Proof. unfold opponent_of. destruct (String.eqb sym "O"); discriminate. Qed.

(** X6: the constructor's board, whatever its size: every cell of the grid
    is a valid move and nothing else is; the board is full only when the
    grid has no cell; no player with a mark other than ['.'] has won when
    [win_length >= 1]; and the evaluation is 0 for every such mark. *)
Theorem init_is_fresh (size wlen limit : Z) :
  (forall row col,
     is_valid_move (init size wlen limit) row col = true <->
     0 <= row < size /\ 0 <= col < size) /\
  valid_moves (init size wlen limit) = cells size /\
  (is_full (init size wlen limit) = true <-> size <= 0) /\
  (forall p, symbol p <> "." -> 1 <= wlen ->
     check_win (init size wlen limit) p = false) /\
  (forall sym, sym <> "." -> evaluate_board (init size wlen limit) sym = 0).
Proof.
  assert (Hvalid : forall row col,
             is_valid_move (init size wlen limit) row col = true <->
             0 <= row < size /\ 0 <= col < size).
  { intros row col. rewrite is_valid_move_spec. cbn [init board_size].
    split; [tauto|]. intros H. split; [exact H|].
    apply cell_init, in_bounds_spec. exact H. }
  split; [exact Hvalid|]. split; [|split; [|split]].
  - unfold valid_moves. cbn [init board_size]. apply filter_all.
    intros m Hm. apply In_cells in Hm. apply Hvalid. exact Hm.
  - split.
    + intros Hfull. destruct (Z.le_gt_cases size 0) as [H|H]; [exact H|].
      pose proof (full_no_valid _ 0 0 Hfull) as Hno.
      rewrite (proj2 (Hvalid 0 0)) in Hno by lia. discriminate.
    + intros Hsize. unfold is_full, init. cbn [board].
      replace (Z.to_nat size) with 0%nat by lia. reflexivity.
  - intros p Hp Hw.
    destruct (check_win (init size wlen limit) p) eqn:Hcw; [|reflexivity].
    exfalso. apply check_win_spec in Hcw as (row & col & Hin & Hdir).
    assert (Hcell : cell (board (init size wlen limit)) row col = symbol p).
    { cbn [init win_length] in Hw.
      destruct Hdir as [H|[H|[H|H]]];
        apply check_direction_spec in H as [_ H];
        specialize (H 0 ltac:(cbn [init win_length]; lia));
        rewrite !Z.mul_0_l, !Z.add_0_r in H; apply H. }
    rewrite (cell_init _ _ _ _ _ Hin) in Hcell. congruence.
  - intros sym Hsym. rewrite evaluate_board_sum. unfold evaluate_formula.
    rewrite !filter_none; [reflexivity| |].
    + intros m Hm. apply In_cells in Hm. unfold holds.
      rewrite cell_init by (apply in_bounds_spec; exact Hm).
      apply String.eqb_neq. intros H. exact (opponent_of_not_dot sym (eq_sym H)).
    + intros m Hm. apply In_cells in Hm. unfold holds.
      rewrite cell_init by (apply in_bounds_spec; exact Hm).
      apply String.eqb_neq. congruence.
Qed.

(** ** Winning lines *)

(** X7: when [win_length] exceeds [board_size] no line fits on the board
    and [check_win] is false for every player on every board. *)
Theorem check_win_needs_room (g : Gomoku) (p : Player) :
  board_size g < win_length g -> check_win g p = false.
Proof.
  intros Hroom. destruct (check_win g p) eqn:Hcw; [|reflexivity].
  exfalso. apply check_win_spec in Hcw as (row & col & Hin & Hdir).
  apply in_bounds_spec in Hin.
  destruct Hdir as [H|[H|[H|H]]];
    apply check_direction_spec in H as [_ H];
    specialize (H (win_length g - 1) ltac:(lia)); destruct H as [H _];
    apply in_bounds_spec in H; lia.
Qed.

Lemma check_win_needs_room_witness :
  check_win (mkGomoku 2 3 2 [["X"; "X"]; ["X"; "X"]] 0) (mkPlayer "X" None)
  = false.
Proof.
  apply (check_win_needs_room (mkGomoku 2 3 2 [["X"; "X"]; ["X"; "X"]] 0)).
  simpl. lia.
Defined.

(** A line of a mark other than ['.'] survives a placement on an empty
    cell, and a line of a mark other than the one placed was there
    before. *)
Lemma check_direction_assign (g : Gomoku) (row col r0 c0 dr dc : Z)
    (s sym : string) :
  wf g -> is_valid_move g row col = true -> sym <> "." ->
  (check_direction g r0 c0 dr dc sym = true ->
   check_direction (assign g row col s) r0 c0 dr dc sym = true) /\
  (sym <> s ->
   check_direction (assign g row col s) r0 c0 dr dc sym = true ->
   check_direction g r0 c0 dr dc sym = true).
Proof.
  intros Hwf Hv Hsym. pose proof Hv as Hv'.
  apply is_valid_move_spec in Hv' as [Hrc Hdot].
  rewrite !check_direction_spec.
  change (win_length (assign g row col s)) with (win_length g).
  split.
  - intros [Hw H]. split; [exact Hw|]. intros i Hi.
    destruct (H i Hi) as [Hin Hcell].
    change (in_bounds (assign g row col s) (r0 + i * dr) (c0 + i * dc))
      with (in_bounds g (r0 + i * dr) (c0 + i * dc)).
    split; [exact Hin|].
    apply in_bounds_spec in Hin. unfold assign, with_board. cbn [board].
    rewrite set_cell_other; [exact Hcell|].
    intros [= H1 H2].
    assert (r0 + i * dr = row) by lia. assert (c0 + i * dc = col) by lia.
    congruence.
  - intros Hs [Hw H]. split; [exact Hw|]. intros i Hi.
    destruct (H i Hi) as [Hin Hcell].
    change (in_bounds (assign g row col s) (r0 + i * dr) (c0 + i * dc))
      with (in_bounds g (r0 + i * dr) (c0 + i * dc)) in Hin.
    split; [exact Hin|].
    pose proof Hin as Hin'. apply in_bounds_spec in Hin'.
    destruct (decide ((r0 + i * dr, c0 + i * dc) = (row, col))) as [[= H1 H2]|Hne].
    + rewrite H1, H2 in Hcell.
      rewrite cell_assign_same in Hcell by
        (try exact Hwf; apply in_bounds_spec; exact Hrc).
      congruence.
    + unfold assign, with_board in Hcell. cbn [board] in Hcell.
      rewrite set_cell_other in Hcell; [exact Hcell|].
      intros [= H1 H2]. apply Hne. f_equal; lia.
Qed.

Lemma check_win_assign (g : Gomoku) (p : Player) (row col : Z) (s : string) :
  wf g -> is_valid_move g row col = true -> symbol p <> "." ->
  (check_win g p = true -> check_win (assign g row col s) p = true) /\
  (symbol p <> s -> check_win (assign g row col s) p = true ->
   check_win g p = true).
Proof.
  intros Hwf Hv Hsym. rewrite !check_win_spec. split.
  - intros (r0 & c0 & Hin & Hdir). exists r0, c0. split; [exact Hin|].
    destruct Hdir as [H|[H|[H|H]]];
      apply (proj1 (check_direction_assign g row col _ _ _ _ s _ Hwf Hv Hsym))
        in H; tauto.
  - intros Hs (r0 & c0 & Hin & Hdir). exists r0, c0. split; [exact Hin|].
    destruct Hdir as [H|[H|[H|H]]];
      apply (proj2 (check_direction_assign g row col _ _ _ _ s _ Hwf Hv Hsym) Hs)
        in H; tauto.
Qed.

(** X8: a placement on a valid cell never undoes a win of a mark other than
    ['.'], and it cannot create a win for any mark but the one placed: for
    the other marks [check_win] is the same before and after. *)
Theorem move_keeps_wins (g : Gomoku) (p : Player) (row col : Z) (s : string) :
  wf g -> is_valid_move g row col = true -> symbol p <> "." ->
  (check_win g p = true -> check_win (assign g row col s) p = true) /\
  (symbol p <> s -> check_win (assign g row col s) p = check_win g p).
Proof.
  intros Hwf Hv Hsym.
  destruct (check_win_assign g p row col s Hwf Hv Hsym) as [Hkeep Hnew].
  split; [exact Hkeep|].
  intros Hs. apply Bool.eq_iff_eq_true. split; [apply Hnew, Hs|exact Hkeep].
Qed.

Lemma move_keeps_wins_witness :
  check_win
    (assign (mkGomoku 3 2 2 [["X"; "X"; "."]; ["."; "O"; "."]; ["."; "."; "."]] 0)
       2 1 "O")
    (mkPlayer "X" None) = true.
Proof.
  destruct (move_keeps_wins
              (mkGomoku 3 2 2
                 [["X"; "X"; "."]; ["."; "O"; "."]; ["."; "."; "."]] 0)
              (mkPlayer "X" None) 2 1 "O") as [Hkeep _].
  - split; [reflexivity|]. repeat constructor.
  - reflexivity.
  - discriminate.
  - apply Hkeep. reflexivity.
Defined.

Lemma init_is_fresh_witness :
  check_win (init 15 5 2) (mkPlayer "X" None) = false /\
  evaluate_board (init 15 5 2) "O" = 0.
Proof.
  destruct (init_is_fresh 15 5 2) as (_ & _ & _ & Hwin & Heval).
  split; [apply Hwin; [discriminate|lia] | apply Heval; discriminate].
Defined.

(** ** Bounds of the evaluator *)

Lemma filter_length_mono {B : Type} (p q : B -> bool) (l : list B) :
  (forall x, p x = true -> q x = true) ->
  (length (List.filter p l) <= length (List.filter q l))%nat.
Proof.
  intros Hpq. induction l as [|x l IH]; simpl; [lia|].
  destruct (p x) eqn:Hp.
  - rewrite (Hpq x Hp). simpl. lia.
  - destruct (q x); simpl; lia.
Qed.

Lemma filter_length_pos {B : Type} (p : B -> bool) (l : list B) (x : B) :
  In x l -> p x = true -> (1 <= length (List.filter p l))%nat.
Proof.
  intros Hin Hp.
  assert (Hx : In x (List.filter p l)) by (apply filter_In; tauto).
  destruct (List.filter p l); [destruct Hx|simpl; lia].
Qed.

Lemma length_range_from (a b : Z) :
  length (range_from a b) = Z.to_nat (b - a).
Proof. unfold range_from. rewrite length_map, length_seq. reflexivity. Qed.

Lemma In_range_from (a b x : Z) : In x (range_from a b) <-> a <= x < b.
Proof.
  unfold range_from. rewrite in_map_iff. split.
  - intros (k & <- & Hk). apply in_seq in Hk. lia.
  - intros Hx. exists (Z.to_nat (x - a)). split; [lia|]. apply in_seq. lia.
Qed.

Lemma window_length (g : Gomoku) (row col : Z) (d : Z * Z) :
  Z.of_nat (length (window g row col d)) <= Z.max 0 (2 * win_length g - 1).
Proof.
  unfold window.
  pose proof (List.filter_length_le
                (fun m : Move => in_bounds g (fst m) (snd m))
                (map (fun i => (row + fst d * i, col + snd d * i))
                   (range_from (1 - win_length g) (win_length g)))) as H.
  rewrite length_map, length_range_from in H.
  apply Nat2Z.inj_le in H. etransitivity; [exact H|]. lia.
Qed.

Lemma window_centre (g : Gomoku) (row col : Z) (d : Z * Z) :
  in_bounds g row col = true -> 1 <= win_length g ->
  In (row, col) (window g row col d).
Proof.
  intros Hin Hw. unfold window. apply filter_In. split; [|exact Hin].
  apply in_map_iff. exists 0. split.
  - f_equal; lia.
  - apply In_range_from. lia.
Qed.

Lemma count_cells_bounds (g : Gomoku) (p q : string -> bool) (ms : list Move) :
  (forall s, p s = true -> q s = true) ->
  0 <= count_cells g p ms <= count_cells g q ms /\
  count_cells g q ms <= Z.of_nat (length ms).
Proof.
  intros Hpq. unfold count_cells.
  pose proof (filter_length_mono
                (fun m : Move => p (cell (board g) (fst m) (snd m)))
                (fun m : Move => q (cell (board g) (fst m) (snd m))) ms
                (fun m => Hpq _)) as H1.
  pose proof (List.filter_length_le
                (fun m : Move => q (cell (board g) (fst m) (snd m))) ms) as H2.
  apply Nat2Z.inj_le in H1, H2.
  split; [split; [apply Nat2Z.is_nonneg|exact H1]|exact H2].
Qed.

Lemma window_counts (g : Gomoku) (row col : Z) (sym : string) (d : Z * Z) :
  0 <= count_cells g (fun s => String.eqb s sym) (window g row col d)
    <= count_cells g (fun s => String.eqb s sym || String.eqb s ".")
         (window g row col d) /\
  count_cells g (fun s => String.eqb s sym || String.eqb s ".")
    (window g row col d) <= Z.max 0 (2 * win_length g - 1).
Proof.
  destruct (count_cells_bounds g (fun s => String.eqb s sym)
              (fun s => String.eqb s sym || String.eqb s ".")
              (window g row col d)) as [H1 H2].
  { intros s ->. reflexivity. }
  pose proof (window_length g row col d). lia.
Qed.

Lemma window_count_centre (g : Gomoku) (row col : Z) (sym : string)
    (d : Z * Z) :
  in_bounds g row col = true -> cell (board g) row col = sym ->
  1 <= win_length g ->
  1 <= count_cells g (fun s => String.eqb s sym) (window g row col d).
Proof.
  intros Hin Hcell Hw. unfold count_cells.
  pose proof (filter_length_pos
                (fun m : Move => String.eqb (cell (board g) (fst m) (snd m)) sym)
                (window g row col d) (row, col)
                (window_centre g row col d Hin Hw)) as H.
  cbn [fst snd] in H. rewrite Hcell, String.eqb_refl in H.
  specialize (H eq_refl).
  change 1 with (Z.of_nat 1). apply Nat2Z.inj_le. exact H.
Qed.

Lemma alignment_extension_bounds (g : Gomoku) (sym : string) (m : Move) :
  0 <= own_alignment g sym m <= extension g sym m /\
  extension g sym m <= 4 * Z.max 0 (2 * win_length g - 1).
Proof.
  unfold own_alignment, extension, directions4.
  cbn [map sumZ fold_right].
  pose proof (window_counts g (fst m) (snd m) sym (1, 0)) as H1.
  pose proof (window_counts g (fst m) (snd m) sym (0, 1)) as H2.
  pose proof (window_counts g (fst m) (snd m) sym (1, 1)) as H3.
  pose proof (window_counts g (fst m) (snd m) sym (1, -1)) as H4.
  lia.
Qed.

Lemma free_neighbours_bounds (g : Gomoku) (m : Move) :
  0 <= free_neighbours g m <= 8.
Proof.
  unfold free_neighbours.
  destruct (count_cells_bounds g (fun s => String.eqb s ".")
              (fun s => String.eqb s ".")
              (List.filter (fun q : Move => in_bounds g (fst q) (snd q))
                 (map (fun d : Z * Z => (fst m + fst d, snd m + snd d))
                    directions8))) as [H5 H6]; [tauto|].
  pose proof (List.filter_length_le
                (fun q : Move => in_bounds g (fst q) (snd q))
                (map (fun d : Z * Z => (fst m + fst d, snd m + snd d))
                   directions8)) as H7.
  rewrite length_map in H7. change (length directions8) with 8%nat in H7.
  apply Nat2Z.inj_le in H7. change (Z.of_nat 8) with 8 in H7.
  split; [apply H5|]. etransitivity; [exact H6|exact H7].
Qed.

Lemma alignment_centre (g : Gomoku) (row col : Z) (sym : string) :
  in_bounds g row col = true -> cell (board g) row col = sym ->
  1 <= win_length g -> 4 <= own_alignment g sym (row, col).
Proof.
  intros Hin Hcell Hw. unfold own_alignment, directions4.
  cbn [map sumZ fold_right fst snd].
  pose proof (window_count_centre g row col sym (1, 0) Hin Hcell Hw).
  pose proof (window_count_centre g row col sym (0, 1) Hin Hcell Hw).
  pose proof (window_count_centre g row col sym (1, 1) Hin Hcell Hw).
  pose proof (window_count_centre g row col sym (1, -1) Hin Hcell Hw).
  lia.
Qed.

(** X9: the terms of the evaluator are bounded.  The alignment count of a
    cell is between 0 and its extension count, which is at most
    [4 * (2 * win_length - 1)]; the count of free neighbours is between 0
    and 8; and the alignment count of a cell holding the mark is at least 4
    when [win_length >= 1], the cell itself being met once on each of the
    four axes. *)
Theorem evaluator_terms_bounded (g : Gomoku) (row col : Z) (sym : string) :
  0 <= count_aligned g row col sym <= potential_extension g row col sym /\
  potential_extension g row col sym <= 4 * Z.max 0 (2 * win_length g - 1) /\
  0 <= count_adjacent_spaces g row col <= 8 /\
  (in_bounds g row col = true -> cell (board g) row col = sym ->
   1 <= win_length g -> 4 <= count_aligned g row col sym).
Proof.
  rewrite count_aligned_formula, potential_extension_formula,
    count_adjacent_spaces_formula.
  destruct (alignment_extension_bounds g sym (row, col)) as [H1 H2].
  split; [exact H1|]. split; [exact H2|].
  split; [apply free_neighbours_bounds|apply alignment_centre].
Qed.

Lemma evaluator_terms_bounded_witness :
  4 <= count_aligned (assign (init 15 5 2) 7 7 "X") 7 7 "X".
Proof.
  destruct (evaluator_terms_bounded (assign (init 15 5 2) 7 7 "X") 7 7 "X")
    as (_ & _ & _ & H).
  apply H; [reflexivity|reflexivity|simpl; lia].
Defined.

Lemma sumZ_nonneg {B : Type} (f : B -> Z) (l : list B) :
  (forall x, In x l -> 0 <= f x) -> 0 <= sumZ (map f l).
Proof.
  induction l as [|x l IH]; intros H; simpl; [lia|].
  pose proof (H x (or_introl eq_refl)).
  assert (0 <= sumZ (map f l)) by (apply IH; intros y Hy; apply H; right; exact Hy).
  lia.
Qed.

Lemma sumZ_lower {B : Type} (f : B -> Z) (l : list B) (k : Z) :
  (forall x, In x l -> k <= f x) -> k * Z.of_nat (length l) <= sumZ (map f l).
Proof.
  induction l as [|x l IH]; intros H; cbn [map sumZ fold_right length]; [lia|].
  pose proof (H x (or_introl eq_refl)).
  assert (k * Z.of_nat (length l) <= sumZ (map f l))
    by (apply IH; intros y Hy; apply H; right; exact Hy).
  unfold sumZ in *. lia.
Qed.

(** X10: the sign of the evaluation.  With no cell of the opponent's mark
    on the board the score is at least 8 per own stone (4 for alignment, 4
    for extension) when [win_length >= 1], hence never negative; with no
    cell of the own mark it is never positive. *)
Theorem evaluate_board_sign (g : Gomoku) (sym : string) :
  ((forall row col, in_bounds g row col = true ->
      cell (board g) row col <> opponent_of sym) ->
   1 <= win_length g ->
   8 * Z.of_nat (length (List.filter (holds g sym) (cells (board_size g))))
     <= evaluate_board g sym) /\
  ((forall row col, in_bounds g row col = true ->
      cell (board g) row col <> sym) ->
   evaluate_board g sym <= 0).
Proof.
  rewrite evaluate_board_sum. unfold evaluate_formula. split.
  - intros Hnone Hw.
    rewrite (filter_none (holds g (opponent_of sym))).
    + cbn [map sumZ fold_right]. rewrite Z.sub_0_r.
      apply sumZ_lower. intros m Hm. apply filter_In in Hm as [Hm Hholds].
      apply In_cells in Hm. unfold holds in Hholds.
      apply String.eqb_eq in Hholds.
      destruct (alignment_extension_bounds g sym m) as [H1 H2].
      pose proof (free_neighbours_bounds g m) as H3.
      assert (H4 : 4 <= own_alignment g sym m).
      { destruct m as [row col].
        apply alignment_centre; [apply in_bounds_spec; exact Hm|exact Hholds|exact Hw]. }
      unfold center_bonus. lia.
    + intros m Hm. apply In_cells in Hm. unfold holds.
      apply String.eqb_neq. apply Hnone. apply in_bounds_spec. exact Hm.
  - intros Hnone.
    rewrite (filter_none (holds g sym)).
    + cbn [map sumZ fold_right].
      assert (0 <= sumZ (map (own_alignment g (opponent_of sym))
                           (List.filter (holds g (opponent_of sym))
                              (cells (board_size g))))).
      { apply sumZ_nonneg. intros m _.
        apply (alignment_extension_bounds g (opponent_of sym) m). }
      lia.
    + intros m Hm. apply In_cells in Hm. unfold holds.
      apply String.eqb_neq. apply Hnone. apply in_bounds_spec. exact Hm.
Qed.

Lemma evaluate_board_sign_witness :
  8 * 1 <= evaluate_board (assign (init 3 3 2) 1 1 "X") "X" /\
  evaluate_board (assign (init 3 3 2) 1 1 "X") "O" <= 0 - 0.
Proof.
  destruct (evaluate_board_sign (assign (init 3 3 2) 1 1 "X") "X") as [Hpos _].
  destruct (evaluate_board_sign (assign (init 3 3 2) 1 1 "X") "O") as [_ Hneg].
  split.
  - apply Hpos; [|simpl; lia].
    intros row col Hin. apply in_bounds_spec in Hin. simpl in Hin.
    assert (Hr : row = 0 \/ row = 1 \/ row = 2) by lia.
    assert (Hc : col = 0 \/ col = 1 \/ col = 2) by lia.
    destruct Hr as [->|[->| ->]], Hc as [->|[->| ->]]; discriminate.
  - apply Hneg.
    intros row col Hin. apply in_bounds_spec in Hin. simpl in Hin.
    assert (Hr : row = 0 \/ row = 1 \/ row = 2) by lia.
    assert (Hc : col = 0 \/ col = 1 \/ col = 2) by lia.
    destruct Hr as [->|[->| ->]], Hc as [->|[->| ->]]; discriminate.
Defined.

(** * Further properties of the strategies *)

(** ** The move a strategy returns is a valid move *)

Lemma greedy_ai_valid (g : Gomoku) (sym : string) (m : Move) :
  fst (greedy_ai g sym) = Some m -> is_valid_move g (fst m) (snd m) = true.
Proof.
  rewrite greedy_ai_scan. cbn [fst]. intros H.
  destruct (valid_moves g) as [|m0 l] eqn:Hl; [discriminate|].
  destruct (scan_max_first_maximal (lookahead g sym) (m0 :: l))
    as (m' & Hfold & before & after & Hm & _); [discriminate|].
  rewrite Hfold in H. injection H as <-.
  apply In_valid_moves. rewrite Hl, Hm. apply in_elt.
Qed.

Lemma worst_ai_valid (g : Gomoku) (sym : string) (m : Move) :
  fst (worst_ai g sym) = Some m -> is_valid_move g (fst m) (snd m) = true.
Proof.
  rewrite worst_ai_scan. cbn [fst]. intros H.
  destruct (valid_moves g) as [|m0 l] eqn:Hl; [discriminate|].
  destruct (scan_min_first_minimal (lookahead g sym) (m0 :: l))
    as (m' & Hfold & before & after & Hm & _); [discriminate|].
  rewrite Hfold in H. injection H as <-.
  apply In_valid_moves. rewrite Hl, Hm. apply in_elt.
Qed.

Lemma random_ai_valid (rand : nat -> nat) (g : Gomoku) (m : Move) :
  random_ai rand g = Some m -> is_valid_move g (fst m) (snd m) = true.
Proof.
  unfold random_ai. destruct (valid_moves g) as [|m0 l] eqn:Hl; [discriminate|].
  intros H. apply In_valid_moves. rewrite Hl.
  apply list_elem_of_In, list_elem_of_lookup. eauto.
Qed.

Lemma sweep_cols_valid (clock : nat -> Z) (depth : Z) (sym opp : string)
    (start row : Z) (cols : list Z) (s r : option Move * ext) (w w' : World) :
  (forall m, fst s = Some m -> is_valid_move (self w) (fst m) (snd m) = true) ->
  for_loop (no_break (sweep_cell clock depth sym opp start row)) cols s w
    = Some (r, w') ->
  forall m, fst r = Some m -> is_valid_move (self w) (fst m) (snd m) = true.
Proof.
  revert s w. induction cols as [|col cols IH]; intros [cm cs] w Hs;
    cbn [for_loop].
  - intros [= <- _]. exact Hs.
  - unfold no_break at 1. unfold sweep_cell at 1.
    destruct (is_valid_move (self w) row col) eqn:Hv.
    + destruct (minimax _ _ _ _ _ _ _ _ _ _) as [[v w2]|] eqn:Hc; [|discriminate].
      pose proof (minimax_frame _ _ _ _ _ _ _ _ _ _ _ _ Hc) as Hf.
      pose proof (frame_place_retract _ _ _ _ _ Hv Hf) as [Hsame _].
      destruct (ext_lt cs v); intros Hrest m Hm;
        rewrite <- (is_valid_move_same _ _ _ _ Hsame);
        refine (IH _ _ _ Hrest m Hm).
      * intros m0 [= <-]. rewrite (is_valid_move_same _ _ _ _ Hsame). exact Hv.
      * intros m0 Hm0. rewrite (is_valid_move_same _ _ _ _ Hsame).
        apply Hs, Hm0.
    + intros Hrest. apply (IH _ _ Hs Hrest).
Qed.

Lemma sweep_rows_valid (clock : nat -> Z) (depth : Z) (sym opp : string)
    (start : Z) (rows : list Z) (s r : option Move * ext) (w w' : World) :
  (forall m, fst s = Some m -> is_valid_move (self w) (fst m) (snd m) = true) ->
  for_loop
    (no_break (fun row s1 w1 =>
       for_loop (no_break (sweep_cell clock depth sym opp start row))
         (range (board_size (self w1))) s1 w1))
    rows s w = Some (r, w') ->
  forall m, fst r = Some m -> is_valid_move (self w) (fst m) (snd m) = true.
Proof.
  revert s w. induction rows as [|row rows IH]; intros s w Hs; cbn [for_loop].
  - intros [= <- _]. exact Hs.
  - unfold no_break at 1.
    destruct (for_loop _ (range _) s w) as [[s1 w1]|] eqn:Hrow; [|discriminate].
    intros Hrest m Hm.
    assert (Hsame : same_game (self w) (self w1)).
    { eapply for_loop_frame; [|exact Hrow].
      apply no_break_frame. intros x s2 w2 r2 w3. apply sweep_cell_frame. }
    rewrite <- (is_valid_move_same _ _ _ _ Hsame).
    eapply (IH s1 w1); [|exact Hrest|exact Hm].
    intros m0 Hm0. rewrite (is_valid_move_same _ _ _ _ Hsame).
    exact (sweep_cols_valid _ _ _ _ _ _ _ _ _ _ _ Hs Hrow m0 Hm0).
Qed.

Lemma sweep_valid (clock : nat -> Z) (depth : Z) (sym opp : string)
    (start : Z) (r : option Move * ext) (w w' : World) :
  sweep clock depth sym opp start w = Some (r, w') ->
  forall m, fst r = Some m -> is_valid_move (self w) (fst m) (snd m) = true.
Proof.
  unfold sweep. apply sweep_rows_valid. discriminate.
Qed.

Lemma deepening_loop_valid (clock : nat -> Z) (n : nat) (sym opp : string)
    (start : Z) (bm : option Move) (bs : ext) (depth : Z)
    (w : World) (res : option Move) (w' : World) :
  (forall m, bm = Some m -> is_valid_move (self w) (fst m) (snd m) = true) ->
  deepening_loop clock n sym opp start bm bs depth w = Some (res, w') ->
  forall m, res = Some m -> is_valid_move (self w) (fst m) (snd m) = true.
Proof.
  revert bm bs depth w.
  induction n as [|n IH]; intros bm bs depth w Hbm; cbn [deepening_loop];
    [discriminate|].
  unfold time_time at 1. cbn [self].
  destruct (clock (ticks w) - start <? ai_time_limit (self w)).
  - destruct (sweep _ _ _ _ _ _) as [[[cm cs] w2]|] eqn:Hs; [|discriminate].
    pose proof (sweep_frame _ _ _ _ _ _ _ _ Hs) as [Hsame _].
    cbn [self] in Hsame.
    pose proof (sweep_valid _ _ _ _ _ _ _ _ Hs) as Hcm. cbn [fst self] in Hcm.
    destruct cm as [m1|]; intros Hrest m Hm;
      rewrite <- (is_valid_move_same _ _ _ _ Hsame);
      eapply IH; [|exact Hrest|exact Hm| |exact Hrest|exact Hm].
    + intros m0 Hm0. rewrite (is_valid_move_same _ _ _ _ Hsame).
      apply Hcm, Hm0.
    + intros m0 Hm0. rewrite (is_valid_move_same _ _ _ _ Hsame).
      apply Hbm, Hm0.
  - intros [= <- _]. exact Hbm.
Qed.

Lemma iterative_deepening_valid (clock : nat -> Z) (n : nat)
    (sym opp : string) (w : World) (res : option Move) (w' : World) :
  iterative_deepening clock n sym opp w = Some (res, w') ->
  forall m, res = Some m -> is_valid_move (self w) (fst m) (snd m) = true.
Proof.
  unfold iterative_deepening, time_time. intros H.
  refine (deepening_loop_valid _ _ _ _ _ _ _ _ _ _ _ _ H). discriminate.
Qed.

(** ** The node counter never goes down *)

Lemma for_loop_rel {S : Type} (R : World -> World -> Prop)
    (body : Z -> S -> M (S * bool)) (items : list Z) (s r : S) (w w' : World) :
  (forall w0, R w0 w0) ->
  (forall w1 w2 w3, R w1 w2 -> R w2 w3 -> R w1 w3) ->
  (forall x s1 w1 r1 w2, body x s1 w1 = Some (r1, w2) -> R w1 w2) ->
  for_loop body items s w = Some (r, w') -> R w w'.
Proof.
  intros Hrefl Htrans Hbody. revert s w.
  induction items as [|x items IH]; intros s w; cbn [for_loop].
  - intros [= _ <-]. apply Hrefl.
  - destruct (body x s w) as [[[s1 brk] w1]|] eqn:Hb; [|discriminate].
    apply Hbody in Hb. destruct brk.
    + intros [= _ <-]. exact Hb.
    + intros Hrest. apply IH in Hrest. eapply Htrans; eassumption.
Qed.

Lemma no_break_rel {S : Type} (R : World -> World -> Prop)
    (body : Z -> S -> M S) :
  (forall x s1 w1 r1 w2, body x s1 w1 = Some (r1, w2) -> R w1 w2) ->
  forall x s1 w1 r1 w2, no_break body x s1 w1 = Some (r1, w2) -> R w1 w2.
Proof.
  intros Hbody x s1 w1 r1 w2. unfold no_break.
  destruct (body x s1 w1) as [[s2 w3]|] eqn:Hb; [|discriminate].
  intros [= _ <-]. eapply Hbody, Hb.
Qed.

Lemma rows_counter {S : Type} (cell_body : Z -> Z -> S -> M (S * bool))
    (rows : list Z) (s r : S) (w w' : World) :
  (forall row col s1 w1 r1 w2,
     cell_body row col s1 w1 = Some (r1, w2) ->
     nodes_expanded (self w1) <= nodes_expanded (self w2)) ->
  for_loop
    (no_break (fun row s1 w1 =>
       for_loop (cell_body row) (range (board_size (self w1))) s1 w1))
    rows s w = Some (r, w') ->
  nodes_expanded (self w) <= nodes_expanded (self w').
Proof.
  intros Hcell.
  apply (for_loop_rel
           (fun w1 w2 => nodes_expanded (self w1) <= nodes_expanded (self w2)));
    [intros; lia|intros; lia|].
  apply no_break_rel. intros row s1 w1 r1 w2.
  apply (for_loop_rel
           (fun w3 w4 => nodes_expanded (self w3) <= nodes_expanded (self w4)));
    [intros; lia|intros; lia|].
  apply Hcell.
Qed.

Lemma max_cell_counter (child : ext -> ext -> M ext) (sym : string) (beta : ext)
    (row col : Z) (s : ext * ext) (r : ext * ext * bool) (w w' : World) :
  (forall a b w1 v w2, child a b w1 = Some (v, w2) ->
     nodes_expanded (self w1) <= nodes_expanded (self w2)) ->
  max_cell child sym beta row col s w = Some (r, w') ->
  nodes_expanded (self w) <= nodes_expanded (self w').
Proof.
  intros Hchild. unfold max_cell. destruct s as [best alpha].
  destruct (is_valid_move (self w) row col).
  - destruct (child alpha beta (place w row col sym)) as [[v w2]|] eqn:Hc;
      [|discriminate].
    apply Hchild in Hc. cbn in Hc.
    destruct (ext_le beta (ext_max alpha v)); intros [= _ <-]; cbn; lia.
  - intros [= _ <-]. lia.
Qed.

Lemma min_cell_counter (child : ext -> ext -> M ext) (opp : string) (alpha : ext)
    (row col : Z) (s : ext * ext) (r : ext * ext * bool) (w w' : World) :
  (forall a b w1 v w2, child a b w1 = Some (v, w2) ->
     nodes_expanded (self w1) <= nodes_expanded (self w2)) ->
  min_cell child opp alpha row col s w = Some (r, w') ->
  nodes_expanded (self w) <= nodes_expanded (self w').
Proof.
  intros Hchild. unfold min_cell. destruct s as [best beta].
  destruct (is_valid_move (self w) row col).
  - destruct (child alpha beta (place w row col opp)) as [[v w2]|] eqn:Hc;
      [|discriminate].
    apply Hchild in Hc. cbn in Hc.
    destruct (ext_le (ext_min beta v) alpha); intros [= _ <-]; cbn; lia.
  - intros [= _ <-]. lia.
Qed.

Lemma minimax_counter (clock : nat -> Z) (fuel : nat) (depth : Z)
    (alpha beta : ext) (mx : bool) (sym opp : string) (start : Z)
    (w : World) (v : ext) (w' : World) :
  minimax clock fuel depth alpha beta mx sym opp start w = Some (v, w') ->
  nodes_expanded (self w) <= nodes_expanded (self w').
Proof.
  revert depth alpha beta mx w v w'.
  induction fuel as [|fuel IH]; intros depth alpha beta mx w v w';
    cbn [minimax]; [discriminate|].
  destruct ((depth =? 0) || is_full (self w)).
  { intros [= _ <-]. lia. }
  unfold time_time. cbn [self].
  destruct (clock (ticks w) - start >? ai_time_limit (self w)).
  { intros [= _ <-]. cbn. lia. }
  destruct mx.
  - destruct (scan_rows _ _ _) as [[[best a] w2]|] eqn:Hscan; [|discriminate].
    intros [= _ <-]. unfold scan_rows in Hscan.
    apply rows_counter in Hscan; [exact Hscan|].
    intros row col s1 w3 r1 w4. apply max_cell_counter.
    intros a0 b0 w5 v0 w6. apply IH.
  - destruct (scan_rows _ _ _) as [[[best b] w2]|] eqn:Hscan; [|discriminate].
    intros [= _ <-]. unfold scan_rows in Hscan.
    apply rows_counter in Hscan; [exact Hscan|].
    intros row col s1 w3 r1 w4. apply min_cell_counter.
    intros a0 b0 w5 v0 w6. apply IH.
Qed.

Lemma sweep_counter (clock : nat -> Z) (depth : Z) (sym opp : string)
    (start : Z) (r : option Move * ext) (w w' : World) :
  sweep clock depth sym opp start w = Some (r, w') ->
  nodes_expanded (self w) <= nodes_expanded (self w').
Proof.
  unfold sweep. apply rows_counter.
  intros row col s1 w1 r1 w2. unfold no_break, sweep_cell.
  destruct s1 as [cm cs]. destruct (is_valid_move (self w1) row col).
  - destruct (minimax _ _ _ _ _ _ _ _ _ _) as [[v w3]|] eqn:Hc; [|discriminate].
    apply minimax_counter in Hc. cbn in Hc.
    destruct (ext_lt cs v); intros [= _ <-]; cbn; lia.
  - intros [= _ <-]. lia.
Qed.

Lemma deepening_loop_counter (clock : nat -> Z) (n : nat) (sym opp : string)
    (start : Z) (bm : option Move) (bs : ext) (depth : Z)
    (w : World) (res : option Move) (w' : World) :
  deepening_loop clock n sym opp start bm bs depth w = Some (res, w') ->
  nodes_expanded (self w) <= nodes_expanded (self w').
Proof.
  revert bm bs depth w.
  induction n as [|n IH]; intros bm bs depth w; cbn [deepening_loop];
    [discriminate|].
  unfold time_time at 1. cbn [self].
  destruct (clock (ticks w) - start <? ai_time_limit (self w)).
  - destruct (sweep _ _ _ _ _ _) as [[[cm cs] w2]|] eqn:Hs; [|discriminate].
    apply sweep_counter in Hs. cbn [self] in Hs.
    destruct cm; intros Hrest; apply IH in Hrest; lia.
  - intros [= _ <-]. cbn. lia.
Qed.

Lemma world_eta (w : World) : mkWorld (self w) (ticks w) = w.
Proof. destruct w; reflexivity. Qed.

(** What every branch of [get_ai_move] keeps. *)
Lemma get_ai_move_sound (clock : nat -> Z) (rand : nat -> nat) (n : nat)
    (player opponent : Player) (w : World) (res : option Move) (w' : World) :
  get_ai_move clock rand n player opponent w = Some (res, w') ->
  frame w w' /\
  nodes_expanded (self w) <= nodes_expanded (self w') /\
  (ai_type player <> Some "expert" -> w' = w) /\
  (forall m, res = Some m -> is_valid_move (self w) (fst m) (snd m) = true).
Proof.
  intros Hrun. unfold get_ai_move in Hrun.
  destruct (decide (ai_type player = Some "random")) as [_|_].
  { injection Hrun as <- <-.
    split; [apply frame_refl|]. split; [lia|]. split; [reflexivity|].
    intros m. apply random_ai_valid. }
  destruct (decide (ai_type player = Some "greedy")) as [_|_].
  { pose proof (greedy_ai_scan (self w) (symbol player)) as Hg.
    pose proof (greedy_ai_valid (self w) (symbol player)) as Hv.
    destruct (greedy_ai (self w) (symbol player)) as [m g'].
    injection Hg as Hm ->. injection Hrun as <- <-. rewrite world_eta.
    split; [apply frame_refl|]. split; [lia|]. split; [reflexivity|].
    exact Hv. }
  destruct (decide (ai_type player = Some "worst")) as [_|_].
  { pose proof (worst_ai_scan (self w) (symbol opponent)) as Hg.
    pose proof (worst_ai_valid (self w) (symbol opponent)) as Hv.
    destruct (worst_ai (self w) (symbol opponent)) as [m g'].
    injection Hg as Hm ->. injection Hrun as <- <-. rewrite world_eta.
    split; [apply frame_refl|]. split; [lia|]. split; [reflexivity|].
    exact Hv. }
  destruct (decide (ai_type player = Some "expert")) as [He|_].
  { split; [exact (iterative_deepening_frame _ _ _ _ _ _ _ Hrun)|].
    split; [|split; [congruence|]].
    - unfold iterative_deepening, time_time in Hrun.
      apply deepening_loop_counter in Hrun. exact Hrun.
    - exact (iterative_deepening_valid _ _ _ _ _ _ _ Hrun). }
  injection Hrun as <- <-.
  split; [apply frame_refl|]. split; [lia|]. split; [reflexivity|].
  discriminate.
Qed.

(** X11: whatever the type of the player, the clock and the draws, a move
    returned by [get_ai_move] is a valid move of the board, which is given
    back as it was found, so the [make_move] that follows succeeds; on a
    full board the answer is [None]; the node counter never goes down, and
    only the type ['expert'] touches the counter or reads the clock. *)
Theorem get_ai_move_legal (clock : nat -> Z) (rand : nat -> nat) (n : nat)
    (player opponent : Player) (w : World) (res : option Move) (w' : World) :
  get_ai_move clock rand n player opponent w = Some (res, w') ->
  board (self w') = board (self w) /\
  nodes_expanded (self w) <= nodes_expanded (self w') /\
  (ai_type player <> Some "expert" -> w' = w) /\
  (is_full (self w) = true -> res = None) /\
  (forall m, res = Some m ->
     is_valid_move (self w') (fst m) (snd m) = true /\
     make_move (self w') player (fst m) (snd m)
       = (true, assign (self w') (fst m) (snd m) (symbol player))).
Proof.
  intros Hrun.
  destruct (get_ai_move_sound _ _ _ _ _ _ _ _ Hrun)
    as ([Hsame _] & Hcount & Hsimple & Hvalid).
  split; [apply Hsame|]. split; [exact Hcount|]. split; [exact Hsimple|].
  split.
  - intros Hfull. destruct res as [m|]; [|reflexivity].
    specialize (Hvalid m eq_refl).
    rewrite (full_no_valid _ (fst m) (snd m) Hfull) in Hvalid. discriminate.
  - intros m Hm. specialize (Hvalid m Hm).
    rewrite <- (is_valid_move_same _ _ (fst m) (snd m) Hsame) in Hvalid.
    split; [exact Hvalid|]. unfold make_move. rewrite Hvalid. reflexivity.
Qed.

Lemma get_ai_move_legal_witness :
  is_valid_move
    (mkGomoku 3 3 3 [["."; "."; "."]; ["."; "."; "."]; ["."; "."; "."]] 8)
    1 1 = true /\
  0 <= 8.
Proof.
  destruct (get_ai_move_legal Z.of_nat (fun _ => 0%nat) 5
              (mkPlayer "X" (Some "expert")) (mkPlayer "O" None)
              (mkWorld (init 3 3 3) 0) (Some (1, 1))
              (mkWorld
                 (mkGomoku 3 3 3
                    [["."; "."; "."]; ["."; "."; "."]; ["."; "."; "."]] 8) 13))
    as (_ & Hcount & _ & _ & Hmove).
  - vm_compute. reflexivity.
  - split; [apply (Hmove (1, 1) eq_refl)|exact Hcount].
Defined.

(** ** The first sweep of the expert is the greedy strategy *)

Lemma place_retract (w : World) (row col : Z) (s : string) :
  is_valid_move (self w) row col = true ->
  place (place w row col s) row col "." = w.
Proof.
  intros Hv. unfold place. cbn [self ticks].
  fold (retract (assign (self w) row col s) row col).
  rewrite (retract_assign _ _ _ _ Hv). apply world_eta.
Qed.

Lemma sweep_one_cols (clock : nat -> Z) (sym opp : string) (start row : Z)
    (cols : list Z) (s : option Move * ext) (w : World) :
  for_loop (no_break (sweep_cell clock 1 sym opp start row)) cols s w
  = Some (fold_left
            (scan_step ext_lt (fun m => Fin (lookahead (self w) sym m)))
            (List.filter (fun m => is_valid_move (self w) (fst m) (snd m))
               (map (pair row) cols)) s, w).
Proof.
  revert s. induction cols as [|col cols IH]; intros [cm cs]; [reflexivity|].
  rewrite filter_valid_row, fold_left_app. cbn [for_loop].
  unfold no_break at 1, sweep_cell at 1.
  destruct (is_valid_move (self w) row col) eqn:Hv.
  - change (Z.to_nat 1) with 1%nat. change (1 - 1) with 0. cbn [minimax].
    change (0 =? 0) with true. cbn [orb].
    rewrite (place_retract _ _ _ _ Hv).
    cbn [fold_left]. unfold scan_step at 2. cbn [snd].
    unfold lookahead at 2 3. cbn [fst snd place self].
    destruct (ext_lt cs _); apply IH.
  - cbn [fold_left]. apply IH.
Qed.

Lemma sweep_one_rows (clock : nat -> Z) (sym opp : string) (start : Z)
    (rows : list Z) (s : option Move * ext) (w : World) :
  for_loop
    (no_break (fun row s1 w1 =>
       for_loop (no_break (sweep_cell clock 1 sym opp start row))
         (range (board_size (self w1))) s1 w1))
    rows s w
  = Some (fold_left
            (scan_step ext_lt (fun m => Fin (lookahead (self w) sym m)))
            (List.filter (fun m => is_valid_move (self w) (fst m) (snd m))
               (list_prod rows (range (board_size (self w))))) s, w).
Proof.
  revert s. induction rows as [|row rows IH]; intros s; [reflexivity|].
  rewrite filter_list_prod_cons, fold_left_app. cbn [for_loop].
  unfold no_break at 1. rewrite sweep_one_cols. apply IH.
Qed.

Lemma sweep_one (clock : nat -> Z) (sym opp : string) (start : Z) (w : World) :
  exists score,
    sweep clock 1 sym opp start w
    = Some ((fst (greedy_ai (self w) sym), score), w).
Proof.
  unfold sweep. rewrite sweep_one_rows, greedy_ai_scan.
  unfold valid_moves, cells. cbn [fst].
  destruct (fold_left _ _ _) as [m score]. exists score. reflexivity.
Qed.

(** X12: the first sweep of [iterative_deepening], at depth 1, is
    [greedy_ai]: it selects the same move, reads no clock and counts no
    node.  So when the deadline falls between the second and the third
    reading of the clock, the expert returns the greedy move after three
    readings, the object being as it was. *)
Theorem first_sweep_is_greedy (clock : nat -> Z) (sym opp : string)
    (w : World) :
  (forall start, exists score,
     sweep clock 1 sym opp start w
     = Some ((fst (greedy_ai (self w) sym), score), w)) /\
  (forall n,
     clock (S (ticks w)) - clock (ticks w) < ai_time_limit (self w) ->
     ai_time_limit (self w) <= clock (S (S (ticks w))) - clock (ticks w) ->
     iterative_deepening clock (S (S n)) sym opp w
     = Some (fst (greedy_ai (self w) sym),
             mkWorld (self w) (S (S (S (ticks w)))))).
Proof.
  split; [intros start; apply sweep_one|].
  intros n Hearly Hlate.
  unfold iterative_deepening, time_time. cbn [deepening_loop].
  unfold time_time at 1. cbn [self ticks].
  destruct (Z.ltb_spec (clock (S (ticks w)) - clock (ticks w))
              (ai_time_limit (self w))) as [_|H]; [|lia].
  destruct (sweep_one clock sym opp (clock (ticks w))
              (mkWorld (self w) (S (S (ticks w))))) as [score ->].
  cbn [self].
  assert (Hstop : forall bm bs,
             deepening_loop clock (S n) sym opp (clock (ticks w)) bm bs (1 + 1)
               (mkWorld (self w) (S (S (ticks w))))
             = Some (bm, mkWorld (self w) (S (S (S (ticks w)))))).
  { intros bm bs. cbn [deepening_loop]. unfold time_time. cbn [self ticks].
    destruct (Z.ltb_spec (clock (S (S (ticks w))) - clock (ticks w))
                (ai_time_limit (self w))) as [H|_]; [lia|reflexivity]. }
  destruct (fst (greedy_ai (self w) sym)); apply Hstop.
Qed.

Lemma first_sweep_is_greedy_witness :
  iterative_deepening Z.of_nat 2 "X" "O" (mkWorld (ox_game 2) 0)
  = Some (fst (greedy_ai (ox_game 2) "X"), mkWorld (ox_game 2) 3).
Proof.
  apply (proj2 (first_sweep_is_greedy Z.of_nat "X" "O" (mkWorld (ox_game 2) 0))
           0%nat); simpl; lia.
Defined.

(** ** The second sweep counts every grandchild *)

Lemma ext_le_NegInf (x : ext) : x <> NegInf -> ext_le x NegInf = false.
Proof. destruct x; [congruence|reflexivity|reflexivity]. Qed.

Lemma ext_min_not_NegInf (b : ext) (z : Z) :
  b <> NegInf -> ext_min b (Fin z) <> NegInf.
Proof.
  intros Hb. unfold ext_min. destruct (ext_lt (Fin z) b); [discriminate|exact Hb].
Qed.

Lemma minimax_leaf (clock : nat -> Z) (fuel : nat) (a b : ext) (mx : bool)
    (sym opp : string) (start : Z) (w : World) :
  minimax clock (S fuel) 0 a b mx sym opp start w
  = Some (Fin (evaluate_board (self w) sym), w).
Proof. reflexivity. Qed.

Lemma filter_valid_same (g g' : Gomoku) (l : list (Z * Z)) :
  same_game g g' ->
  List.filter (fun m : Z * Z => is_valid_move g' (fst m) (snd m)) l
  = List.filter (fun m : Z * Z => is_valid_move g (fst m) (snd m)) l.
Proof.
  intros Hsame. apply List.filter_ext. intros m.
  apply is_valid_move_same, Hsame.
Qed.

(** A minimizing node over leaves, entered with [alpha = -inf], is never
    cut: every valid cell is counted. *)
Lemma min_leaf_cols (clock : nat -> Z) (sym opp : string) (start row : Z)
    (cols : list Z) (s : ext * ext) (w : World) :
  snd s <> NegInf ->
  exists r w',
    for_loop
      (min_cell (fun a b => minimax clock 1 0 a b true sym opp start)
         opp NegInf row) cols s w = Some (r, w') /\
    snd r <> NegInf /\
    same_game (self w) (self w') /\ ticks w' = ticks w /\
    nodes_expanded (self w')
    = nodes_expanded (self w)
      + Z.of_nat (length (List.filter
                            (fun m : Z * Z => is_valid_move (self w) (fst m) (snd m))
                            (map (pair row) cols))).
Proof.
  revert s w. induction cols as [|col cols IH]; intros [best beta] w Hb.
  - exists (best, beta), w. cbn [for_loop map List.filter length].
    split; [reflexivity|]. split; [exact Hb|].
    split; [apply same_game_refl|]. split; [reflexivity|]. cbn. lia.
  - rewrite filter_valid_row. cbn [for_loop]. unfold min_cell at 1.
    destruct (is_valid_move (self w) row col) eqn:Hv.
    + cbv beta. rewrite minimax_leaf, (place_retract _ _ _ _ Hv).
      cbn [snd] in Hb.
      rewrite (ext_le_NegInf _ (ext_min_not_NegInf beta _ Hb)).
      destruct (IH (ext_min best
                      (Fin (evaluate_board (self (place w row col opp)) sym)),
                    ext_min beta
                      (Fin (evaluate_board (self (place w row col opp)) sym)))
                  (bump w))
        as (r & w' & Hrun & Hr & Hsame & Ht & Hn).
      { apply ext_min_not_NegInf, Hb. }
      exists r, w'. split; [exact Hrun|]. split; [exact Hr|].
      pose proof (frame_bump w) as [Hbump _].
      split; [exact (same_game_trans _ _ _ Hbump Hsame)|].
      split; [exact Ht|].
      rewrite Hn, (filter_valid_same _ _ _ Hbump).
      cbn [app length bump self nodes_expanded]. lia.
    + destruct (IH (best, beta) w Hb) as (r & w' & Hrun & Hrest).
      exists r, w'. split; [exact Hrun|exact Hrest].
Qed.

Lemma min_leaf_rows (clock : nat -> Z) (sym opp : string) (start : Z)
    (rows : list Z) (s : ext * ext) (w : World) :
  snd s <> NegInf ->
  exists r w',
    for_loop
      (no_break (fun row s1 w1 =>
         for_loop
           (min_cell (fun a b => minimax clock 1 0 a b true sym opp start)
              opp NegInf row)
           (range (board_size (self w1))) s1 w1))
      rows s w = Some (r, w') /\
    snd r <> NegInf /\
    same_game (self w) (self w') /\ ticks w' = ticks w /\
    nodes_expanded (self w')
    = nodes_expanded (self w)
      + Z.of_nat (length (List.filter
                            (fun m : Z * Z => is_valid_move (self w) (fst m) (snd m))
                            (list_prod rows (range (board_size (self w)))))).
Proof.
  revert s w. induction rows as [|row rows IH]; intros s w Hb.
  - exists s, w. cbn [for_loop list_prod List.filter length].
    split; [reflexivity|]. split; [exact Hb|].
    split; [apply same_game_refl|]. split; [reflexivity|]. cbn. lia.
  - rewrite filter_list_prod_cons. cbn [for_loop]. unfold no_break at 1.
    destruct (min_leaf_cols clock sym opp start row
                (range (board_size (self w))) s w Hb)
      as (s1 & w1 & -> & Hs1 & Hsame1 & Ht1 & Hn1).
    destruct (IH s1 w1 Hs1) as (r & w' & Hrun & Hr & Hsame & Ht & Hn).
    exists r, w'. split; [exact Hrun|]. split; [exact Hr|].
    split; [exact (same_game_trans _ _ _ Hsame1 Hsame)|].
    split; [lia|].
    rewrite Hn, Hn1, (filter_valid_same _ _ _ Hsame1).
    destruct Hsame1 as (-> & _).
    rewrite length_app. lia.
Qed.

Lemma min_node_counts (clock : nat -> Z) (sym opp : string) (start : Z)
    (w : World) :
  is_full (self w) = false ->
  clock (ticks w) - start <= ai_time_limit (self w) ->
  exists v w',
    minimax clock 2 1 NegInf PosInf false sym opp start w = Some (v, w') /\
    same_game (self w) (self w') /\ ticks w' = S (ticks w) /\
    nodes_expanded (self w')
    = nodes_expanded (self w) + Z.of_nat (length (valid_moves (self w))).
Proof.
  intros Hfull Hclock. rewrite minimax_step. change (1 =? 0) with false.
  rewrite Hfull. cbn [orb]. unfold time_time. cbn [self].
  destruct (Z.gtb_spec (clock (ticks w) - start) (ai_time_limit (self w)))
    as [H|_]; [lia|].
  unfold scan_rows. change (1 - 1) with 0.
  destruct (min_leaf_rows clock sym opp start
              (range (board_size (self (mkWorld (self w) (S (ticks w))))))
              (PosInf, PosInf) (mkWorld (self w) (S (ticks w))))
    as ([best beta] & w' & Hrun & _ & Hsame & Ht & Hn); [discriminate|].
  rewrite Hrun. exists best, w'. split; [reflexivity|].
  cbn [self ticks] in *. split; [exact Hsame|]. split; [exact Ht|].
  exact Hn.
Qed.

Section SecondSweep.

Variable clock : nat -> Z.
Variables sym opp : string.
Variables start limit : Z.

Hypothesis sym_mark : sym <> ".".
Hypothesis unexpired : forall t, clock t - start <= limit.

Lemma sweep_two_cols (row : Z) (cols : list Z) (s : option Move * ext)
    (w : World) :
  wf (self w) -> ai_time_limit (self w) = limit ->
  exists r w',
    for_loop (no_break (sweep_cell clock 2 sym opp start row)) cols s w
      = Some (r, w') /\
    same_game (self w) (self w') /\
    ticks w'
    = (ticks w
       + length (List.filter
                   (fun m : Z * Z => is_valid_move (self w) (fst m) (snd m))
                   (map (pair row) cols))
         * (if (length (valid_moves (self w)) <=? 1)%nat then 0 else 1))%nat /\
    nodes_expanded (self w')
    = nodes_expanded (self w)
      + Z.of_nat (length (List.filter
                            (fun m : Z * Z => is_valid_move (self w) (fst m) (snd m))
                            (map (pair row) cols)))
        * (Z.of_nat (length (valid_moves (self w))) - 1).
Proof.
  revert s w. induction cols as [|col cols IH]; intros [cm cs] w Hwf Hlim.
  - exists (cm, cs), w. cbn [for_loop map List.filter length].
    split; [reflexivity|]. split; [apply same_game_refl|]. split; lia.
  - rewrite filter_valid_row. cbn [for_loop].
    unfold no_break at 1, sweep_cell at 1. cbv zeta.
    destruct (is_valid_move (self w) row col) eqn:Hv.
    + change (Z.to_nat 2) with 2%nat. change (2 - 1) with 1.
      pose proof (valid_moves_assign (self w) row col sym Hwf sym_mark Hv)
        as Hdrop.
      pose proof (wf_assign (self w) row col sym Hwf) as Hwf1.
      destruct (is_full (self (place w row col sym))) eqn:Hfull.
      * rewrite minimax_step, Hfull, orb_true_r. cbv beta iota.
        rewrite (place_retract _ _ _ _ Hv).
        apply (is_full_valid_moves _ Hwf1) in Hfull.
        cbn [place self] in Hfull. rewrite Hfull in Hdrop.
        cbn [length] in Hdrop.
        assert (Hrest : forall s1,
                  exists r w',
                    for_loop (no_break (sweep_cell clock 2 sym opp start row))
                      cols s1 w = Some (r, w') /\
                    same_game (self w) (self w') /\
                    ticks w'
                    = (ticks w
                       + length
                           ([(row, col)]
                            ++ List.filter
                                 (fun m : Z * Z =>
                                    is_valid_move (self w) (fst m) (snd m))
                                 (map (pair row) cols))
                         * (if (length (valid_moves (self w)) <=? 1)%nat
                            then 0 else 1))%nat /\
                    nodes_expanded (self w')
                    = nodes_expanded (self w)
                      + Z.of_nat
                          (length
                             ([(row, col)]
                              ++ List.filter
                                   (fun m : Z * Z =>
                                      is_valid_move (self w) (fst m) (snd m))
                                   (map (pair row) cols)))
                        * (Z.of_nat (length (valid_moves (self w))) - 1)).
        { intros s1. destruct (IH s1 w Hwf Hlim) as (r & w' & Hrun & Hsame & Ht & Hn).
          exists r, w'. split; [exact Hrun|]. split; [exact Hsame|].
          rewrite Ht, Hn, Hdrop. cbn [app length Nat.leb]. split; lia. }
        destruct (ext_lt cs _); apply Hrest.
      * destruct (min_node_counts clock sym opp start (place w row col sym)
                    Hfull)
          as (v & w2 & -> & Hsame2 & Ht2 & Hn2).
        { change (ai_time_limit (self (place w row col sym)))
            with (ai_time_limit (self w)).
          rewrite Hlim. apply unexpired. }
        assert (Hne : valid_moves (self (place w row col sym)) <> []).
        { intros H. apply (is_full_valid_moves _ Hwf1) in H.
          cbn [place self] in Hfull. congruence. }
        cbn [place self ticks nodes_expanded assign with_board] in Hn2, Ht2.
        assert (Hsame3 : same_game (self w) (self (place w2 row col "."))).
        { apply (frame_place_retract w w2 row col sym Hv).
          split; [exact Hsame2|]. cbn [place ticks]. lia. }
        assert (Hrest : forall s1,
                  exists r w',
                    for_loop (no_break (sweep_cell clock 2 sym opp start row))
                      cols s1 (place w2 row col ".") = Some (r, w') /\
                    same_game (self w) (self w') /\
                    ticks w'
                    = (ticks w
                       + length
                           ([(row, col)]
                            ++ List.filter
                                 (fun m : Z * Z =>
                                    is_valid_move (self w) (fst m) (snd m))
                                 (map (pair row) cols))
                         * (if (length (valid_moves (self w)) <=? 1)%nat
                            then 0 else 1))%nat /\
                    nodes_expanded (self w')
                    = nodes_expanded (self w)
                      + Z.of_nat
                          (length
                             ([(row, col)]
                              ++ List.filter
                                   (fun m : Z * Z =>
                                      is_valid_move (self w) (fst m) (snd m))
                                   (map (pair row) cols)))
                        * (Z.of_nat (length (valid_moves (self w))) - 1)).
        { intros s1.
          destruct (IH s1 (place w2 row col "."))
            as (r & w' & Hrun & Hsame & Ht & Hn).
          { exact (wf_same _ _ Hsame3 Hwf). }
          { destruct Hsame3 as (_ & _ & -> & _). exact Hlim. }
          exists r, w'. split; [exact Hrun|].
          split; [exact (same_game_trans _ _ _ Hsame3 Hsame)|].
          rewrite Ht, Hn, (filter_valid_same _ _ _ Hsame3),
            (valid_moves_same _ _ Hsame3).
          cbn [place self ticks nodes_expanded assign with_board app length].
          cbn [place self] in Hne.
          destruct (valid_moves (assign (self w) row col sym)) as [|m0 l0];
            [congruence|].
          cbn [length] in Hdrop, Hn2. rewrite Hdrop.
          cbn [Nat.leb]. split; lia. }
        destruct (ext_lt cs v); apply Hrest.
    + cbn [app]. apply IH; assumption.
Qed.

Lemma sweep_two_rows (rows : list Z) (s : option Move * ext) (w : World) :
  wf (self w) -> ai_time_limit (self w) = limit ->
  exists r w',
    for_loop
      (no_break (fun row s1 w1 =>
         for_loop (no_break (sweep_cell clock 2 sym opp start row))
           (range (board_size (self w1))) s1 w1))
      rows s w = Some (r, w') /\
    same_game (self w) (self w') /\
    ticks w'
    = (ticks w
       + length (List.filter
                   (fun m : Z * Z => is_valid_move (self w) (fst m) (snd m))
                   (list_prod rows (range (board_size (self w)))))
         * (if (length (valid_moves (self w)) <=? 1)%nat then 0 else 1))%nat /\
    nodes_expanded (self w')
    = nodes_expanded (self w)
      + Z.of_nat (length (List.filter
                            (fun m : Z * Z => is_valid_move (self w) (fst m) (snd m))
                            (list_prod rows (range (board_size (self w))))))
        * (Z.of_nat (length (valid_moves (self w))) - 1).
Proof.
  revert s w. induction rows as [|row rows IH]; intros s w Hwf Hlim.
  - exists s, w. cbn [for_loop list_prod List.filter length].
    split; [reflexivity|]. split; [apply same_game_refl|]. split; lia.
  - rewrite filter_list_prod_cons. cbn [for_loop]. unfold no_break at 1.
    destruct (sweep_two_cols row (range (board_size (self w))) s w Hwf Hlim)
      as (s1 & w1 & -> & Hsame1 & Ht1 & Hn1).
    destruct (IH s1 w1) as (r & w' & Hrun & Hsame & Ht & Hn).
    { exact (wf_same _ _ Hsame1 Hwf). }
    { destruct Hsame1 as (_ & _ & -> & _). exact Hlim. }
    exists r, w'. split; [exact Hrun|].
    split; [exact (same_game_trans _ _ _ Hsame1 Hsame)|].
    rewrite Ht, Hn, Ht1, Hn1, (filter_valid_same _ _ _ Hsame1),
      (valid_moves_same _ _ Hsame1).
    destruct Hsame1 as (-> & _).
    rewrite length_app. split; lia.
Qed.

End SecondSweep.

(** X13: what the second sweep costs.  On a board with [k] valid moves,
    with a mark other than ['.'] and a clock that never passes the
    deadline, the sweep of depth 2 is never cut: it adds exactly
    [k * (k - 1)] to [nodes_expanded], one for each reply to each root
    move, the root moves themselves not being counted, and reads the clock
    once per root move (not at all when [k <= 1]). *)
Theorem second_sweep_counts (clock : nat -> Z) (sym opp : string)
    (start : Z) (w : World) :
  wf (self w) -> sym <> "." ->
  (forall t, clock t - start <= ai_time_limit (self w)) ->
  exists r w',
    sweep clock 2 sym opp start w = Some (r, w') /\
    board (self w') = board (self w) /\
    nodes_expanded (self w')
    = nodes_expanded (self w)
      + Z.of_nat (length (valid_moves (self w)))
        * (Z.of_nat (length (valid_moves (self w))) - 1) /\
    ticks w'
    = (ticks w
       + (if (length (valid_moves (self w)) <=? 1)%nat
          then 0 else length (valid_moves (self w))))%nat.
Proof.
  intros Hwf Hsym Hclock. unfold sweep.
  destruct (sweep_two_rows clock sym opp start (ai_time_limit (self w))
              Hsym Hclock (range (board_size (self w))) (None, NegInf) w
              Hwf eq_refl)
    as (r & w' & Hrun & Hsame & Ht & Hn).
  exists r, w'. split; [exact Hrun|].
  split; [destruct Hsame as (_ & _ & _ & Hb); exact Hb|].
  set (V := length (List.filter _ (list_prod _ _))) in Ht, Hn.
  change (length (valid_moves (self w))) with V in *. clearbody V.
  split; [exact Hn|]. rewrite Ht.
  destruct (V <=? 1)%nat; lia.
Qed.

Lemma second_sweep_counts_witness :
  exists r w',
    sweep (fun _ => 0) 2 "X" "O" 0 (mkWorld (ox_game 5) 0) = Some (r, w') /\
    nodes_expanded (self w') = 0 + 7 * (7 - 1) /\
    ticks w' = 7%nat.
Proof.
  destruct (second_sweep_counts (fun _ => 0) "X" "O" 0 (mkWorld (ox_game 5) 0))
    as (r & w' & Hrun & _ & Hn & Ht).
  - split; [reflexivity|]. repeat constructor.
  - discriminate.
  - intros t. simpl. lia.
  - exists r, w'. split; [exact Hrun|]. split; [exact Hn|exact Ht].
Defined.

(** * The interactive loop *)

(** ** Counting stones *)

Lemma stones_guarded (g : Gomoku) (b : list (list string)) (t : string) :
  @List.filter (Z * Z)
    (fun m : Z * Z => String.eqb (cell b (fst m) (snd m)) t)
    (cells (board_size g))
  = @List.filter (Z * Z)
      (fun m : Z * Z => in_bounds g (fst m) (snd m)
                        && String.eqb (cell b (fst m) (snd m)) t)
      (cells (board_size g)).
Proof.
  apply List.filter_ext_in. intros m Hm. apply In_cells in Hm.
  rewrite (proj2 (in_bounds_spec g (fst m) (snd m)) Hm). reflexivity.
Qed.

Lemma stones_assign (g : Gomoku) (row col : Z) (s t : string) :
  wf g -> is_valid_move g row col = true -> t <> "." ->
  stones (assign g row col s) t
  = stones g t + (if String.eqb s t then 1 else 0).
Proof.
  intros Hwf Hv Ht. pose proof Hv as Hv'.
  apply is_valid_move_spec in Hv' as [Hrc Hdot].
  assert (Hin : in_bounds g row col = true) by (apply in_bounds_spec; exact Hrc).
  unfold stones, count_cells. cbv beta.
  change (board_size (assign g row col s)) with (board_size g).
  rewrite (stones_guarded g (board (assign g row col s)) t).
  rewrite (stones_guarded g (board g) t).
  assert (Hother : forall y : Move, y <> (row, col) ->
            in_bounds g (fst y) (snd y)
            && String.eqb (cell (board g) (fst y) (snd y)) t
            = in_bounds g (fst y) (snd y)
              && String.eqb (cell (board (assign g row col s)) (fst y) (snd y)) t).
  { intros [r c] Hne. cbn [fst snd].
    destruct (in_bounds g r c) eqn:Hy; [|reflexivity]. cbn [andb].
    apply in_bounds_spec in Hy. unfold assign, with_board. cbn [board].
    rewrite set_cell_other; [reflexivity|].
    intros [= H1 H2]. apply Hne. f_equal; lia. }
  destruct (String.eqb_spec s t) as [->|Hst].
  - rewrite (filter_drop_one _
               (fun m : Move => in_bounds g (fst m) (snd m)
                                && String.eqb (cell (board g) (fst m) (snd m)) t)
               _ (row, col)).
    + rewrite Nat2Z.inj_succ. reflexivity.
    + apply cells_sorted.
    + apply In_cells. exact Hrc.
    + cbn [fst snd]. rewrite Hin, (cell_assign_same g row col t Hwf Hin).
      rewrite String.eqb_refl. reflexivity.
    + cbn [fst snd]. rewrite Hin, Hdot. cbn [andb].
      apply String.eqb_neq. congruence.
    + exact Hother.
  - cbv iota. rewrite Z.add_0_r. do 2 f_equal. apply List.filter_ext.
    intros y. destruct (decide (y = (row, col))) as [->|Hne].
    + cbn [fst snd]. rewrite Hin, Hdot, (cell_assign_same g row col s Hwf Hin).
      cbn [andb]. rewrite (proj2 (String.eqb_neq s t) Hst).
      symmetry. apply String.eqb_neq. congruence.
    + symmetry. apply Hother, Hne.
Qed.

Lemma stones_init (size wlen limit : Z) (t : string) :
  t <> "." -> stones (init size wlen limit) t = 0.
Proof.
  intros Ht. unfold stones, count_cells. rewrite filter_none; [reflexivity|].
  cbv beta.
  intros m Hm. apply In_cells in Hm.
  rewrite cell_init by (apply in_bounds_spec; exact Hm).
  apply String.eqb_neq. congruence.
Qed.

Lemma stones_same (g g' : Gomoku) (t : string) :
  same_game g g' -> stones g' t = stones g t.
Proof. intros H. same_game_subst H. destruct g; reflexivity. Qed.

Lemma check_direction_same (g g' : Gomoku) (row col dr dc : Z) (s : string) :
  same_game g g' ->
  check_direction g' row col dr dc s = check_direction g row col dr dc s.
Proof.
  intros (H1 & H2 & _ & H4). apply Bool.eq_iff_eq_true.
  rewrite !check_direction_spec. unfold in_bounds. rewrite H1, H2, H4.
  reflexivity.
Qed.

Lemma check_win_same (g g' : Gomoku) (p : Player) :
  same_game g g' -> check_win g' p = check_win g p.
Proof.
  intros Hsame. apply Bool.eq_iff_eq_true. rewrite !check_win_spec.
  split; intros (row & col & Hin & H); exists row, col.
  - rewrite !(check_direction_same _ _ _ _ _ _ _ Hsame) in H.
    split; [|exact H]. destruct Hsame as (H1 & _).
    unfold in_bounds in *. rewrite <- H1. exact Hin.
  - rewrite !(check_direction_same _ _ _ _ _ _ _ Hsame).
    split; [|exact H]. destruct Hsame as (H1 & _).
    unfold in_bounds in *. rewrite H1. exact Hin.
Qed.

(** ** A rule for the loop *)

Section PlayRule.

Variable clock : nat -> Z.
Variable rand : nat -> nat.
Variable patience : nat.
Variable typed : nat -> Entry.
Variables player1 player2 : Player.

(** An invariant of the turns and what is to hold of the outcome. *)
Variable Inv : bool -> Gomoku -> Prop.
Variable Post : Outcome -> Gomoku -> Prop.

Hypothesis Inv_same :
  forall b g g', same_game g g' -> Inv b g -> Inv b g'.
Hypothesis Inv_move :
  forall b g row col,
    Inv b g -> is_valid_move g row col = true ->
    if check_win (assign g row col (symbol (if b then player1 else player2)))
         (if b then player1 else player2)
    then Post (Won (if b then player1 else player2))
           (assign g row col (symbol (if b then player1 else player2)))
    else if is_full (assign g row col (symbol (if b then player1 else player2)))
         then Post Drawn
                (assign g row col (symbol (if b then player1 else player2)))
         else Inv (negb b)
                (assign g row col (symbol (if b then player1 else player2))).
Hypothesis Inv_no_move :
  forall b g, Inv b g -> is_ai (if b then player1 else player2) = true ->
              Post (NoMove (if b then player1 else player2)) g.
Hypothesis Inv_raised :
  forall b g, Inv b g -> is_ai (if b then player1 else player2) = false ->
              Post Raised g.

Lemma play_loop_rule (n : nat) (b : bool) (k : nat) (w : World)
    (out : Outcome) (w' : World) :
  Inv b (self w) ->
  play_loop clock rand patience typed n player1 player2 b k w = Some (out, w') ->
  Post out (self w').
Proof.
  revert b k w. induction n as [|n IH]; intros b k w Hi; cbn [play_loop];
    [discriminate|].
  cbv zeta.
  assert (Hattempt : forall row col k' w1,
            Inv b (self w1) ->
            (let (ok, g) :=
               make_move (self w1) (if b then player1 else player2) row col in
             if ok
             then if check_win g (if b then player1 else player2)
                  then Some (Won (if b then player1 else player2),
                             mkWorld g (ticks w1))
                  else if is_full g
                       then Some (Drawn, mkWorld g (ticks w1))
                       else play_loop clock rand patience typed n
                              player1 player2 (negb b) k'
                              (mkWorld g (ticks w1))
             else play_loop clock rand patience typed n player1 player2 b k'
                    (mkWorld g (ticks w1)))
            = Some (out, w') -> Post out (self w')).
  { intros row col k' w1 Hi1. unfold make_move.
    destruct (is_valid_move (self w1) row col) eqn:Hv.
    - pose proof (Inv_move b (self w1) row col Hi1 Hv) as Hstep.
      destruct (check_win _ _); [intros [= <- <-]; exact Hstep|].
      destruct (is_full _); [intros [= <- <-]; exact Hstep|].
      intros Hrest. eapply IH; [|exact Hrest]. exact Hstep.
    - intros Hrest. eapply IH; [|exact Hrest]. exact Hi1. }
  destruct (is_ai (if b then player1 else player2)) eqn:Hai.
  - destruct (get_ai_move _ _ _ _ _ _) as [[[[row col]|] w1]|] eqn:Hmove;
      [| |discriminate].
    + destruct (get_ai_move_sound _ _ _ _ _ _ _ _ Hmove) as ([Hsame _] & _).
      apply Hattempt. eapply Inv_same; eassumption.
    + destruct (get_ai_move_sound _ _ _ _ _ _ _ _ Hmove) as ([Hsame _] & _).
      intros [= <- <-]. apply Inv_no_move; [|exact Hai].
      eapply Inv_same; eassumption.
  - destruct (typed k) as [row col| |].
    + apply Hattempt. exact Hi.
    + intros Hrest. eapply IH; [|exact Hrest]. exact Hi.
    + intros [= <- <-]. apply (Inv_raised b); assumption.
Qed.

End PlayRule.

(** ** The outcome of a game *)

(** X14: what [play] announces is true of the board it leaves.  From a
    position where neither player has a line yet, the players having
    distinct marks other than ['.']: a player declared winner has a line and
    the other has none; a draw is a full board without a line; when a
    machine offers no move nobody has a line; and no stone that was on the
    board has been changed. *)
Theorem play_result_sound (clock : nat -> Z) (rand : nat -> nat)
    (patience : nat) (typed : nat -> Entry) (n : nat)
    (player1 player2 : Player) (first : bool) (k : nat) (w : World)
    (out : Outcome) (w' : World) :
  wf (self w) ->
  symbol player1 <> "." -> symbol player2 <> "." ->
  symbol player1 <> symbol player2 ->
  check_win (self w) player1 = false -> check_win (self w) player2 = false ->
  play_loop clock rand patience typed n player1 player2 first k w
    = Some (out, w') ->
  (forall p, out = Won p ->
     check_win (self w') p = true /\
     ((p = player1 /\ check_win (self w') player2 = false) \/
      (p = player2 /\ check_win (self w') player1 = false))) /\
  (out = Drawn ->
     is_full (self w') = true /\
     check_win (self w') player1 = false /\
     check_win (self w') player2 = false) /\
  (forall p, out = NoMove p ->
     is_ai p = true /\
     check_win (self w') player1 = false /\
     check_win (self w') player2 = false) /\
  (forall row col,
     in_bounds (self w) row col = true ->
     cell (board (self w)) row col <> "." ->
     cell (board (self w')) row col = cell (board (self w)) row col).
Proof.
  intros Hwf Hs1 Hs2 Hs12 Hw1 Hw2 Hrun.
  pose (kept := fun g : Gomoku =>
          forall row col,
            in_bounds (self w) row col = true ->
            cell (board (self w)) row col <> "." ->
            cell (board g) row col = cell (board (self w)) row col).
  pose (quiet := fun g : Gomoku =>
          check_win g player1 = false /\ check_win g player2 = false).
  refine (play_loop_rule clock rand patience typed player1 player2
            (fun _ g => wf g /\ board_size g = board_size (self w) /\
                        quiet g /\ kept g)
            (fun o g =>
               (forall p, o = Won p ->
                  check_win g p = true /\
                  ((p = player1 /\ check_win g player2 = false) \/
                   (p = player2 /\ check_win g player1 = false))) /\
               (o = Drawn -> is_full g = true /\ quiet g) /\
               (forall p, o = NoMove p -> is_ai p = true /\ quiet g) /\
               kept g)
            _ _ _ _ n first k w out w' _ Hrun).
  - intros b g g' Hsame (H1 & H2 & [H3 H4] & H5).
    split; [exact (wf_same _ _ Hsame H1)|].
    split; [destruct Hsame as (-> & _); exact H2|].
    split; [split; rewrite (check_win_same _ _ _ Hsame); assumption|].
    intros row col Hin Hcell. destruct Hsame as (_ & _ & _ & ->).
    apply H5; assumption.
  - intros b g row col (H1 & H2 & [H3 H4] & H5) Hv.
    set (p := if b then player1 else player2).
    set (q := if b then player2 else player1).
    assert (Hp : symbol p <> ".") by (subst p; destruct b; assumption).
    assert (Hq : symbol q <> ".") by (subst q; destruct b; assumption).
    assert (Hpq : symbol q <> symbol p)
      by (subst p q; destruct b; congruence).
    assert (Hqw : check_win g q = false) by (subst q; destruct b; assumption).
    assert (Hq' : check_win (assign g row col (symbol p)) q = false).
    { destruct (check_win (assign g row col (symbol p)) q) eqn:E; [|reflexivity].
      apply (proj2 (check_win_assign g q row col (symbol p) H1 Hv Hq) Hpq) in E.
      congruence. }
    assert (Hkept : kept (assign g row col (symbol p))).
    { intros r c Hin Hcell. rewrite <- (H5 r c Hin Hcell).
      unfold assign, with_board. cbn [board]. apply set_cell_other.
      pose proof Hv as Hv'. apply is_valid_move_spec in Hv' as [Hrc Hdot].
      apply in_bounds_spec in Hin.
      intros [= E1 E2].
      assert (r = row) by lia. assert (c = col) by lia. subst r c.
      rewrite (H5 row col) in Hdot; [congruence|apply in_bounds_spec; lia|].
      exact Hcell. }
    destruct (check_win (assign g row col (symbol p)) p) eqn:Hwin.
    + split; [|split; [discriminate|split; [discriminate|exact Hkept]]].
      intros p0 [= <-]. split; [exact Hwin|].
      subst p q. destruct b; [left|right]; split; auto.
    + destruct (is_full (assign g row col (symbol p))) eqn:Hfull.
      * split; [discriminate|]. split; [|split; [discriminate|exact Hkept]].
        intros _. split; [reflexivity|].
        subst p q quiet. cbv beta. destruct b; split; assumption.
      * split; [apply wf_assign, H1|]. split; [exact H2|].
        split; [|exact Hkept].
        subst p q quiet. cbv beta. destruct b; split; assumption.
  - intros b g (H1 & H2 & H3 & H5) Hai.
    split; [discriminate|]. split; [discriminate|]. split; [|exact H5].
    intros p [= <-]. split; [exact Hai|exact H3].
  - intros b g (H1 & H2 & H3 & H5) _.
    split; [discriminate|]. split; [discriminate|]. split; [discriminate|].
    exact H5.
  - split; [exact Hwf|]. split; [reflexivity|]. split; [split; assumption|].
    intros row col _ _. reflexivity.
Qed.

Lemma play_result_sound_witness :
  check_win
    (mkGomoku 3 3 2 [["O"; "X"; "."]; ["."; "X"; "."]; ["."; "X"; "."]] 0)
    (mkPlayer "X" (Some "greedy")) = true.
Proof.
  destruct (play_result_sound (fun _ => 0) (fun _ => 0%nat) 5
              (fun _ => Uncaught) 20
              (mkPlayer "X" (Some "greedy")) (mkPlayer "O" (Some "random"))
              true 0 (mkWorld (assign (init 3 3 2) 1 1 "X") 0)
              (Won (mkPlayer "X" (Some "greedy")))
              (mkWorld
                 (mkGomoku 3 3 2
                    [["O"; "X"; "."]; ["."; "X"; "."]; ["."; "X"; "."]] 0) 0))
    as (Hwon & _).
  - apply wf_assign, wf_init.
  - discriminate.
  - discriminate.
  - discriminate.
  - reflexivity.
  - reflexivity.
  - vm_compute. reflexivity.
  - apply (Hwon _ eq_refl).
Defined.

(** ** The opening *)

Lemma centre_valid (size wlen limit : Z) :
  1 <= size ->
  is_valid_move (init size wlen limit) (size / 2) (size / 2) = true.
Proof.
  intros Hsize.
  assert (H : 0 <= size / 2 < size).
  { split; [apply Z.div_pos; lia|apply Z.div_lt; lia]. }
  apply is_valid_move_spec. cbn [init board_size].
  split; [lia|]. apply cell_init, in_bounds_spec. cbn [init board_size]. lia.
Qed.

(** X15: the balance of stones.  On the constructor's board, [play] gives a
    machine playing 'X' the centre and then the first turn of the loop as
    well: at the end of the game 'X' has one or two stones more than 'O',
    two when 'X' is declared winner.  With a human as player 1 the
    difference is zero or one. *)
Theorem opening_stone_balance (clock : nat -> Z) (rand : nat -> nat)
    (patience : nat) (typed : nat -> Entry) (n : nat)
    (size wlen limit0 limit : Z) (type1 type2 : string) (t : nat)
    (out : Outcome) (w' : World) :
  1 <= size ->
  play clock rand patience typed n limit type1 type2
    (mkWorld (init size wlen limit0) t) = Some (out, w') ->
  (if is_ai (player_of "X" type1) then 1 else 0)
    <= stones (self w') "X" - stones (self w') "O"
    <= (if is_ai (player_of "X" type1) then 1 else 0) + 1 /\
  (forall p, out = Won p ->
     stones (self w') "X" - stones (self w') "O"
     = (if is_ai (player_of "X" type1) then 1 else 0)
       + (if String.eqb (symbol p) "X" then 1 else 0)).
Proof.
  intros Hsize Hrun. unfold play in Hrun. cbn [self ticks] in Hrun.
  change (with_limit (init size wlen limit0) limit)
    with (init size wlen limit) in Hrun.
  cbn [init board_size] in Hrun. fold (init size wlen limit) in Hrun.
  set (d := if is_ai (player_of "X" type1) then 1 else 0) in *.
  refine (play_loop_rule clock rand patience typed
            (player_of "X" type1) (player_of "O" type2)
            (fun b g => wf g /\
                        stones g "X" - stones g "O"
                        = d + (if b then 0 else 1))
            (fun o g =>
               d <= stones g "X" - stones g "O" <= d + 1 /\
               (forall p, o = Won p ->
                  stones g "X" - stones g "O"
                  = d + (if String.eqb (symbol p) "X" then 1 else 0)))
            _ _ _ _ n true 0 _ out w' _ Hrun).
  - intros b g g' Hsame [H1 H2]. split; [exact (wf_same _ _ Hsame H1)|].
    rewrite !(stones_same _ _ _ Hsame). exact H2.
  - intros b g row col [H1 H2] Hv.
    assert (Hbal : stones (assign g row col (if b then "X" else "O")) "X"
                   - stones (assign g row col (if b then "X" else "O")) "O"
                   = d + (if b then 1 else 0)).
    { rewrite !(stones_assign g row col _ _ H1 Hv) by discriminate.
      destruct b; cbn; cbn in H2; lia. }
    replace (symbol (if b then player_of "X" type1 else player_of "O" type2))
      with (if b then "X" else "O") by (destruct b; reflexivity).
    destruct (check_win _ _).
    + split; [destruct b; lia|]. intros p [= <-]. rewrite Hbal.
      destruct b; reflexivity.
    + destruct (is_full _).
      * split; [destruct b; lia|discriminate].
      * split; [apply wf_assign, H1|]. rewrite Hbal. destruct b; reflexivity.
  - intros b g [H1 H2] _. split; [destruct b; lia|discriminate].
  - intros b g [H1 H2] _. split; [destruct b; lia|discriminate].
  - cbn [self]. subst d.
    destruct (is_ai (player_of "X" type1)).
    + unfold make_move. rewrite (centre_valid size wlen limit Hsize).
      cbn [snd]. split; [apply wf_assign, wf_init|].
      rewrite !(stones_assign _ _ _ _ _ (wf_init size wlen limit)
                  (centre_valid size wlen limit Hsize)) by discriminate.
      rewrite !stones_init by discriminate. reflexivity.
    + split; [apply wf_init|].
      rewrite !stones_init by discriminate. reflexivity.
Qed.

Lemma opening_stone_balance_witness :
  stones (mkGomoku 3 3 2 [["O"; "X"; "."]; ["."; "X"; "."]; ["."; "X"; "."]] 0)
    "X"
  - stones (mkGomoku 3 3 2 [["O"; "X"; "."]; ["."; "X"; "."]; ["."; "X"; "."]] 0)
      "O"
  = 1 + 1.
Proof.
  destruct (opening_stone_balance (fun _ => 0) (fun _ => 0%nat) 5
              (fun _ => Uncaught) 20 3 3 2 2 "greedy" "random" 0%nat
              (Won (mkPlayer "X" (Some "greedy")))
              (mkWorld
                 (mkGomoku 3 3 2
                    [["O"; "X"; "."]; ["."; "X"; "."]; ["."; "X"; "."]] 0) 0))
    as [_ Hwon].
  - lia.
  - vm_compute. reflexivity.
  - apply (Hwon _ eq_refl).
Defined.

(** ** Games between machines *)

Lemma clockless_move (clock : nat -> Z) (rand : nat -> nat) (n : nat)
    (p o : Player) (w : World) :
  In (ai_type p) [Some "random"; Some "greedy"; Some "worst"] ->
  wf (self w) -> is_full (self w) = false ->
  exists m,
    get_ai_move clock rand n p o w = Some (Some m, w) /\
    is_valid_move (self w) (fst m) (snd m) = true.
Proof.
  intros Htype Hwf Hfull.
  assert (Hne : valid_moves (self w) <> []).
  { intros H. apply (is_full_valid_moves _ Hwf) in H. congruence. }
  assert (Hrun : exists m, get_ai_move clock rand n p o w = Some (Some m, w)).
  { unfold get_ai_move.
    destruct Htype as [<-|[<-|[<-|[]]]].
    - destruct (decide _) as [_|E]; [|congruence].
      unfold random_ai.
      destruct (valid_moves (self w)) as [|m0 l] eqn:Hl; [congruence|].
      assert (Hlt : (rand (length (m0 :: l)) mod length (m0 :: l)
                     < length (m0 :: l))%nat).
      { apply Nat.mod_upper_bound. simpl. lia. }
      destruct (lookup_lt_is_Some_2 _ _ Hlt) as [x Hx]. rewrite Hx.
      exists x. reflexivity.
    - destruct (decide _) as [E|_]; [discriminate E|].
      destruct (decide _) as [_|E]; [|congruence].
      rewrite greedy_ai_scan.
      destruct (valid_moves (self w)) as [|m0 l] eqn:Hl; [congruence|].
      destruct (scan_max_first_maximal (lookahead (self w) (symbol p)) (m0 :: l))
        as (m & -> & _); [discriminate|].
      cbn [fst]. rewrite world_eta. exists m. reflexivity.
    - destruct (decide _) as [E|_]; [discriminate E|].
      destruct (decide _) as [E|_]; [discriminate E|].
      destruct (decide _) as [_|E]; [|congruence].
      rewrite worst_ai_scan.
      destruct (valid_moves (self w)) as [|m0 l] eqn:Hl; [congruence|].
      destruct (scan_min_first_minimal (lookahead (self w) (symbol o)) (m0 :: l))
        as (m & -> & _); [discriminate|].
      cbn [fst]. rewrite world_eta. exists m. reflexivity. }
  destruct Hrun as [m Hrun]. exists m. split; [exact Hrun|].
  destruct (get_ai_move_sound _ _ _ _ _ _ _ _ Hrun) as (_ & _ & _ & Hvalid).
  apply Hvalid. reflexivity.
Qed.

Lemma clockless_is_ai (p : Player) :
  In (ai_type p) [Some "random"; Some "greedy"; Some "worst"] ->
  is_ai p = true.
Proof.
  unfold is_ai. intros [<-|[<-|[<-|[]]]]; reflexivity.
Qed.

Lemma play_loop_machines (clock : nat -> Z) (rand : nat -> nat)
    (patience : nat) (typed : nat -> Entry) (player1 player2 : Player)
    (n : nat) (b : bool) (k : nat) (w : World) :
  In (ai_type player1) [Some "random"; Some "greedy"; Some "worst"] ->
  In (ai_type player2) [Some "random"; Some "greedy"; Some "worst"] ->
  symbol player1 <> "." -> symbol player2 <> "." ->
  wf (self w) -> is_full (self w) = false ->
  (length (valid_moves (self w)) <= n)%nat ->
  exists out g',
    play_loop clock rand patience typed n player1 player2 b k w
      = Some (out, mkWorld g' (ticks w)) /\
    (out = Drawn \/ exists p, out = Won p) /\
    nodes_expanded g' = nodes_expanded (self w).
Proof.
  intros H1 H2 Hs1 Hs2. revert b w.
  induction n as [|n IH]; intros b w Hwf Hfull Hlen.
  { exfalso. destruct (valid_moves (self w)) eqn:Hl; [|simpl in Hlen; lia].
    apply (is_full_valid_moves _ Hwf) in Hl. congruence. }
  cbn [play_loop]. cbv zeta.
  assert (Hcur : In (ai_type (if b then player1 else player2))
                   [Some "random"; Some "greedy"; Some "worst"])
    by (destruct b; assumption).
  assert (Hsym : symbol (if b then player1 else player2) <> ".")
    by (destruct b; assumption).
  rewrite (clockless_is_ai _ Hcur).
  destruct (clockless_move clock rand patience _
              (if b then player2 else player1) w Hcur Hwf Hfull)
    as ([row col] & -> & Hv).
  cbn [fst snd] in Hv. unfold make_move. rewrite Hv.
  destruct (check_win _ _).
  { eexists _, _. split; [reflexivity|]. split; [right; eauto|reflexivity]. }
  destruct (is_full (assign (self w) row col _)) eqn:Hfull'.
  { eexists _, _. split; [reflexivity|]. split; [left; reflexivity|reflexivity]. }
  pose proof (valid_moves_assign (self w) row col _ Hwf Hsym Hv) as Hdrop.
  destruct (IH (negb b)
              (mkWorld (assign (self w) row col
                          (symbol (if b then player1 else player2))) (ticks w)))
    as (out & g' & Hrun & Hout & Hcount).
  - apply wf_assign, Hwf.
  - exact Hfull'.
  - cbn [self]. lia.
  - exists out, g'. split; [exact Hrun|]. split; [exact Hout|exact Hcount].
Qed.

Lemma valid_moves_init (size wlen limit : Z) :
  length (valid_moves (init size wlen limit))
  = (Z.to_nat size * Z.to_nat size)%nat.
Proof.
  unfold valid_moves. cbn [init board_size]. rewrite filter_all.
  - unfold cells. etransitivity; [apply length_prod|].
    rewrite length_range. reflexivity.
  - intros m Hm. apply In_cells in Hm. apply is_valid_move_spec.
    cbn [init board_size]. split; [exact Hm|].
    apply cell_init, in_bounds_spec. exact Hm.
Qed.

(** X16: a game between machines of the types ['random'], ['greedy'] and
    ['worst'] on the constructor's board of size at least 2 always ends,
    within [board_size * board_size - 1] turns, with a winner or a draw;
    it reads no clock and counts no node. *)
Theorem machine_game_ends (clock : nat -> Z) (rand : nat -> nat)
    (patience : nat) (typed : nat -> Entry) (n : nat)
    (size wlen limit0 limit : Z) (type1 type2 : string) (t : nat) :
  2 <= size ->
  In type1 ["random"; "greedy"; "worst"] ->
  In type2 ["random"; "greedy"; "worst"] ->
  size * size - 1 <= Z.of_nat n ->
  exists out g',
    play clock rand patience typed n limit type1 type2
      (mkWorld (init size wlen limit0) t) = Some (out, mkWorld g' t) /\
    (out = Drawn \/ exists p, out = Won p) /\
    nodes_expanded g' = 0.
Proof.
  intros Hsize H1 H2 Hn. unfold play. cbn [self ticks].
  change (with_limit (init size wlen limit0) limit)
    with (init size wlen limit).
  cbn [init board_size]. fold (init size wlen limit).
  assert (Hp1 : In (ai_type (player_of "X" type1))
                  [Some "random"; Some "greedy"; Some "worst"]).
  { destruct H1 as [<-|[<-|[<-|[]]]]; cbn; tauto. }
  assert (Hp2 : In (ai_type (player_of "O" type2))
                  [Some "random"; Some "greedy"; Some "worst"]).
  { destruct H2 as [<-|[<-|[<-|[]]]]; cbn; tauto. }
  rewrite (clockless_is_ai _ Hp1).
  pose proof (centre_valid size wlen limit ltac:(lia)) as Hv.
  unfold make_move. rewrite Hv. cbn [snd].
  pose proof (valid_moves_assign (init size wlen limit) (size / 2) (size / 2)
                (symbol (player_of "X" type1)) (wf_init size wlen limit)
                ltac:(discriminate) Hv) as Hdrop.
  rewrite valid_moves_init in Hdrop.
  assert (Hsq : (Z.to_nat size * Z.to_nat size)%nat = Z.to_nat (size * size)).
  { rewrite Z2Nat.inj_mul by lia. reflexivity. }
  destruct (play_loop_machines clock rand patience typed
              (player_of "X" type1) (player_of "O" type2) n true 0
              (mkWorld (assign (init size wlen limit) (size / 2) (size / 2)
                          (symbol (player_of "X" type1))) t))
    as (out & g' & Hrun & Hout & Hcount);
    try assumption; try discriminate.
  - apply wf_assign, wf_init.
  - cbn [self].
    destruct (is_full _) eqn:Hfull; [|reflexivity].
    apply (is_full_valid_moves _ (wf_assign _ _ _ _ (wf_init size wlen limit)))
      in Hfull.
    rewrite Hfull in Hdrop. cbn [length] in Hdrop. nia.
  - cbn [self]. nia.
  - exists out, g'. split; [exact Hrun|]. split; [exact Hout|exact Hcount].
Qed.

Lemma machine_game_ends_witness :
  exists out g',
    play (fun _ => 0) (fun _ => 0%nat) 0 (fun _ => Uncaught) 8 2
      "greedy" "random" (mkWorld (init 3 3 2) 0) = Some (out, mkWorld g' 0) /\
    (out = Drawn \/ exists p, out = Won p) /\
    nodes_expanded g' = 0.
Proof.
  apply (machine_game_ends (fun _ => 0) (fun _ => 0%nat) 0 (fun _ => Uncaught)
           8 3 3 2 2 "greedy" "random" 0%nat).
  - lia.
  - simpl. tauto.
  - simpl. tauto.
  - lia.
Defined.

(** X17: a player whose type is not empty and is none of ['random'],
    ['greedy'], ['worst'] and ['expert'] stops the game at that player's
    first turn: [get_ai_move] offers no move, whatever the board holds, and
    [play] ends with the object untouched. *)
Theorem unknown_type_stops_play (clock : nat -> Z) (rand : nat -> nat)
    (patience : nat) (typed : nat -> Entry) (n : nat)
    (player1 player2 : Player) (first : bool) (k : nat) (w : World) :
  is_ai (if first then player1 else player2) = true ->
  ~ In (ai_type (if first then player1 else player2))
      [Some "random"; Some "greedy"; Some "worst"; Some "expert"] ->
  play_loop clock rand patience typed (S n) player1 player2 first k w
  = Some (NoMove (if first then player1 else player2), w).
Proof.
  intros Hai Hunknown. cbn [play_loop]. cbv zeta. rewrite Hai.
  unfold get_ai_move.
  destruct (decide _) as [E|_]; [exfalso; apply Hunknown; rewrite E; simpl; tauto|].
  destruct (decide _) as [E|_]; [exfalso; apply Hunknown; rewrite E; simpl; tauto|].
  destruct (decide _) as [E|_]; [exfalso; apply Hunknown; rewrite E; simpl; tauto|].
  destruct (decide _) as [E|_]; [exfalso; apply Hunknown; rewrite E; simpl; tauto|].
  reflexivity.
Qed.

Lemma unknown_type_stops_play_witness :
  play_loop (fun _ => 0) (fun _ => 0%nat) 5 (fun _ => Uncaught) 1
    (player_of "X" "gredy") (player_of "O" "random") true 0
    (mkWorld (init 15 5 2) 0)
  = Some (NoMove (player_of "X" "gredy"), mkWorld (init 15 5 2) 0).
Proof.
  apply (unknown_type_stops_play (fun _ => 0) (fun _ => 0%nat) 5
           (fun _ => Uncaught) 0 (player_of "X" "gredy")
           (player_of "O" "random") true 0 (mkWorld (init 15 5 2) 0)).
  - reflexivity.
  - simpl. intros [H|[H|[H|[H|[]]]]]; discriminate H.
Defined.
